(** * lego-plotter: the control core, embedded and checked against its specification

    The development follows the TypeScript sources:
    - [lib/types.ts]              (module [Types])
    - [lib/MovementValidator.ts]  (module [MovementValidator])
    - [lib/CommandQueue.ts]       (module [CommandQueue])
    - [lib/pathUtils.ts]          (modules [PathProcessor], [PathOptimizer],
                                   [PathExecutor])
    - [lib/PathPlanner.ts]        (module [PathPlanner])
    - [lib/SafetyController.ts]   (module [SafetyController])
    - [app/page.tsx]              (modules [TestInterface], [Page]: what the
                                   page does with the queue and the controller)

    Part I holds the embedding, Part II the lemmas and theorems about it.

    A JavaScript [number] is an IEEE 754 binary64 value; it is modelled by
    Rocq's primitive [float], whose operations are the same binary64
    operations, so that the functions below evaluate exactly as the
    program does. *)

From Stdlib Require Import Floats.PrimFloat.
From Stdlib Require Floats.FloatOps Floats.SpecFloat Floats.FloatAxioms.
From Stdlib Require Import ZArith String Bool List Lia.
From Stdlib Require Import Sorted.
Import ListNotations.

Set Implicit Arguments.

(* ================================================================== *)
(** * JavaScript values used by the sources *)
(* ================================================================== *)

Module Js.

Definition number := float.

(** A template literal is kept as its pieces: the literal chunks and the
    interpolated numbers, in order. *)
Inductive frag : Type :=
| Lit (s : string)
| Num (n : number).

Definition text := list frag.

Definition lit (s : string) : text := [Lit s].

Local Open Scope float_scope.

(** [Math.max(a, b)]: NaN if either argument is NaN; [+0] is larger
    than [-0]. *)
Definition max (a b : number) : number :=
  if is_nan a || is_nan b then nan
  else if a <? b then b
  else if b <? a then a
  else if is_zero a && get_sign a then b else a.

(** [Math.min(a, b)]: NaN if either argument is NaN; [-0] is smaller
    than [+0]. *)
Definition min (a b : number) : number :=
  if is_nan a || is_nan b then nan
  else if a <? b then a
  else if b <? a then b
  else if is_zero a && get_sign a then a else b.

(** [!v] for [v : number | undefined]: undefined, NaN, [+0] and [-0]
    are falsy. *)
Definition falsy (v : option number) : bool :=
  match v with
  | None => true
  | Some n => is_zero n || is_nan n
  end.

(** The number that counts [n]: what a variable holds after [n]
    increments from 0 (exact below 2^53), and the [length] of an array
    of [n] elements. *)
Fixpoint of_nat (n : nat) : number :=
  match n with
  | O => 0
  | S n' => of_nat n' + 1
  end.

(** A call that returns a value or throws an [Error] with a message. *)
Inductive result (A : Type) : Type :=
| Ok (a : A)
| Throw (message : text).

Arguments Ok {A} a.
Arguments Throw {A} message.

End Js.

(* ================================================================== *)
(** * lib/types.ts *)
(* ================================================================== *)

Module Types.

Import Js.
Local Open Scope float_scope.

(** ['move' | 'draw'] *)
Module MoveType.
Inductive t : Type := move | draw.

(** [a === b] *)
Definition eqb (a b : t) : bool :=
  match a, b with
  | move, move | draw, draw => true
  | _, _ => false
  end.
End MoveType.

Module PlotterMove.
Record t : Type := mk {
  type : MoveType.t;
  x : number;
  y : number;
  z : option number   (* z?: number, for pen up/down *)
}.
End PlotterMove.

Module BoundingBox.
Record t : Type := mk {
  minX : number;
  maxX : number;
  minY : number;
  maxY : number
}.
End BoundingBox.

Module PlotterSequence.
Record t : Type := mk {
  name : string;
  moves : list PlotterMove.t;
  boundingBox : BoundingBox.t
}.
End PlotterSequence.

Module Zone.
Record t : Type := mk {
  x1 : number;
  y1 : number;
  x2 : number;
  y2 : number
}.
End Zone.

Module MovementValidatorConfig.
Record t : Type := mk {
  minX : number;
  maxX : number;
  minY : number;
  maxY : number;
  paperWidth : number;
  paperHeight : number;
  safeZones : option (list Zone.t);
  dangerZones : option (list Zone.t)
}.
End MovementValidatorConfig.

Module ValidationResult.
Record t : Type := mk {
  valid : bool;
  reason : option text
}.
End ValidationResult.

Module SimpleCalibration.
Record t : Type := mk {
  x : number;
  y : number
}.
End SimpleCalibration.

Module DrawingArea.
Record t : Type := mk {
  width : number;
  height : number
}.
End DrawingArea.

Module PreviewPath.
Record t : Type := mk {
  startX : number;
  startY : number;
  endX : number;
  endY : number;
  type : MoveType.t
}.
End PreviewPath.

Module Point.
Record t : Type := mk {
  x : number;
  y : number
}.
End Point.

(** [interface PathSegment]; the field [end] is written [end_]. *)
Module PathSegment.
Record t : Type := mk {
  type : MoveType.t;
  start : Point.t;
  end_ : Point.t
}.
End PathSegment.

Definition A5_SIZE : DrawingArea.t :=
  DrawingArea.mk 148 210.

Definition MOVEMENT_BOUNDS : MovementValidatorConfig.t :=
  MovementValidatorConfig.mk
    0 (DrawingArea.width A5_SIZE)
    0 (DrawingArea.height A5_SIZE)
    (DrawingArea.width A5_SIZE) (DrawingArea.height A5_SIZE)
    None
    (Some [Zone.mk (-10) (-10) 10 10]).

(** Milliseconds. *)
Definition COMMAND_TIMEOUT : Z := 5000.

Definition MONITORING_INTERVAL : Z := 100.

End Types.

(* ================================================================== *)
(** * lib/MovementValidator.ts *)
(* ================================================================== *)

Module MovementValidator.

Import Js Types.
Local Open Scope float_scope.

(** The validator object: its three private fields. *)
Record t : Type := mk {
  bounds : MovementValidatorConfig.t;
  calibration : SimpleCalibration.t;
  simulationMode : bool
}.

Definition ok : ValidationResult.t := ValidationResult.mk true None.

Definition invalid (r : text) : ValidationResult.t :=
  ValidationResult.mk false (Some r).

Definition isInZone (x y : number) (zone : Zone.t) : bool :=
  (zone.(Zone.x1) <=? x) && (x <=? zone.(Zone.x2)) &&
  (zone.(Zone.y1) <=? y) && (y <=? zone.(Zone.y2)).

Definition doLinesIntersect
    (x1 y1 x2 y2 x3 y3 x4 y4 : number) : bool :=
  let denominator := (x2 - x1) * (y4 - y3) - (y2 - y1) * (x4 - x3) in
  if denominator =? 0 then false
  else
    let ua := ((x4 - x3) * (y1 - y3) - (y4 - y3) * (x1 - x3)) / denominator in
    let ub := ((x2 - x1) * (y1 - y3) - (y2 - y1) * (x1 - x3)) / denominator in
    (0 <=? ua) && (ua <=? 1) && (0 <=? ub) && (ub <=? 1).

Definition doesLineIntersectZone
    (x1 y1 x2 y2 : number) (zone : Zone.t) : bool :=
  let lines :=
    [ (* Top line *)
      (zone.(Zone.x1), zone.(Zone.y1), zone.(Zone.x2), zone.(Zone.y1));
      (* Right line *)
      (zone.(Zone.x2), zone.(Zone.y1), zone.(Zone.x2), zone.(Zone.y2));
      (* Bottom line *)
      (zone.(Zone.x1), zone.(Zone.y2), zone.(Zone.x2), zone.(Zone.y2));
      (* Left line *)
      (zone.(Zone.x1), zone.(Zone.y1), zone.(Zone.x1), zone.(Zone.y2)) ] in
  existsb
    (fun line =>
       match line with
       | (lx1, ly1, lx2, ly2) =>
           doLinesIntersect x1 y1 x2 y2 lx1 ly1 lx2 ly2
       end)
    lines.

(** [x < lo || x > hi] *)
Definition outside (v lo hi : number) : bool := (v <? lo) || (hi <? v).

Definition validatePosition (this : t) (x y : number) : ValidationResult.t :=
  let b := this.(bounds) in
  if this.(simulationMode) then ok
  else if outside x b.(MovementValidatorConfig.minX) b.(MovementValidatorConfig.maxX) then
    invalid [Lit "X position "; Num x; Lit " outside bounds (";
             Num b.(MovementValidatorConfig.minX); Lit "-";
             Num b.(MovementValidatorConfig.maxX); Lit ")"]
  else if outside y b.(MovementValidatorConfig.minY) b.(MovementValidatorConfig.maxY) then
    invalid [Lit "Y position "; Num y; Lit " outside bounds (";
             Num b.(MovementValidatorConfig.minY); Lit "-";
             Num b.(MovementValidatorConfig.maxY); Lit ")"]
  else if outside x 0 b.(MovementValidatorConfig.paperWidth)
          || outside y 0 b.(MovementValidatorConfig.paperHeight) then
    invalid (lit "Position outside paper bounds")
  else
    match b.(MovementValidatorConfig.dangerZones) with
    | Some zones =>
        if existsb (isInZone x y) zones
        then invalid (lit "Position is in danger zone")
        else ok
    | None => ok
    end.

Definition MAX_DEGREES_PER_MOVE : number := 360.

Definition validatePath (this : t) (startX startY endX endY : number)
  : ValidationResult.t :=
  let b := this.(bounds) in
  if this.(simulationMode) then ok
  else
    let startValid := validatePosition this startX startY in
    if negb startValid.(ValidationResult.valid) then startValid
    else
      let endValid := validatePosition this endX endY in
      if negb endValid.(ValidationResult.valid) then endValid
      else
        let dx := endX - startX in
        let dy := endY - startY in
        let pathLength := PrimFloat.sqrt (dx * dx + dy * dy) in
        if Js.max b.(MovementValidatorConfig.paperWidth)
                  b.(MovementValidatorConfig.paperHeight) <? pathLength then
          invalid (lit "Path length exceeds maximum allowed distance")
        else if
          match b.(MovementValidatorConfig.dangerZones) with
          | Some zones =>
              existsb (doesLineIntersectZone startX startY endX endY) zones
          | None => false
          end
        then invalid (lit "Path crosses danger zone")
        else
          let degreesX := dx * this.(calibration).(SimpleCalibration.x) in
          let degreesY := dy * this.(calibration).(SimpleCalibration.y) in
          if (MAX_DEGREES_PER_MOVE <? abs degreesX)
             || (MAX_DEGREES_PER_MOVE <? abs degreesY) then
            invalid (lit "Movement requires excessive motor rotation")
          else ok.

(** The text of [`${r}`] for [r : string | undefined]. *)
Definition reason_text (r : option text) : text :=
  match r with
  | Some s => s
  | None => lit "undefined"
  end.

(** The [for (const move of sequence.moves)] loop of [validateSequence],
    with the tracked position as arguments. *)
Fixpoint validateMoves (this : t) (currentX currentY : number)
    (moves : list PlotterMove.t) : ValidationResult.t :=
  match moves with
  | [] => ok
  | m :: rest =>
      let pathValid :=
        validatePath this currentX currentY
                     m.(PlotterMove.x) m.(PlotterMove.y) in
      if negb pathValid.(ValidationResult.valid) then
        invalid ([Lit "Invalid move at ("; Num m.(PlotterMove.x); Lit ", ";
                  Num m.(PlotterMove.y); Lit "): "]
                 ++ reason_text pathValid.(ValidationResult.reason))
      else validateMoves this m.(PlotterMove.x) m.(PlotterMove.y) rest
  end.

Definition validateSequence (this : t) (sequence : PlotterSequence.t)
  : ValidationResult.t :=
  let b := this.(bounds) in
  let box := sequence.(PlotterSequence.boundingBox) in
  if this.(simulationMode) then ok
  else if (b.(MovementValidatorConfig.paperWidth) <? box.(BoundingBox.maxX))
          || (b.(MovementValidatorConfig.paperHeight) <? box.(BoundingBox.maxY))
          || (box.(BoundingBox.minX) <? 0)
          || (box.(BoundingBox.minY) <? 0) then
    invalid (lit "Sequence exceeds paper bounds")
  else validateMoves this 0 0 sequence.(PlotterSequence.moves).

(** The validator of the scenario: bounds 0-148 x 0-210 mm with the
    danger zone {-10,-10,10,10}, calibration 10 degrees per mm. *)
Definition scenario_validator : t :=
  mk MOVEMENT_BOUNDS (SimpleCalibration.mk 10 10) false.

(** The hops [validateSequence] checks: from the assumed start to the
    first move, and from each move to the next. *)
Fixpoint hops (currentX currentY : number) (moves : list PlotterMove.t)
  : list (number * number * number * number) :=
  match moves with
  | [] => []
  | m :: rest =>
      (currentX, currentY, m.(PlotterMove.x), m.(PlotterMove.y))
      :: hops m.(PlotterMove.x) m.(PlotterMove.y) rest
  end.

Definition valid_hop (this : t) (h : number * number * number * number)
  : bool :=
  match h with
  | (sx, sy, ex, ey) => (validatePath this sx sy ex ey).(ValidationResult.valid)
  end.

(** The bounding box lies on the paper, as [validateSequence] tests it. *)
Definition box_on_paper (this : t) (box : BoundingBox.t) : bool :=
  negb ((this.(bounds).(MovementValidatorConfig.paperWidth) <? box.(BoundingBox.maxX))
        || (this.(bounds).(MovementValidatorConfig.paperHeight) <? box.(BoundingBox.maxY))
        || (box.(BoundingBox.minX) <? 0)
        || (box.(BoundingBox.minY) <? 0)).

(** One stroke from the origin, on a sheet without danger zones. *)
Definition open_validator : t :=
  mk (MovementValidatorConfig.mk 0 148 0 210 148 210 None None)
     (SimpleCalibration.mk 10 10) false.

Definition short_stroke : PlotterSequence.t :=
  PlotterSequence.mk "stroke"
    [PlotterMove.mk MoveType.draw 30 0 (Some (-45))]
    (BoundingBox.mk 0 30 0 0).

End MovementValidator.

(* ================================================================== *)
(** * lib/CommandQueue.ts *)
(* ================================================================== *)

(** The queue object is three mutable fields; its methods are asynchronous
    and run on the single cooperative event loop.  The model is a
    transition system: the state holds the object's fields together with
    the suspended activations the event loop will continue later, and an
    event is one uninterrupted run of code between two suspension points
    (a method call from outside, an operation settling, a continuation
    being resumed, a timer firing, time passing). *)

Module CommandQueue.

(** How a promise settles. *)
Inductive Outcome : Type :=
| Fulfilled
| Rejected (error : string).

(** The operation given to [add]: a closure [() => Promise<void>].  The
    queue never looks inside it.  What the model keeps of it is
    whether the operation, once started, arms a timer after which its
    own promise rejects ([executeCommand] of app/page.tsx builds such
    operations); everything else about when and how it settles is
    left to the environment. *)
Record Operation : Type := mkOperation {
  timeout : option Z
}.

(** [interface Command { id; execute }].  The closure [execute] runs
    [command] and then resolves or rejects the promise that [add]
    returned; [handle] names that promise. *)
Record Command : Type := mkCommand {
  id : Z;
  handle : nat;
  command : Operation
}.

(** An operation whose body has been started by [execute] and whose
    promise is still pending. *)
Record InFlight : Type := mkInFlight {
  op : nat;              (* the handle it will settle *)
  startedAt : Z;
  timer : option Z       (* delay of the timer it armed, if any *)
}.

(** What an observer sees, in order. *)
Inductive Obs : Type :=
| Started (h : nat)
| Settled (h : nat) (o : Outcome).

Record State : Type := mkState {
  (* the fields of the CommandQueue object *)
  queue : list Command;
  executing : bool;
  currentCommand : option Command;
  (* the event loop around it *)
  now : Z;                  (* Date.now(), in ms *)
  submitted : nat;          (* number of add() calls so far *)
  running : list InFlight;  (* operations started and not yet settled *)
  resuming : list nat;      (* processQueue activations whose awaited
                               execute() has settled and whose
                               continuation has not run yet *)
  log : list Obs
}.

Definition fresh (t0 : Z) : State :=
  mkState [] false None t0 0 [] [] [].

(** [get isExecuting()] *)
Definition isExecuting (s : State) : bool := executing s.

(** [get pendingCommands()] *)
Definition pendingCommands (s : State) : nat := length (queue s).

(** [currentCommand.execute()] up to its first suspension: the
    operation is called, so its body starts now. *)
Definition execute (c : Command) (s : State) : State :=
  mkState (queue s) (executing s) (currentCommand s) (now s) (submitted s)
          (running s ++ [mkInFlight (handle c) (now s) (timeout (command c))])
          (resuming s)
          (log s ++ [Started (handle c)]).

(** [processQueue()] up to its first suspension. *)
Definition processQueue (s : State) : State :=
  if executing s || (length (queue s) =? 0)%nat then s
  else
    match queue s with
    | c :: rest =>                      (* this.queue.shift() *)
        execute c
          (mkState rest true (Some c) (now s) (submitted s)
                   (running s) (resuming s) (log s))
    | [] => s                           (* excluded by the guard above *)
    end.

(** [add(command)]: the promise executor runs at once. *)
Definition add (c : Operation) (s : State) : State :=
  processQueue
    (mkState (queue s ++ [mkCommand (now s) (submitted s) c])
             (executing s) (currentCommand s) (now s) (S (submitted s))
             (running s) (resuming s) (log s)).

(** [clear()] *)
Definition clear (s : State) : State :=
  mkState [] false None (now s) (submitted s)
          (running s) (resuming s) (log s).

(** The rest of [processQueue] after [await this.currentCommand.execute()]. *)
Definition continue (s : State) : State :=
  processQueue
    (mkState (queue s) false None (now s) (submitted s)
             (running s) (resuming s) (log s)).

Definition is_op (h : nat) (r : InFlight) : bool := (op r =? h)%nat.

Fixpoint remove_first (h : nat) (l : list nat) : list nat :=
  match l with
  | [] => []
  | x :: l' => if (x =? h)%nat then l' else x :: remove_first h l'
  end.

(** The operation of handle [h] settles with [o]: the rest of [execute]
    runs, which resolves or rejects the handle, and the activation of
    [processQueue] that awaits it becomes ready to continue. *)
Definition settle (h : nat) (o : Outcome) (s : State) : State :=
  mkState (queue s) (executing s) (currentCommand s) (now s) (submitted s)
          (filter (fun r => negb (is_op h r)) (running s))
          (resuming s ++ [h])
          (log s ++ [Settled h o]).

(** The timer of an in-flight operation is due. *)
Definition due (s : State) (r : InFlight) : bool :=
  match timer r with
  | Some d => (startedAt r + d <=? now s)%Z
  | None => false
  end.

Inductive Event : Type :=
| Add (c : Operation)             (* a caller calls add(c) *)
| ProcessQueue                    (* a caller calls processQueue() *)
| Clear                           (* a caller calls clear() *)
| Settle (h : nat) (o : Outcome)  (* the operation of h settles by itself *)
| Timeout (h : nat)               (* the timer armed by the operation of h fires *)
| Resume (h : nat)                (* the activation awaiting h continues *)
| Advance (dt : Z).               (* dt ms pass *)

(** One event; [None] when the event cannot happen in [s]. *)
Definition step (s : State) (e : Event) : option State :=
  match e with
  | Add c => Some (add c s)
  | ProcessQueue => Some (processQueue s)
  | Clear => Some (clear s)
  | Settle h o =>
      if existsb (is_op h) (running s) then Some (settle h o s) else None
  | Timeout h =>
      if existsb (fun r => is_op h r && due s r) (running s)
      then Some (settle h (Rejected "Command timeout") s)
      else None
  | Resume h =>
      if existsb (Nat.eqb h) (resuming s)
      then Some (continue
                   (mkState (queue s) (executing s) (currentCommand s)
                            (now s) (submitted s) (running s)
                            (remove_first h (resuming s)) (log s)))
      else None
  | Advance dt =>
      if (0 <=? dt)%Z
      then Some (mkState (queue s) (executing s) (currentCommand s)
                         (now s + dt)%Z (submitted s) (running s)
                         (resuming s) (log s))
      else None
  end.

Fixpoint run (s : State) (tr : list Event) : option State :=
  match tr with
  | [] => Some s
  | e :: tr' =>
      match step s e with
      | Some s' => run s' tr'
      | None => None
      end
  end.

(** Handles started, and handles settled, in the order of the log. *)
Fixpoint starts (l : list Obs) : list nat :=
  match l with
  | [] => []
  | Started h :: l' => h :: starts l'
  | Settled _ _ :: l' => starts l'
  end.

Fixpoint settles (l : list Obs) : list nat :=
  match l with
  | [] => []
  | Started _ :: l' => settles l'
  | Settled h _ :: l' => h :: settles l'
  end.

(** The outcome the log records for handle [h], if it has settled. *)
Fixpoint outcome (h : nat) (l : list Obs) : option Outcome :=
  match l with
  | [] => None
  | Settled h' o :: l' => if (h' =? h)%nat then Some o else outcome h l'
  | Started _ :: l' => outcome h l'
  end.

(** A log in which operations are served one at a time, in the order
    0, 1, 2, ...: [Serial k busy l] says that [k] operations have
    settled and that operation [k] is in flight iff [busy]. *)
Inductive Serial : nat -> bool -> list Obs -> Prop :=
| Serial_nil : Serial 0 false []
| Serial_start k l :
    Serial k false l -> Serial k true (l ++ [Started k])
| Serial_settle k l o :
    Serial k true l -> Serial (S k) false (l ++ [Settled k o]).

(** What holds between events as long as [clear()] is never called. *)
Definition Idle (k : nat) (s : State) : Prop :=
  running s = [] /\
  Serial k false (log s) /\
  map handle (queue s) = seq k (length (queue s)) /\
  submitted s = (k + length (queue s))%nat /\
  ((resuming s = [] /\ executing s = false /\ queue s = []) \/
   (exists h, resuming s = [h] /\ executing s = true)).

Definition Busy (k : nat) (s : State) : Prop :=
  (exists r, running s = [r] /\ op r = k) /\
  Serial k true (log s) /\
  map handle (queue s) = seq (S k) (length (queue s)) /\
  submitted s = (S k + length (queue s))%nat /\
  resuming s = [] /\
  executing s = true.

Definition Inv (s : State) : Prop :=
  exists k, Idle k s \/ Busy k s.


(** Handles are given out in the order of submission, once each: what
    is queued has not been started, what is in flight has been started,
    and what has settled had been started. *)
Definition Numbered (s : State) : Prop :=
  Forall (fun c => handle c < submitted s)%nat (queue s) /\
  NoDup (map handle (queue s)) /\
  Forall (fun c => ~ In (handle c) (starts (log s))) (queue s) /\
  Forall (fun h => h < submitted s)%nat (starts (log s)) /\
  Forall (fun r => In (op r) (starts (log s))) (running s) /\
  Forall (fun h => In h (starts (log s))) (settles (log s)).

(** Handle [h] was given out, is not queued and has not been started. *)
Definition Abandoned (h : nat) (s : State) : Prop :=
  (h < submitted s)%nat /\
  ~ In h (map handle (queue s)) /\
  ~ In h (starts (log s)).

(** No operation is called twice and no handle settles twice; an
    operation in flight has not settled. *)
Definition Once (s : State) : Prop :=
  NoDup (starts (log s)) /\
  NoDup (map op (running s)) /\
  Forall (fun r => ~ In (op r) (settles (log s))) (running s) /\
  NoDup (settles (log s)).

(** Two operations submitted and the first one in flight. *)
Definition two_submitted : State :=
  mkState [mkCommand 0 1 (mkOperation None)]
          true (Some (mkCommand 0 0 (mkOperation None)))
          0 2 [mkInFlight 0 0 None] [] [Started 0].

(** The handles started so far, followed by the handles still queued,
    are in the order of submission. *)
Definition Ordered (s : State) : Prop :=
  StronglySorted lt (starts (log s) ++ map handle (queue s)) /\
  Forall (fun h => h < submitted s)%nat
         (starts (log s) ++ map handle (queue s)).

End CommandQueue.

(* ================================================================== *)
(** * app/page.tsx: the callers of the queue *)
(* ================================================================== *)

Module TestInterface.

Import Types.

(** [executeCommand(command)] hands the queue an operation that arms a
    timer of [COMMAND_TIMEOUT] ms when it starts and rejects with
    'Command timeout' if the timer fires before [command] has settled. *)
Definition executeCommand_operation : CommandQueue.Operation :=
  CommandQueue.mkOperation (Some COMMAND_TIMEOUT).

Definition executeCommand : CommandQueue.Event :=
  CommandQueue.Add executeCommand_operation.

(** An operation given to [add] as it is: no timer of its own. *)
Definition bare_operation : CommandQueue.Operation :=
  CommandQueue.mkOperation None.

(** Three operations, the second of which fails, served to the end. *)
Definition three_operations : list CommandQueue.Event :=
  [ CommandQueue.Add bare_operation;
    CommandQueue.Add bare_operation;
    CommandQueue.Add executeCommand_operation;
    CommandQueue.Settle 0 CommandQueue.Fulfilled; CommandQueue.Resume 0;
    CommandQueue.Settle 1 (CommandQueue.Rejected "motor stalled");
    CommandQueue.Resume 1;
    CommandQueue.Settle 2 CommandQueue.Fulfilled; CommandQueue.Resume 2 ].

End TestInterface.

(* ================================================================== *)
(** * lib/pathUtils.ts: PathProcessor *)
(* ================================================================== *)

Module PathProcessor.

Import Js Types.
Local Open Scope float_scope.

(** 0.9, the binary64 value the literal denotes. *)
Definition margin : number := 0x1.ccccccccccccdp-1.

(** [{ ...move, x: x', y: y' }] *)
Definition with_xy (move : PlotterMove.t) (x' y' : number) : PlotterMove.t :=
  PlotterMove.mk move.(PlotterMove.type) x' y' move.(PlotterMove.z).

(** The accumulator of both [reduce] calls that look for the bounds. *)
Definition extend (acc : BoundingBox.t) (move : PlotterMove.t) : BoundingBox.t :=
  BoundingBox.mk
    (Js.min acc.(BoundingBox.minX) move.(PlotterMove.x))
    (Js.max acc.(BoundingBox.maxX) move.(PlotterMove.x))
    (Js.min acc.(BoundingBox.minY) move.(PlotterMove.y))
    (Js.max acc.(BoundingBox.maxY) move.(PlotterMove.y)).

Definition empty_box : BoundingBox.t :=
  BoundingBox.mk infinity neg_infinity infinity neg_infinity.

Definition outside_area (area : DrawingArea.t) (move : PlotterMove.t) : bool :=
  (move.(PlotterMove.x) <? 0) || (area.(DrawingArea.width) <? move.(PlotterMove.x)) ||
  (move.(PlotterMove.y) <? 0) || (area.(DrawingArea.height) <? move.(PlotterMove.y)).

Definition validateAndScalePath (moves : list PlotterMove.t)
    (drawingArea : DrawingArea.t) (simulationMode : bool)
  : result (list PlotterMove.t) :=
  if simulationMode then
    Ok (map (fun move =>
               with_xy move
                 (Js.max 0 (Js.min move.(PlotterMove.x) drawingArea.(DrawingArea.width)))
                 (Js.max 0 (Js.min move.(PlotterMove.y) drawingArea.(DrawingArea.height))))
            moves)
  else
    (* First pass: find bounds *)
    let bounds := fold_left extend moves empty_box in
    (* Calculate required scaling *)
    let xScale := drawingArea.(DrawingArea.width)
                  / (bounds.(BoundingBox.maxX) - bounds.(BoundingBox.minX)) in
    let yScale := drawingArea.(DrawingArea.height)
                  / (bounds.(BoundingBox.maxY) - bounds.(BoundingBox.minY)) in
    let scale := Js.min xScale yScale * margin in
    (* Second pass: scale and validate *)
    let scaledMoves :=
      map (fun move =>
             with_xy move
               ((move.(PlotterMove.x) - bounds.(BoundingBox.minX)) * scale)
               ((move.(PlotterMove.y) - bounds.(BoundingBox.minY)) * scale))
          moves in
    if existsb (outside_area drawingArea) scaledMoves
    then Throw (lit "Path contains moves outside drawing area")
    else Ok scaledMoves.

Definition calculateBoundingBox (moves : list PlotterMove.t) : BoundingBox.t :=
  match moves with
  | [] => BoundingBox.mk 0 0 0 0
  | _ => fold_left extend moves empty_box
  end.

(** [prev.type === move.type && move.type === 'draw'] *)
Definition both_draw (prev move : PlotterMove.t) : bool :=
  MoveType.eqb prev.(PlotterMove.type) move.(PlotterMove.type) &&
  MoveType.eqb move.(PlotterMove.type) MoveType.draw.

(** The callback of the [reduce] in [optimizePlotterMoves].  [prev] is
    the last element of [acc]; the assignments [prev.x = move.x; prev.y
    = move.y] update that element in place, which for the returned
    array is the replacement of its last element.  ([acc] is empty only
    at index 0, where the first branch is taken.) *)
Definition merge (acc : list PlotterMove.t) (move : PlotterMove.t) (i : nat)
  : list PlotterMove.t :=
  if (i =? 0)%nat then [move]
  else
    match rev acc with
    | prev :: before =>
        if both_draw prev move
        then rev (with_xy prev move.(PlotterMove.x) move.(PlotterMove.y) :: before)
        else acc ++ [move]
    | [] => acc ++ [move]
    end.

(** [moves.reduce(callback, acc)], the elements from index [i] on. *)
Fixpoint reduce_from (i : nat) (acc : list PlotterMove.t)
    (moves : list PlotterMove.t) : list PlotterMove.t :=
  match moves with
  | [] => acc
  | move :: rest => reduce_from (S i) (merge acc move i) rest
  end.

Definition optimizePlotterMoves (moves : list PlotterMove.t)
    (simulationMode : bool) : list PlotterMove.t :=
  if simulationMode then moves
  else reduce_from 0 [] moves.

(** ** The pass on the objects themselves

    The array [moves] holds references to move objects, and so does the
    array the pass returns: [prev] is an object of the input, and
    [prev.x = move.x; prev.y = move.y] writes into it.  A store maps a
    reference to its object; arrays are lists of references. *)

Definition Ref : Type := nat.

Definition Store : Type := list PlotterMove.t.

Definition null_object : PlotterMove.t := PlotterMove.mk MoveType.move 0 0 None.

(** The object a reference points to. *)
Definition deref (st : Store) (r : Ref) : PlotterMove.t := nth r st null_object.

(** Overwrite the object of reference [r]. *)
Fixpoint assign (st : Store) (r : Ref) (v : PlotterMove.t) : Store :=
  match st, r with
  | [], _ => []
  | _ :: st', O => v :: st'
  | o :: st', S r' => o :: assign st' r' v
  end.

(** The objects an array holds. *)
Definition read (st : Store) (array : list Ref) : list PlotterMove.t :=
  map (deref st) array.

Definition merge_inplace (st : Store) (acc : list Ref) (r : Ref) (i : nat)
  : Store * list Ref :=
  if (i =? 0)%nat then (st, [r])
  else
    match rev acc with
    | p :: _ =>
        let prev := deref st p in
        let move := deref st r in
        if both_draw prev move
        then (assign st p
                (with_xy prev move.(PlotterMove.x) move.(PlotterMove.y)),
              acc)
        else (st, acc ++ [r])
    | [] => (st, acc ++ [r])
    end.

Fixpoint reduce_inplace (i : nat) (st : Store) (acc : list Ref)
    (moves : list Ref) : Store * list Ref :=
  match moves with
  | [] => (st, acc)
  | r :: rest =>
      let (st', acc') := merge_inplace st acc r i in
      reduce_inplace (S i) st' acc' rest
  end.

(** [optimizePlotterMoves(moves)] outside simulation mode: the store
    after the call and the array returned. *)
Definition optimizePlotterMoves_inplace (st : Store) (moves : list Ref)
  : Store * list Ref :=
  reduce_inplace 0 st [] moves.

(** The same pass written by recursion on the moves that follow the
    move [prev] currently at the end of the result. *)
Fixpoint absorb (prev : PlotterMove.t) (rest : list PlotterMove.t)
  : list PlotterMove.t :=
  match rest with
  | [] => [prev]
  | move :: rest' =>
      if both_draw prev move
      then absorb (with_xy prev move.(PlotterMove.x) move.(PlotterMove.y)) rest'
      else prev :: absorb move rest'
  end.

(** The points visited, in order. *)
Definition point (move : PlotterMove.t) : number * number :=
  (move.(PlotterMove.x), move.(PlotterMove.y)).

Definition trace (moves : list PlotterMove.t) : list (number * number) :=
  map point moves.

Definition is_travel (move : PlotterMove.t) : bool :=
  MoveType.eqb move.(PlotterMove.type) MoveType.move.

(** No two neighbours that the pass would merge. *)
Fixpoint merged (moves : list PlotterMove.t) : bool :=
  match moves with
  | a :: (b :: _) as rest => negb (both_draw a b) && merged rest
  | _ => true
  end.

(** A stroke with a corner: travel to (0,0), draw to (10,0), draw to
    (10,10). *)
Definition corner : list PlotterMove.t :=
  [ PlotterMove.mk MoveType.move 0 0 (Some 0);
    PlotterMove.mk MoveType.draw 10 0 (Some (-45));
    PlotterMove.mk MoveType.draw 10 10 None ].

(** The box covers the end point of [move]. *)
Definition covers (box : BoundingBox.t) (move : PlotterMove.t) : bool :=
  (box.(BoundingBox.minX) <=? move.(PlotterMove.x)) &&
  (move.(PlotterMove.x) <=? box.(BoundingBox.maxX)) &&
  (box.(BoundingBox.minY) <=? move.(PlotterMove.y)) &&
  (move.(PlotterMove.y) <=? box.(BoundingBox.maxY)).

(** Both coordinates are numbers. *)
Definition located (move : PlotterMove.t) : bool :=
  negb (is_nan move.(PlotterMove.x)) && negb (is_nan move.(PlotterMove.y)).

(** The store the loop leaves when it goes through [rest] with the
    object [p] last in the result so far. *)
Definition written (st : Store) (p : Ref) (rest : list Ref) : Store :=
  fst (reduce_inplace 1 st [p] rest).


(** ** The pass told on the list

    A run of consecutive Draw moves becomes one Draw at the end point of
    the run: the first Draw of the run stays as a move (its kind and pen
    setting), the last one gives the point, and the moves between are
    gone.  [merge_runs] says this without an accumulator, to compare
    the pass with. *)

Definition is_draw (move : PlotterMove.t) : bool :=
  MoveType.eqb move.(PlotterMove.type) MoveType.draw.

(** [moves] without every Draw that is directly followed by a Draw: of
    each run of Draw moves the last one is left. *)
Fixpoint without_draws_before_draw (moves : list PlotterMove.t)
  : list PlotterMove.t :=
  match moves with
  | a :: (b :: _) as rest =>
      if is_draw a && is_draw b
      then without_draws_before_draw rest
      else a :: without_draws_before_draw rest
  | _ => moves
  end.

(** [moves] without every Draw that directly follows a Draw: of each
    run of Draw moves the first one is left.  [after_draw] says whether
    the move before [moves] is a Draw. *)
Fixpoint without_draws_after_draw (after_draw : bool)
    (moves : list PlotterMove.t) : list PlotterMove.t :=
  match moves with
  | [] => []
  | a :: rest =>
      if after_draw && is_draw a
      then without_draws_after_draw true rest
      else a :: without_draws_after_draw (is_draw a) rest
  end.

(** The first move of each run, taken to the end point of the last. *)
Definition merge_runs (moves : list PlotterMove.t) : list PlotterMove.t :=
  map (fun p => with_xy (fst p) (snd p).(PlotterMove.x) (snd p).(PlotterMove.y))
      (combine (without_draws_after_draw false moves)
               (without_draws_before_draw moves)).

(** The kind of a move and its pen setting. *)
Definition setting (move : PlotterMove.t) : MoveType.t * option number :=
  (move.(PlotterMove.type), move.(PlotterMove.z)).

(** Two strokes, each of one Draw: nothing for the pass to merge. *)
Definition two_marks : list PlotterMove.t :=
  [ PlotterMove.mk MoveType.move 0 0 (Some 0);
    PlotterMove.mk MoveType.draw 10 0 (Some (-45));
    PlotterMove.mk MoveType.move 20 0 (Some 0);
    PlotterMove.mk MoveType.draw 20 10 (Some (-45)) ].

End PathProcessor.

(* ================================================================== *)
(** * lib/pathUtils.ts: PathOptimizer *)
(* ================================================================== *)

Module PathOptimizer.

Import Js Types.
Local Open Scope float_scope.

(** [current.type === previous.type &&
     current.start.x === previous.end.x &&
     current.start.y === previous.end.y] *)
Definition joins (previous current : PathSegment.t) : bool :=
  MoveType.eqb current.(PathSegment.type) previous.(PathSegment.type) &&
  (current.(PathSegment.start).(Point.x) =? previous.(PathSegment.end_).(Point.x)) &&
  (current.(PathSegment.start).(Point.y) =? previous.(PathSegment.end_).(Point.y)).

(** [previous.end = current.end] *)
Definition with_end (previous : PathSegment.t) (e : Point.t) : PathSegment.t :=
  PathSegment.mk previous.(PathSegment.type) previous.(PathSegment.start) e.

(** The body of the loop: [previous] is the last element of
    [optimized], and the assignment to [previous.end] replaces that
    element.  ([optimized] is never empty: it starts as [[segments[0]]].) *)
Definition step (optimized : list PathSegment.t) (current : PathSegment.t)
  : list PathSegment.t :=
  match rev optimized with
  | previous :: before =>
      if joins previous current
      then rev (with_end previous current.(PathSegment.end_) :: before)
      else optimized ++ [current]
  | [] => optimized ++ [current]
  end.

(** [optimizePath(segments, simulationMode)]: the segments the returned
    array holds, for an array of distinct segment objects. *)
Definition optimizePath (segments : list PathSegment.t) (simulationMode : bool)
  : list PathSegment.t :=
  if simulationMode then segments
  else if (length segments <=? 1)%nat then segments
  else
    match segments with
    | first :: rest => fold_left step rest [first]
    | [] => segments
    end.

(** The same loop by recursion on the segments that follow [previous]. *)
Fixpoint weld (previous : PathSegment.t) (rest : list PathSegment.t)
  : list PathSegment.t :=
  match rest with
  | [] => [previous]
  | current :: rest' =>
      if joins previous current
      then weld (with_end previous current.(PathSegment.end_)) rest'
      else previous :: weld current rest'
  end.

(** No two neighbours that the loop would combine. *)
Fixpoint welded (segments : list PathSegment.t) : bool :=
  match segments with
  | a :: (b :: _) as rest => negb (joins a b) && welded rest
  | _ => true
  end.

(** A stroke in two parts: (0,0) to (10,0), and on to (10,10). *)
Definition two_strokes : list PathSegment.t :=
  [ PathSegment.mk MoveType.draw (Point.mk 0 0) (Point.mk 10 0);
    PathSegment.mk MoveType.draw (Point.mk 10 0) (Point.mk 10 10) ].

End PathOptimizer.

(** [l1] is [l2] with some elements left out, the order kept. *)
Inductive Subseq (A : Type) : list A -> list A -> Prop :=
| Subseq_nil : Subseq [] []
| Subseq_keep x l1 l2 : Subseq l1 l2 -> Subseq (x :: l1) (x :: l2)
| Subseq_drop x l1 l2 : Subseq l1 l2 -> Subseq l1 (x :: l2).

(* ================================================================== *)
(** * lib/PathPlanner.ts *)
(* ================================================================== *)

Module PathPlanner.

Import Js Types.
Local Open Scope float_scope.

(** [interface SVGCommand] of types/svg-path-parser.d.ts: what
    [parseSVG(svgPath)] of the svg-path-parser package returns, one
    record per path command. *)
Module SVGCommand.
Record t : Type := mk {
  code : string;
  command : string;
  x : option number;
  y : option number;
  x0 : option number;
  y0 : option number;
  x1 : option number;
  y1 : option number;
  x2 : option number;
  y2 : option number
}.
End SVGCommand.

Definition bezierPoint (x0 y0 x1 y1 x2 y2 x3 y3 : number) (segments : nat)
    (i : nat) : number * number :=
  let t := of_nat i / of_nat segments in
  let mt := 1 - t in
  (* Cubic Bezier formula *)
  let x := mt * mt * mt * x0 +
           3 * mt * mt * t * x1 +
           3 * mt * t * t * x2 +
           t * t * t * x3 in
  let y := mt * mt * mt * y0 +
           3 * mt * mt * t * y1 +
           3 * mt * t * t * y2 +
           t * t * t * y3 in
  (x, y).

(** [for (let i = 0; i <= segments; i++)], for a segment count that is a
    natural number (the only call passes 10). *)
Definition approximateBezier (x0 y0 x1 y1 x2 y2 x3 y3 : number)
    (segments : nat) : list (number * number) :=
  map (bezierPoint x0 y0 x1 y1 x2 y2 x3 y3 segments) (seq 0 (S segments)).

(** The variables the loop of [parseSVGPath] updates. *)
Definition LoopState : Type := (list PlotterMove.t * bool)%type.

(** The body shared by the 'L' case and by each sampled point of the
    'C' case. *)
Definition lineTo (px py : number) (st : LoopState) : LoopState :=
  let (moves, penDown) := st in
  let moves1 :=
    if penDown then moves
    else moves ++ [PlotterMove.mk MoveType.move px py (Some (-45))]   (* Pen down *)
  in
  (moves1 ++ [PlotterMove.mk MoveType.draw px py None], true).

(** One iteration of [for (const cmd of commands)]. *)
Definition processCommand (scale : number) (st : LoopState)
    (cmd : SVGCommand.t) : LoopState :=
  let (moves, penDown) := st in
  (* if (!cmd.x || !cmd.y) continue *)
  if falsy cmd.(SVGCommand.x) || falsy cmd.(SVGCommand.y) then st
  else
    match cmd.(SVGCommand.x), cmd.(SVGCommand.y) with
    | Some cx, Some cy =>
        if String.eqb cmd.(SVGCommand.code) "M" then
          (moves ++ [PlotterMove.mk MoveType.move (cx * scale) (cy * scale) (Some 0)],
           false)
        else if String.eqb cmd.(SVGCommand.code) "L" then
          lineTo (cx * scale) (cy * scale) st
        else if String.eqb cmd.(SVGCommand.code) "C" then
          match cmd.(SVGCommand.x0), cmd.(SVGCommand.y0),
                cmd.(SVGCommand.x1), cmd.(SVGCommand.y1),
                cmd.(SVGCommand.x2), cmd.(SVGCommand.y2) with
          | Some bx0, Some by0, Some bx1, Some by1, Some bx2, Some by2 =>
              let points :=
                approximateBezier bx0 by0 bx1 by1 bx2 by2 cx cy 10 in
              fold_left
                (fun st' p => lineTo (fst p * scale) (snd p * scale) st')
                points st
          | _, _, _, _, _, _ => st
          end
        else if String.eqb cmd.(SVGCommand.code) "Z" then
          match moves with
          | first :: _ =>
              (moves ++ [PlotterMove.mk MoveType.draw first.(PlotterMove.x)
                                        first.(PlotterMove.y) None],
               penDown)
          | [] => st
          end
        else st
    | _, _ => st     (* undefined is falsy: excluded by the guard *)
    end.

(** End with pen up. *)
Definition endPenUp (moves : list PlotterMove.t) : list PlotterMove.t :=
  match rev moves with
  | last :: _ =>
      moves ++ [PlotterMove.mk last.(PlotterMove.type) last.(PlotterMove.x)
                               last.(PlotterMove.y) (Some 0)]
  | [] => moves
  end.

(** The moves of [parseSVGPath] before they are scaled. *)
Definition parsedMoves (commands : list SVGCommand.t) (scale : number)
  : list PlotterMove.t :=
  endPenUp (fst (fold_left (processCommand scale) commands ([], false))).

(** [parseSVGPath], from the commands that [parseSVG(svgPath)] returned. *)
Definition parseSVGPath (commands : list SVGCommand.t) (scale : number)
  : result (list PlotterMove.t) :=
  PathProcessor.validateAndScalePath
    (parsedMoves commands scale)
    (DrawingArea.mk MOVEMENT_BOUNDS.(MovementValidatorConfig.paperWidth)
                    MOVEMENT_BOUNDS.(MovementValidatorConfig.paperHeight))
    false.

(** The records svg-path-parser produces for move-to, line-to and
    close-path commands; a close-path record has no coordinates. *)
Definition moveto (px py : number) : SVGCommand.t :=
  SVGCommand.mk "M" "moveto" (Some px) (Some py) None None None None None None.

Definition lineto (px py : number) : SVGCommand.t :=
  SVGCommand.mk "L" "lineto" (Some px) (Some py) None None None None None None.

Definition closepath : SVGCommand.t :=
  SVGCommand.mk "Z" "closepath" None None None None None None None None.

(** What "M10 10 L20 20 Z" parses to. *)
Definition closed_path : list SVGCommand.t :=
  [moveto 10 10; lineto 20 20; closepath].

(** A coordinate that is the number 0 ([+0] or [-0]). *)
Definition zero_coordinate (v : option number) : Prop :=
  exists n, v = Some n /\ (n =? 0) = true.

(** The move [convertPreviewPathsToSequence] makes of a preview path. *)
Definition preview_move (path : PreviewPath.t) : PlotterMove.t :=
  PlotterMove.mk path.(PreviewPath.type)
                 path.(PreviewPath.endX)
                 path.(PreviewPath.endY)
                 (Some (if MoveType.eqb path.(PreviewPath.type) MoveType.move
                        then 0 else -45)).

(** [convertPreviewPathsToSequence(paths, name)].  The array [moves]
    holds fresh objects; [optimizePath(moves)] runs first and writes
    into them, and the bounding box is then computed from the same
    array, that is from the objects as the pass has left them. *)
Definition convertPreviewPathsToSequence (paths : list PreviewPath.t)
    (name : string) : PlotterSequence.t :=
  let objects : PathProcessor.Store := map preview_move paths in
  let moves : list PathProcessor.Ref := seq 0 (length objects) in
  let (store, optimized) :=
    PathProcessor.optimizePlotterMoves_inplace objects moves in
  PlotterSequence.mk name
    (PathProcessor.read store optimized)
    (PathProcessor.calculateBoundingBox (PathProcessor.read store moves)).

(** A drawing made by hand: to (0,0), then two strokes around a corner. *)
Definition corner_preview : list PreviewPath.t :=
  [ PreviewPath.mk 0 0 0 0 MoveType.move;
    PreviewPath.mk 0 0 100 0 MoveType.draw;
    PreviewPath.mk 100 0 0 50 MoveType.draw ].

(** The position of the pen axis after [moves], starting from [pen]:
    the [z] of the last move that has one. *)
Fixpoint pen_after (pen : option number) (moves : list PlotterMove.t)
  : option number :=
  match moves with
  | [] => pen
  | m :: rest =>
      pen_after match m.(PlotterMove.z) with
                | Some z => Some z
                | None => pen
                end rest
  end.

(** The pen is at -45, that is down. *)
Definition is_down (pen : option number) : bool :=
  match pen with
  | Some z => z =? -45
  | None => false
  end.

(** Every Draw move that does not set the pen itself is made with the
    pen down. *)
Fixpoint pen_kept_down (pen : option number) (moves : list PlotterMove.t)
  : bool :=
  match moves with
  | [] => true
  | m :: rest =>
      match m.(PlotterMove.z) with
      | Some z => pen_kept_down (Some z) rest
      | None =>
          (MoveType.eqb m.(PlotterMove.type) MoveType.move || is_down pen)
          && pen_kept_down pen rest
      end
  end.

(** A command that the 'Z' case of the loop acts on: its code is 'Z' and
    both coordinates are truthy.  (A close-path record of the parser has
    no coordinates.) *)
Definition closes (cmd : SVGCommand.t) : bool :=
  String.eqb cmd.(SVGCommand.code) "Z" &&
  negb (falsy cmd.(SVGCommand.x) || falsy cmd.(SVGCommand.y)).






End PathPlanner.

(* ================================================================== *)
(** * The hub and its ports *)
(* ================================================================== *)

Module Hub.

(** The port names the sources use: 'A' (paper roll, Y), 'B' (pen
    left/right, X) and 'C' (pen lift). *)
Inductive Port : Type := A | B | C.

Definition name (p : Port) : string :=
  match p with
  | A => "A"
  | B => "B"
  | C => "C"
  end.

Definition eqb (p q : Port) : bool :=
  match p, q with
  | A, A | B, B | C, C => true
  | _, _ => false
  end.

(** [['A', 'B', 'C']] *)
Definition ports : list Port := [A; B; C].

End Hub.

(* ================================================================== *)
(** * lib/pathUtils.ts: PathExecutor *)
(* ================================================================== *)

(** The executor is asynchronous but sequential: it awaits every call it
    makes, and the only calls in flight together are the two rotations of
    one [Promise.all].  It is modelled as a function in a state and
    exception monad; the state holds the tracked position and the log of
    what the executor did, and the plotter is a parameter that says how
    each call ends. *)

Module PathExecutor.

Import Js Types.
Local Open Scope float_scope.

(** A call [plotter.rotateByDegrees(port, degrees, speed)]. *)
Record Call : Type := mkCall {
  port : Hub.Port;
  degrees : number;
  speed : number
}.

(** How [PlotterControl.rotateByDegrees] ends: the motor did the
    rotation, the motor's promise rejected, or there is no motor at the
    port (it throws before anything is sent). *)
Inductive Response : Type :=
| Done
| Failed (error : text)
| NoMotor.

Inductive Entry : Type :=
| Rotated (c : Call) (r : Response)    (* a call and how it ended *)
| Progress (percent : number)          (* onProgress(percent) *)
| Slept (ms : Z).                      (* the timer of simulateMove *)

(** [PlotterControl], as the executor sees it: how a call ends, given
    all that happened before. *)
Definition PlotterControl : Type := list Entry -> Call -> Response.

Record t : Type := mk {
  plotter : PlotterControl;
  calibration : SimpleCalibration.t;
  simulationMode : bool;
  moveSpeed : number;
  drawSpeed : number;
  validator : MovementValidator.t
}.

(** [interface CalibrationSettings] *)
Record CalibrationSettings : Type := mkSettings {
  degreesPerMM_X : number;
  degreesPerMM_Y : number;
  maxTravel_X : number;
  maxTravel_Y : number
}.

(** The constructor, with its default arguments written out by the
    caller: [simulationMode = false], [moveSpeed = 50], [drawSpeed = 30]. *)
Definition new (plotter : PlotterControl)
    (calibrationSettings : CalibrationSettings) (simulationMode : bool)
    (moveSpeed drawSpeed : number)
    (validatorOverride : option MovementValidator.t) : t :=
  let calibration :=
    SimpleCalibration.mk calibrationSettings.(degreesPerMM_X)
                         calibrationSettings.(degreesPerMM_Y) in
  mk plotter calibration simulationMode moveSpeed drawSpeed
     match validatorOverride with
     | Some v => v
     | None => MovementValidator.mk MOVEMENT_BOUNDS calibration simulationMode
     end.

(** The mutable part: [currentX], [currentY], and what was done so far. *)
Record State : Type := mkState {
  currentX : number;
  currentY : number;
  log : list Entry
}.

Definition initial : State := mkState 0 0 [].

(** Computations that read and write the state and may throw. *)
Definition M (A : Type) : Type := State -> result A * State.

Definition ret {A : Type} (a : A) : M A := fun st => (Ok a, st).

Definition throw {A : Type} (message : text) : M A :=
  fun st => (Throw message, st).

Definition bind {A B : Type} (m : M A) (k : A -> M B) : M B :=
  fun st =>
    match m st with
    | (Ok a, st') => k a st'
    | (Throw e, st') => (Throw e, st')
    end.

Notation "x <- m ;; k" := (bind m (fun x => k))
  (at level 61, m at next level, right associativity).
Notation "m ;; k" := (bind m (fun _ => k))
  (at level 61, right associativity).

Definition get : M State := fun st => (Ok st, st).

Definition record (e : Entry) : M unit :=
  fun st => (Ok tt, mkState st.(currentX) st.(currentY) (st.(log) ++ [e])).

Definition setPosition (x y : number) : M unit :=
  fun st => (Ok tt, mkState x y st.(log)).

(** [await this.plotter.rotateByDegrees(port, degrees, speed)] *)
Definition rotateByDegrees (this : t) (p : Hub.Port) (d s : number) : M unit :=
  st <- get ;;
  let c := mkCall p d s in
  let r := this.(plotter) st.(log) c in
  record (Rotated c r) ;;
  match r with
  | Done => ret tt
  | Failed error => throw error
  | NoMotor =>
      throw [Lit "Motor "; Lit (Hub.name p);
             Lit " not found or not properly initialized"]
  end.

(** [await Promise.all([a, b])]: both calls are made before either is
    awaited, so the second is made even when the first fails.  When both
    fail, [Promise.all] rejects with the error of the call that rejects
    first in time; the model takes the error of [a].  Which of the two
    messages is rethrown is therefore not something the model decides,
    and nothing in Part II is stated about it. *)
Definition all2 (a b : M unit) : M unit :=
  fun st =>
    let (ra, st1) := a st in
    let (rb, st2) := b st1 in
    match ra, rb with
    | Throw e, _ => (Throw e, st2)
    | Ok _, Throw e => (Throw e, st2)
    | Ok _, Ok _ => (Ok tt, st2)
    end.

Definition executeMove (this : t) (move : PlotterMove.t) : M unit :=
  (* Handle pen movement first if needed *)
  match move.(PlotterMove.z) with
  | Some z => rotateByDegrees this Hub.C z 30
  | None => ret tt
  end ;;
  st <- get ;;
  (* Calculate move parameters *)
  let deltaX := move.(PlotterMove.x) - st.(currentX) in
  let deltaY := move.(PlotterMove.y) - st.(currentY) in
  let degreesX := deltaX * this.(calibration).(SimpleCalibration.x) in
  let degreesY := deltaY * this.(calibration).(SimpleCalibration.y) in
  (* Calculate speed based on distance *)
  let distance := PrimFloat.sqrt (deltaX * deltaX + deltaY * deltaY) in
  let baseSpeed :=
    if MoveType.eqb move.(PlotterMove.type) MoveType.move
    then this.(moveSpeed) else this.(drawSpeed) in
  let time := distance / baseSpeed in
  (* Adjust speeds to maintain straight line *)
  let speedX := abs (degreesX / time) in
  let speedY := abs (degreesY / time) in
  (* Execute coordinated movement *)
  all2 (rotateByDegrees this Hub.B degreesX speedX)
       (rotateByDegrees this Hub.A degreesY speedY) ;;
  (* Update current position *)
  setPosition move.(PlotterMove.x) move.(PlotterMove.y).

Definition simulateMove (move : PlotterMove.t) : M unit :=
  record (Slept 100) ;;
  setPosition move.(PlotterMove.x) move.(PlotterMove.y).

(** [for (let i = 0; i < totalMoves; i++)], from index [i] on, with the
    moves still to execute. *)
Fixpoint executeMoves (this : t) (onProgress : bool) (totalMoves : number)
    (i : number) (moves : list PlotterMove.t) : M unit :=
  match moves with
  | [] => ret tt
  | move :: rest =>
      (if this.(simulationMode) then simulateMove move
       else executeMove this move) ;;
      (* Update progress *)
      (if onProgress then record (Progress ((i + 1) / totalMoves * 100))
       else ret tt) ;;
      executeMoves this onProgress totalMoves (i + 1) rest
  end.

(** [executeSequence(sequence, onProgress)]; [onProgress] says whether a
    callback was passed.  The [catch] block logs and rethrows. *)
Definition executeSequence (this : t) (sequence : PlotterSequence.t)
    (onProgress : bool) : M unit :=
  (* Validate sequence *)
  let validationResult :=
    MovementValidator.validateSequence this.(validator) sequence in
  if negb validationResult.(ValidationResult.valid) then
    throw (Lit "Invalid sequence: "
           :: MovementValidator.reason_text
                validationResult.(ValidationResult.reason))
  else
    (* Optimize moves *)
    let optimizedMoves :=
      PathProcessor.optimizePlotterMoves sequence.(PlotterSequence.moves) false in
    let totalMoves := of_nat (length optimizedMoves) in
    (* Execute each move *)
    executeMoves this onProgress totalMoves 0 optimizedMoves ;;
    (* Ensure pen is up at end *)
    if negb this.(simulationMode)
    then rotateByDegrees this Hub.C 0 30    (* Pen up *)
    else ret tt.

(** The command that lifts the pen to its rest position. *)
Definition is_pen_up (e : Entry) : bool :=
  match e with
  | Rotated c _ =>
      Hub.eqb c.(port) Hub.C && (c.(degrees) =? 0) && (c.(speed) =? 30)
  | _ => false
  end.

(** A call that did not succeed. *)
Definition failed (e : Entry) : bool :=
  match e with
  | Rotated _ Done => false
  | Rotated _ _ => true
  | _ => false
  end.

(** A call to the motor at port [p]. *)
Definition on_port (p : Hub.Port) (e : Entry) : bool :=
  match e with
  | Rotated c _ => Hub.eqb c.(port) p
  | _ => false
  end.

(** No call in [l] failed. *)
Definition clean (l : list Entry) : Prop :=
  Forall (fun e => failed e = false) l.

(** [l] runs up to a failed call, after which nothing happens except,
    possibly, the call to port A that was made together with it. *)
Definition stopped (l : list Entry) : Prop :=
  exists l1 e l2,
    l = l1 ++ e :: l2 /\ clean l1 /\ failed e = true /\
    Forall (fun x => on_port Hub.A x = true) l2.

(** The number of moves carried out: each makes one call to port B. *)
Definition moves_done (l : list Entry) : nat :=
  length (filter (on_port Hub.B) l).

(** What a computation adds to the log. *)
Definition adds (m : M unit) (st : State)
    (P : result unit -> list Entry -> Prop) : Prop :=
  exists added,
    log (snd (m st)) = log st ++ added /\ P (fst (m st)) added.

Definition move_outcome (r : result unit) (added : list Entry) : Prop :=
  match r with
  | Ok _ => clean added /\ moves_done added = 1%nat
  | Throw _ => stopped added
  end.

Definition moves_outcome (n : nat) (r : result unit) (added : list Entry)
  : Prop :=
  match r with
  | Ok _ => clean added /\ moves_done added = n
  | Throw _ => stopped added
  end.

Definition progress_outcome (r : result unit) (added : list Entry) : Prop :=
  r = Ok tt /\ clean added /\ moves_done added = 0%nat.

(** The run in which the pen stays down: one stroke to (30,0) with the
    pen down; a validator without danger zones; a plotter whose motor at
    port B fails. *)
Definition open_bounds : MovementValidatorConfig.t :=
  MovementValidatorConfig.mk 0 148 0 210 148 210 None None.

Definition stalling_plotter : PlotterControl :=
  fun _ c =>
    match c.(port) with
    | Hub.B => Failed (lit "motor stalled")
    | _ => Done
    end.

Definition stalling_executor : t :=
  new stalling_plotter (mkSettings 10 10 148 210) false 50 30
    (Some (MovementValidator.mk open_bounds (SimpleCalibration.mk 10 10) false)).

Definition one_stroke : PlotterSequence.t :=
  PlotterSequence.mk "stroke"
    [PlotterMove.mk MoveType.draw 30 0 (Some (-45))]
    (BoundingBox.mk 0 30 0 0).

Definition executePathSegment (this : t) (segment : PathSegment.t) : M unit :=
  (* Set pen position *)
  let penDegrees :=
    if MoveType.eqb segment.(PathSegment.type) MoveType.move then 0 else -45 in
  rotateByDegrees this Hub.C penDegrees 30 ;;
  (* Calculate movement parameters *)
  let dx := segment.(PathSegment.end_).(Point.x)
            - segment.(PathSegment.start).(Point.x) in
  let dy := segment.(PathSegment.end_).(Point.y)
            - segment.(PathSegment.start).(Point.y) in
  let degreesX := dx * this.(calibration).(SimpleCalibration.x) in
  let degreesY := dy * this.(calibration).(SimpleCalibration.y) in
  (* Calculate speed based on distance *)
  let distance := PrimFloat.sqrt (dx * dx + dy * dy) in
  let baseSpeed :=
    if MoveType.eqb segment.(PathSegment.type) MoveType.move
    then this.(moveSpeed) else this.(drawSpeed) in
  let time := distance / baseSpeed in
  (* Adjust speeds to maintain straight line *)
  let speedX := abs (degreesX / time) in
  let speedY := abs (degreesY / time) in
  (* Execute coordinated movement *)
  all2 (rotateByDegrees this Hub.B degreesX speedX)
       (rotateByDegrees this Hub.A degreesY speedY) ;;
  (* Update position *)
  setPosition segment.(PathSegment.end_).(Point.x)
              segment.(PathSegment.end_).(Point.y).

Definition simulatePathSegment (segment : PathSegment.t) : M unit :=
  record (Slept 100) ;;
  setPosition segment.(PathSegment.end_).(Point.x)
              segment.(PathSegment.end_).(Point.y).

(** [for (const segment of optimizedPath)] *)
Fixpoint executeSegments (this : t) (segments : list PathSegment.t) : M unit :=
  match segments with
  | [] => ret tt
  | segment :: rest =>
      (if this.(simulationMode) then simulatePathSegment segment
       else executePathSegment this segment) ;;
      executeSegments this rest
  end.

(** [executePath(segments)]; the [catch] block logs and rethrows. *)
Definition executePath (this : t) (segments : list PathSegment.t) : M unit :=
  let optimizedPath :=
    PathOptimizer.optimizePath segments this.(simulationMode) in
  executeSegments this optimizedPath ;;
  (* Ensure pen is up at end *)
  if negb this.(simulationMode)
  then rotateByDegrees this Hub.C 0 30    (* Pen up *)
  else ret tt.

(** [getCurrentPosition()] *)
Definition getCurrentPosition (st : State) : Point.t :=
  Point.mk st.(currentX) st.(currentY).

(** [resetPosition()] *)
Definition resetPosition : M unit := setPosition 0 0.



(** As many calls to port B as to port A. *)
Definition paired (l : list Entry) : Prop :=
  length (filter (on_port Hub.B) l) = length (filter (on_port Hub.A) l).

(** A plotter whose motors do what they are told. *)
Definition steady_plotter : PlotterControl := fun _ _ => Done.

Definition steady_executor : t :=
  new steady_plotter (mkSettings 10 10 148 210) false 50 30
    (Some (MovementValidator.mk open_bounds (SimpleCalibration.mk 10 10) false)).

(** The executor as the page constructs it: no validator of its own. *)
Definition default_executor (plotter : PlotterControl) (simulationMode : bool)
  : t :=
  new plotter (mkSettings 10 10 148 210) simulationMode 50 30 None.

(** Pen commands: the calls to port C. *)
Definition pen_commands (l : list Entry) : nat :=
  length (filter (on_port Hub.C) l).

(** The calls to port A: the rotations of the other axis. *)
Definition cross_moves (l : list Entry) : nat :=
  length (filter (on_port Hub.A) l).

(** [n] segments carried out: one pen command and one rotation of each
    axis for every segment, and nothing else. *)
Definition carried_out (n : nat) (l : list Entry) : Prop :=
  clean l /\
  pen_commands l = n /\ moves_done l = n /\ cross_moves l = n /\
  length l = (3 * n)%nat.

Definition segment_outcome (r : result unit) (added : list Entry) : Prop :=
  match r with
  | Ok _ => carried_out 1 added
  | Throw _ => stopped added
  end.

Definition segments_outcome (n : nat) (r : result unit) (added : list Entry)
  : Prop :=
  match r with
  | Ok _ => carried_out n added
  | Throw _ => stopped added
  end.

(** The tracked position as a pair. *)
Definition position (st : State) : number * number :=
  (st.(currentX), st.(currentY)).

End PathExecutor.

(* ================================================================== *)
(** * lib/SafetyController.ts *)
(* ================================================================== *)

(** The controller is an object with mutable fields whose methods run on
    the event loop; like the queue it is modelled as a transition system.
    The states are those of a controller that was built with a hub (the
    page gives the constructor [plotter.hub] of a connected plotter);
    which ports have a device is part of the state.  [updateLimits],
    which tests [this.hub] itself, is also modelled for a controller
    built without one. *)

Module SafetyController.

Import Js.
Local Open Scope float_scope.

(** ['error' | 'success' | 'info'] *)
Inductive NotificationType : Type := error | success | info.

Record SafetyLimits : Type := mkLimits {
  maxSpeed : number;
  maxAcceleration : number;
  minDegrees : number;
  maxDegrees : number;
  maxCurrent : number;
  maxTemperature : number;
  maxMotorLoad : number
}.

Record MotorStatus : Type := mkStatus {
  currentPosition : number;
  speed : number;
  current : number;
  temperature : number;
  load : number
}.

(** Who called [emergencyStop]: [handleViolation], or code outside the
    class. *)
Inductive Caller : Type := Violation | Outside.

Definition is_violation (c : Caller) : bool :=
  match c with
  | Violation => true
  | Outside => false
  end.

(** What the controller does, in order. *)
Inductive Obs : Type :=
| Notified (message : text) (type : NotificationType)
| HandleViolation (port : Hub.Port) (reason : string) (value : number)
| EmergencyStop (who : Caller)
| Brake (port : Hub.Port).

(** A call of [emergencyStop] that has not returned yet, with the ports
    whose [brake()] promise is still pending. *)
Record Stopping : Type := mkStopping {
  ident : nat;
  caller : Caller;
  braking : list Hub.Port
}.

Record State : Type := mkState {
  (* the fields of the SafetyController object *)
  limits : Hub.Port -> SafetyLimits;
  stopRequested : bool;
  monitoringInterval : bool;       (* whether the interval timer is set *)
  (* the hub and the event loop *)
  attached : Hub.Port -> bool;     (* hub.getDeviceAtPort(port) is a device *)
  now : Z;
  stops : nat;                     (* calls of emergencyStop so far *)
  stopping : list Stopping;
  timers : list Z;                 (* due times of the pending setTimeout
                                      callbacks of handleViolation *)
  log : list Obs
}.

(** The limits the constructor installs. *)
Definition default_limits (port : Hub.Port) : SafetyLimits :=
  match port with
  | Hub.A => mkLimits 100 500 (-360) 360 1000 50 90
  | Hub.B => mkLimits 100 500 (-180) 180 1000 50 90
  | Hub.C => mkLimits 50 200 (-45) 45 500 50 90
  end.

(** [new SafetyController(hub, notifyViolation)] at time [t0]. *)
Definition new (hub : Hub.Port -> bool) (t0 : Z) : State :=
  mkState default_limits false false hub t0 0 [] [] [].

Definition observe (l : list Obs) (s : State) : State :=
  mkState (limits s) (stopRequested s) (monitoringInterval s) (attached s)
          (now s) (stops s) (stopping s) (timers s) (log s ++ l).

(** [this.notifyViolation(message, type)] *)
Definition notifyViolation (message : text) (type : NotificationType)
    (s : State) : State :=
  observe [Notified message type] s.

Definition startMonitoring (s : State) : State :=
  if monitoringInterval s then s
  else mkState (limits s) (stopRequested s) true (attached s)
               (now s) (stops s) (stopping s) (timers s) (log s).

Definition stopMonitoring (s : State) : State :=
  if monitoringInterval s
  then mkState (limits s) (stopRequested s) false (attached s)
               (now s) (stops s) (stopping s) (timers s) (log s)
  else s.

(** [emergencyStop()] up to its first suspension: monitoring is stopped
    and [brake()] is called on the device of every port that has one, in
    the order A, B, C; the call then waits for all of them.  A [brake()]
    fails by rejecting its promise, which is reported when the promise
    settles ([BrakeSettled] below); a [brake()] that throws before it
    returns a promise would be reported before the next port is braked,
    an order of log entries the model does not produce. *)
Definition emergencyStop (who : Caller) (s : State) : State :=
  let s1 := observe [EmergencyStop who] (stopMonitoring s) in
  let motors := filter (attached s1) Hub.ports in
  let s2 := observe (map Brake motors) s1 in
  mkState (limits s2) (stopRequested s2) (monitoringInterval s2) (attached s2)
          (now s2) (S (stops s2))
          (stopping s2 ++ [mkStopping (stops s2) who motors])
          (timers s2) (log s2).

(** [handleViolation(port, reason, value)] up to its first suspension. *)
Definition handleViolation (port : Hub.Port) (reason : string)
    (value : number) (s : State) : State :=
  let message := [Lit "Safety violation on motor "; Lit (Hub.name port);
                  Lit ": "; Lit reason; Lit " ("; Num value; Lit ")"] in
  let s1 := notifyViolation message error
              (observe [HandleViolation port reason value] s) in
  if negb (stopRequested s1) then
    emergencyStop Violation
      (mkState (limits s1) true (monitoringInterval s1) (attached s1)
               (now s1) (stops s1) (stopping s1) (timers s1) (log s1))
  else s1.

Definition checkLimits (port : Hub.Port) (status : MotorStatus) (s : State)
  : State :=
  let limits := limits s port in
  (* Position limits *)
  let s1 :=
    if currentPosition status <? minDegrees limits
    then handleViolation port "Position below minimum limit"
                         (currentPosition status) s
    else s in
  let s2 :=
    if maxDegrees limits <? currentPosition status
    then handleViolation port "Position above maximum limit"
                         (currentPosition status) s1
    else s1 in
  (* Speed and acceleration *)
  let s3 :=
    if maxSpeed limits <? abs (speed status)
    then handleViolation port "Speed exceeds maximum limit" (speed status) s2
    else s2 in
  (* Current draw *)
  let s4 :=
    if maxCurrent limits <? current status
    then handleViolation port "Current draw too high" (current status) s3
    else s3 in
  (* Temperature *)
  let s5 :=
    if maxTemperature limits <? temperature status
    then handleViolation port "Temperature too high" (temperature status) s4
    else s4 in
  (* Motor load *)
  if maxMotorLoad limits <? load status
  then handleViolation port "Motor load too high" (load status) s5
  else s5.

(** [Partial<SafetyLimits>] *)
Record PartialLimits : Type := mkPartial {
  p_maxSpeed : option number;
  p_maxAcceleration : option number;
  p_minDegrees : option number;
  p_maxDegrees : option number;
  p_maxCurrent : option number;
  p_maxTemperature : option number;
  p_maxMotorLoad : option number
}.

Definition override (new_value : option number) (old : number) : number :=
  match new_value with
  | Some v => v
  | None => old
  end.

(** [{ ...this.limits[port], ...newLimits }] *)
Definition spread (old : SafetyLimits) (newLimits : PartialLimits)
  : SafetyLimits :=
  mkLimits (override (p_maxSpeed newLimits) (maxSpeed old))
           (override (p_maxAcceleration newLimits) (maxAcceleration old))
           (override (p_minDegrees newLimits) (minDegrees old))
           (override (p_maxDegrees newLimits) (maxDegrees old))
           (override (p_maxCurrent newLimits) (maxCurrent old))
           (override (p_maxTemperature newLimits) (maxTemperature old))
           (override (p_maxMotorLoad newLimits) (maxMotorLoad old)).

(** [['A', 'B', 'C'].includes(port)], with the port it names. *)
Definition port_named (port : string) : option Hub.Port :=
  find (fun p => String.eqb (Hub.name p) port) Hub.ports.

(** [updateLimits(port, newLimits)].  The method first tests
    [this.hub], a field that only the constructor assigns; [hub] says
    whether it is set. *)
Definition updateLimits (hub : bool) (port : string)
    (newLimits : PartialLimits) (s : State) : bool * State :=
  if negb hub then
    (false,
     notifyViolation (lit "Cannot update limits: No hub connected") error s)
  else
    match port_named port with
    | None =>
        (false,
         notifyViolation [Lit "Invalid port "; Lit port;
                          Lit " for limit update"] error s)
    | Some p =>
        (true,
         notifyViolation [Lit "Updated limits for motor "; Lit port] info
           (mkState (fun q => if Hub.eqb q p
                              then spread (limits s p) newLimits
                              else limits s q)
                    (stopRequested s) (monitoringInterval s) (attached s)
                    (now s) (stops s) (stopping s) (timers s) (log s)))
    end.

Definition has_port (p : Hub.Port) (l : list Hub.Port) : bool :=
  existsb (Hub.eqb p) l.

Definition without_port (p : Hub.Port) (l : list Hub.Port) : list Hub.Port :=
  filter (fun q => negb (Hub.eqb p q)) l.

(** The [brake()] promise of port [p] in the stop [i] has settled. *)
Fixpoint settle_brake (i : nat) (p : Hub.Port) (l : list Stopping)
  : list Stopping :=
  match l with
  | [] => []
  | x :: l' =>
      if (ident x =? i)%nat
      then mkStopping (ident x) (caller x) (without_port p (braking x)) :: l'
      else x :: settle_brake i p l'
  end.

Definition find_stop (i : nat) (s : State) : option Stopping :=
  find (fun x => (ident x =? i)%nat) (stopping s).

Fixpoint remove_due (d : Z) (l : list Z) : list Z :=
  match l with
  | [] => []
  | x :: l' => if (x =? d)%Z then l' else x :: remove_due d l'
  end.

Inductive Event : Type :=
| StartMonitoring
| StopMonitoring
| Disconnected            (* a tick finds the hub disconnected *)
| Observed (port : Hub.Port) (status : MotorStatus)
                          (* a tick has read the status of a port *)
| ReadFailed (port : Hub.Port) (err : string)
                          (* reading the status of a port threw *)
| CallEmergencyStop       (* emergencyStop() called from outside *)
| BrakeSettled (i : nat) (port : Hub.Port) (failure : option string)
                          (* a brake() promise of stop i settles *)
| StopReturned (i : nat)  (* stop i has no brake pending and returns *)
| TimerFired (due : Z)    (* the callback of a setTimeout runs *)
| UpdateLimits (port : string) (newLimits : PartialLimits)
| Hub_changed (hub : Hub.Port -> bool)
| Advance (dt : Z).

Definition step (s : State) (e : Event) : option State :=
  match e with
  | StartMonitoring => Some (startMonitoring s)
  | StopMonitoring => Some (stopMonitoring s)
  | Disconnected =>
      if monitoringInterval s
      then Some (notifyViolation
                   (lit "Hub disconnected, stopping safety monitoring") error
                   (stopMonitoring s))
      else None
  | Observed port status => Some (checkLimits port status s)
  | ReadFailed port err =>
      Some (notifyViolation
              [Lit "Failed to get motor "; Lit (Hub.name port);
               Lit " status: "; Lit err] error s)
  | CallEmergencyStop => Some (emergencyStop Outside s)
  | BrakeSettled i port failure =>
      match find_stop i s with
      | Some x =>
          if has_port port (braking x) then
            let s1 :=
              mkState (limits s) (stopRequested s) (monitoringInterval s)
                      (attached s) (now s) (stops s)
                      (settle_brake i port (stopping s)) (timers s) (log s) in
            Some match failure with
                 | Some err =>
                     notifyViolation
                       [Lit "Failed to stop motor "; Lit (Hub.name port);
                        Lit ": "; Lit err] error s1
                 | None => s1
                 end
          else None
      | None => None
      end
  | StopReturned i =>
      match find_stop i s with
      | Some x =>
          match braking x with
          | [] =>
              let s1 := notifyViolation (lit "Emergency stop activated") info s in
              Some (mkState (limits s1) (stopRequested s1)
                            (monitoringInterval s1) (attached s1) (now s1)
                            (stops s1)
                            (filter (fun y => negb (ident y =? i)%nat)
                                    (stopping s1))
                            (* Reset stop request after a delay *)
                            (if is_violation (caller x)
                             then timers s1 ++ [(now s1 + 1000)%Z]
                             else timers s1)
                            (log s1))
          | _ :: _ => None
          end
      | None => None
      end
  | TimerFired due =>
      if existsb (Z.eqb due) (timers s) && (due <=? now s)%Z
      then Some (mkState (limits s) false (monitoringInterval s) (attached s)
                         (now s) (stops s) (stopping s)
                         (remove_due due (timers s)) (log s))
      else None
  | UpdateLimits port newLimits =>
      (* the controller of this transition system has its hub *)
      Some (snd (updateLimits true port newLimits s))
  | Hub_changed hub =>
      Some (mkState (limits s) (stopRequested s) (monitoringInterval s) hub
                    (now s) (stops s) (stopping s) (timers s) (log s))
  | Advance dt =>
      if (0 <=? dt)%Z
      then Some (mkState (limits s) (stopRequested s) (monitoringInterval s)
                         (attached s) (now s + dt)%Z (stops s) (stopping s)
                         (timers s) (log s))
      else None
  end.

Fixpoint run (s : State) (tr : list Event) : option State :=
  match tr with
  | [] => Some s
  | e :: tr' =>
      match step s e with
      | Some s' => run s' tr'
      | None => None
      end
  end.

(** The emergency stops that violations have triggered. *)
Definition is_violation_stop (o : Obs) : bool :=
  match o with
  | EmergencyStop Violation => true
  | _ => false
  end.

Definition violation_stops (l : list Obs) : nat :=
  length (filter is_violation_stop l).

Definition is_handleViolation (o : Obs) : bool :=
  match o with
  | HandleViolation _ _ _ => true
  | _ => false
  end.

(** The stops under way that a violation has triggered. *)
Definition violation_stopping (s : State) : nat :=
  length (filter (fun x => is_violation (caller x)) (stopping s)).

(** Only while [stopRequested] is set is anything pending that a
    violation has started, and then one thing only: the stop, or after
    it the timer that resets the flag. *)
Definition Guarded (s : State) : Prop :=
  (length (timers s) + violation_stopping s
   <= if stopRequested s then 1 else 0)%nat.

(** The cool-down that starts at time [t]: the flag is set, and no
    pending timer is due before [t + 1000]. *)
Definition Cooling (t : Z) (s : State) : Prop :=
  stopRequested s = true /\
  (t <= now s)%Z /\
  Forall (fun d => (t + 1000 <= d)%Z) (timers s).

(** Every field of [status] but the temperature is within the limits. *)
Definition others_within (l : SafetyLimits) (status : MotorStatus) : Prop :=
  (currentPosition status <? minDegrees l) = false /\
  (maxDegrees l <? currentPosition status) = false /\
  (maxSpeed l <? abs (speed status)) = false /\
  (maxCurrent l <? current status) = false /\
  (maxMotorLoad l <? load status) = false.

(** [s'] differs from [s] in its log only, and no violation-triggered
    stop was added. *)
Definition Quiet (s s' : State) : Prop :=
  stopRequested s' = stopRequested s /\
  now s' = now s /\
  timers s' = timers s /\
  limits s' = limits s /\
  violation_stops (log s') = violation_stops (log s).

(** Axis A reads 55 degrees; everything else is at rest. *)
Definition overheated : MotorStatus := mkStatus 0 0 0 55 0.

(** The run of the witness: monitoring starts, a tick reads the
    overheated axis A, and 999 ms later, the stop having returned, axis
    B is read overheated too. *)
Definition overheating_run : list Event :=
  [ BrakeSettled 0 Hub.A None; BrakeSettled 0 Hub.B None;
    BrakeSettled 0 Hub.C (Some "no answer"%string); StopReturned 0;
    Advance 999; Observed Hub.B overheated ].

(** [getLimits(port)]: a copy of the limits of the port, or [null]
    after a notification when the port is not one of 'A', 'B', 'C'. *)
Definition getLimits (port : string) (s : State)
  : option SafetyLimits * State :=
  match port_named port with
  | None =>
      (None,
       notifyViolation [Lit "Invalid port "; Lit port;
                        Lit " for getting limits"] error s)
  | Some p => (Some (limits s p), s)
  end.

(** The six tests of [checkLimits], in its order. *)
Definition out_of_range (l : SafetyLimits) (status : MotorStatus)
  : list bool :=
  [ currentPosition status <? minDegrees l;
    maxDegrees l <? currentPosition status;
    maxSpeed l <? abs (speed status);
    maxCurrent l <? current status;
    maxTemperature l <? temperature status;
    maxMotorLoad l <? load status ].

(** The number of calls of [handleViolation] the log records. *)
Definition violations_handled (l : list Obs) : nat :=
  length (filter is_handleViolation l).

(** A reading, and limits, that are not numbers. *)
Definition no_reading : MotorStatus := mkStatus nan nan nan nan nan.

Definition no_limits : SafetyLimits := mkLimits nan nan nan nan nan nan nan.

(** Axis A is too hot, draws too much current and is overloaded. *)
Definition overloaded : MotorStatus := mkStatus 0 0 1500 55 95.

(** What follows an emergency stop: the brakes settle and the stop
    returns; five seconds later axis A is read overheated. *)
Definition after_stop : list Event :=
  [ BrakeSettled 0 Hub.A None; BrakeSettled 0 Hub.B None;
    BrakeSettled 0 Hub.C None; StopReturned 0;
    Advance 5000; Observed Hub.A overheated ].

End SafetyController.

(* ================================================================== *)
(** * app/page.tsx: the queue and the safety controller side by side *)
(* ================================================================== *)

(** The page creates one [CommandQueue] and, once connected, one
    [SafetyController]; the controller is constructed from the hub and
    the notification callback and holds no reference to the queue. *)

Module Page.

Record t : Type := mk {
  commandQueue : CommandQueue.State;
  safetyController : SafetyController.State;
  braked : list Hub.Port       (* brake() calls made through the plotter *)
}.

Definition initial (hub : Hub.Port -> bool) (t0 : Z) : t :=
  mk (CommandQueue.fresh t0) (SafetyController.new hub t0) [].

(** [emergencyStop] of the page, up to its first suspension: the queue is
    cleared and [plotter.stopMotor(port)] is called for every key of
    [motorStates], which brakes the ports that have a device. *)
Definition emergencyStop (p : t) : t :=
  mk (CommandQueue.clear p.(commandQueue))
     p.(safetyController)
     (p.(braked)
      ++ filter (SafetyController.attached p.(safetyController)) Hub.ports).

Inductive Event : Type :=
| Queue (e : CommandQueue.Event)         (* something happens at the queue *)
| Safety (e : SafetyController.Event)    (* something happens at the controller *)
| OperatorStop.                          (* the page's emergencyStop is called *)

Definition step (p : t) (e : Event) : option t :=
  match e with
  | Queue e' =>
      option_map (fun q => mk q p.(safetyController) p.(braked))
                 (CommandQueue.step p.(commandQueue) e')
  | Safety e' =>
      option_map (fun c => mk p.(commandQueue) c p.(braked))
                 (SafetyController.step p.(safetyController) e')
  | OperatorStop => Some (emergencyStop p)
  end.

Fixpoint run (p : t) (tr : list Event) : option t :=
  match tr with
  | [] => Some p
  | e :: tr' =>
      match step p e with
      | Some p' => run p' tr'
      | None => None
      end
  end.

(** Three operations are submitted: one is in flight, two are pending. *)
Definition three_submitted : list Event :=
  [ Queue TestInterface.executeCommand;
    Queue TestInterface.executeCommand;
    Queue TestInterface.executeCommand ].

(** The controller's emergency stop, called and run until it returns. *)
Definition safety_stop : list Event :=
  [ Safety SafetyController.CallEmergencyStop;
    Safety (SafetyController.BrakeSettled 0 Hub.A None);
    Safety (SafetyController.BrakeSettled 0 Hub.B None);
    Safety (SafetyController.BrakeSettled 0 Hub.C None);
    Safety (SafetyController.StopReturned 0) ].

(** The operation in flight completes and the drain loop resumes. *)
Definition first_completes : list Event :=
  [ Queue (CommandQueue.Settle 0 CommandQueue.Fulfilled);
    Queue (CommandQueue.Resume 0) ].

End Page.

(* ################################################################## *)
(** * Part II: what the embedded program does *)
(* ################################################################## *)

(* ================================================================== *)
(** * Properties of the Command Queue *)
(* ================================================================== *)

Section QueueLogs.

Import CommandQueue.

Lemma starts_app l1 l2 : starts (l1 ++ l2) = starts l1 ++ starts l2.
Proof.
  induction l1 as [|[h|h o] l1 IH]; simpl; [reflexivity| |assumption].
  now rewrite IH.
Qed.

Lemma settles_app l1 l2 : settles (l1 ++ l2) = settles l1 ++ settles l2.
Proof.
  induction l1 as [|[h|h o] l1 IH]; simpl; [reflexivity|assumption|].
  now rewrite IH.
Qed.

Lemma Serial_settles k b l : Serial k b l -> settles l = seq 0 k.
Proof.
  induction 1 as [|k l _ IH|k l o _ IH]; [reflexivity| |].
  - rewrite settles_app, IH. simpl. now rewrite app_nil_r.
  - rewrite settles_app, IH, seq_S. reflexivity.
Qed.

Lemma Serial_starts k b l :
  Serial k b l -> starts l = seq 0 (if b then S k else k).
Proof.
  induction 1 as [|k l _ IH|k l o _ IH]; [reflexivity| |].
  - rewrite starts_app, IH, seq_S. reflexivity.
  - rewrite starts_app, IH. simpl. now rewrite app_nil_r.
Qed.

(** Splitting a list that ends in [y] at an occurrence of [x]. *)
Lemma split_snoc (A : Type) (l1 l2 l : list A) (x y : A) :
  l1 ++ x :: l2 = l ++ [y] ->
  (l2 = [] /\ l1 = l /\ x = y) \/
  (exists l2', l2 = l2' ++ [y] /\ l = l1 ++ x :: l2').
Proof.
  intros E. destruct l2 as [|z l2] using rev_ind.
  - left. apply app_inj_tail in E. tauto.
  - right. exists l2. clear IHl2.
    change (l1 ++ x :: l2 ++ [z]) with (l1 ++ (x :: l2) ++ [z]) in E.
    rewrite app_assoc in E. apply app_inj_tail in E.
    destruct E as [E1 E2]. subst. split; reflexivity.
Qed.

(** In a serial log, operation [h] is started only after the
    operations 0 .. h-1 have settled. *)
Lemma Serial_start_after_settle k b l :
  Serial k b l ->
  forall l1 h l2, l = l1 ++ Started h :: l2 -> settles l1 = seq 0 h.
Proof.
  induction 1 as [|k l S IH|k l o S IH]; intros l1 h l2 E.
  - destruct l1; discriminate.
  - symmetry in E. apply split_snoc in E.
    destruct E as [(_ & -> & [= ->])|(l2' & _ & ->)].
    + eapply Serial_settles; eassumption.
    + eapply IH; reflexivity.
  - symmetry in E. apply split_snoc in E.
    destruct E as [(_ & _ & [=])|(l2' & _ & ->)].
    eapply IH; reflexivity.
Qed.

End QueueLogs.

Section QueueInvariant.

Import CommandQueue.

Lemma Inv_fresh t0 : Inv (fresh t0).
Proof.
  exists 0. left. unfold Idle, fresh; simpl.
  split; [reflexivity|]. split; [constructor|].
  split; [reflexivity|]. split; [reflexivity|].
  left. repeat split.
Qed.

Lemma seq_snoc_len k n : seq k (n + 1) = seq k n ++ [k + n].
Proof. rewrite seq_app. reflexivity. Qed.

Lemma Inv_add c s : Inv s -> Inv (add c s).
Proof.
  intros [k [I|B]].
  - destruct I as (Hrun & Hlog & Hq & Hsub & [(Hres & Hex & Hq0)|(h & Hres & Hex)]).
    + exists k. right. unfold add, processQueue; simpl.
      rewrite Hex, Hq0 in *. simpl in *.
      unfold Busy, execute; simpl. rewrite Hrun, Hres, Hsub, Nat.add_0_r.
      repeat split.
      * eexists. split; reflexivity.
      * now constructor.
    + exists k. left. unfold add, processQueue; simpl. rewrite Hex. simpl.
      unfold Idle; simpl. rewrite map_app, length_app, seq_snoc_len, Hq, Hsub.
      repeat split; try assumption; try (simpl; lia).
      right. exists h. split; [assumption|reflexivity].
  - destruct B as (Hrun & Hlog & Hq & Hsub & Hres & Hex).
    exists k. right. unfold add, processQueue; simpl. rewrite Hex. simpl.
    unfold Busy; simpl. rewrite map_app, length_app, seq_snoc_len, Hq, Hsub.
    repeat split; try assumption; try (simpl; lia).
Qed.

Lemma Inv_processQueue s : Inv s -> Inv (processQueue s).
Proof.
  intros [k [I|B]]; unfold processQueue.
  - destruct I as (Hrun & Hlog & Hq & Hsub & [(Hres & Hex & Hq0)|(h & Hres & Hex)]).
    + rewrite Hex, Hq0. simpl. exists k. left. unfold Idle. rewrite Hq0 in *.
      repeat split; try assumption. left. repeat split; assumption.
    + rewrite Hex. simpl. exists k. left. unfold Idle.
      repeat split; try assumption. right. exists h. split; assumption.
  - destruct B as (Hrun & Hlog & Hq & Hsub & Hres & Hex).
    rewrite Hex. simpl. exists k. right. unfold Busy. repeat split; assumption.
Qed.

Lemma Inv_settle h o s :
  Inv s -> existsb (is_op h) (running s) = true -> Inv (settle h o s).
Proof.
  intros [k [I|B]] En.
  - destruct I as (Hrun & _). rewrite Hrun in En. discriminate.
  - destruct B as ((r & Hrun & Hop) & Hlog & Hq & Hsub & Hres & Hex).
    rewrite Hrun in En. simpl in En. rewrite orb_false_r in En.
    unfold is_op in En. apply Nat.eqb_eq in En. rewrite Hop in En. subst h.
    exists (S k). left. unfold Idle, settle; simpl.
    rewrite Hrun, Hres. simpl. unfold is_op. rewrite Hop, Nat.eqb_refl. simpl.
    repeat split; try assumption.
    + now constructor.
    + right. exists k. split; [reflexivity|assumption].
Qed.

Lemma Inv_resume h s :
  Inv s -> existsb (Nat.eqb h) (resuming s) = true ->
  Inv (continue
         (mkState (queue s) (executing s) (currentCommand s) (now s)
                  (submitted s) (running s) (remove_first h (resuming s))
                  (log s))).
Proof.
  intros [k [I|B]] En.
  - destruct I as (Hrun & Hlog & Hq & Hsub & [(Hres & Hex & Hq0)|(h' & Hres & Hex)]).
    + rewrite Hres in En. discriminate.
    + rewrite Hres in En. simpl in En. rewrite orb_false_r in En.
      apply Nat.eqb_eq in En. subst h'.
      unfold continue, processQueue; simpl.
      destruct (queue s) as [|c rest] eqn:Eq; simpl.
      * exists k. left. unfold Idle; simpl. rewrite Hres. simpl.
        rewrite Nat.eqb_refl.
        repeat split; try assumption. left. repeat split.
      * simpl in Hq. injection Hq as Hc Hq.
        exists k. right. unfold Busy, execute; simpl.
        rewrite Hres, Hrun. simpl. rewrite Nat.eqb_refl, Hc.
        simpl in Hsub.
        repeat split; try assumption; try lia.
        -- eexists. split; reflexivity.
        -- now constructor.
  - destruct B as (_ & _ & _ & _ & Hres & _). rewrite Hres in En. discriminate.
Qed.

Lemma Inv_advance dt s :
  Inv s ->
  Inv (mkState (queue s) (executing s) (currentCommand s) (now s + dt)%Z
               (submitted s) (running s) (resuming s) (log s)).
Proof.
  intros [k [I|B]]; exists k; [left|right]; assumption.
Qed.

(** Every event other than [clear()] keeps the invariant. *)
Lemma Inv_step s e s' :
  Inv s -> e <> Clear -> step s e = Some s' -> Inv s'.
Proof.
  intros I NC St. destruct e; simpl in St.
  - injection St as <-. now apply Inv_add.
  - injection St as <-. now apply Inv_processQueue.
  - congruence.
  - destruct (existsb (is_op h) (running s)) eqn:En; [|discriminate].
    injection St as <-. now apply Inv_settle.
  - destruct (existsb _ (running s)) eqn:En; [|discriminate].
    injection St as <-. apply Inv_settle; [assumption|].
    apply existsb_exists in En. destruct En as (r & Hin & Hr).
    apply andb_true_iff in Hr. apply existsb_exists. exists r. tauto.
  - destruct (existsb (Nat.eqb h) (resuming s)) eqn:En; [|discriminate].
    injection St as <-. now apply Inv_resume.
  - destruct (0 <=? dt)%Z; [|discriminate].
    injection St as <-. now apply Inv_advance.
Qed.

Lemma Inv_run tr : forall s s',
  Inv s -> ~ In Clear tr -> run s tr = Some s' -> Inv s'.
Proof.
  induction tr as [|e tr IH]; intros s s' I NC R; simpl in R.
  - now injection R as <-.
  - destruct (step s e) as [s1|] eqn:St; [|discriminate].
    apply (IH s1); [|intros H; apply NC; now right|assumption].
    eapply Inv_step; [eassumption| |eassumption].
    intros ->. apply NC. now left.
Qed.

End QueueInvariant.


Section QueueTimeouts.

Import CommandQueue.

Variable T : Z.





End QueueTimeouts.

Section QueueClaims.

Import CommandQueue.


(** As long as [clear()] is not called at most one operation is in
    flight. *)
Lemma single_flight_without_clear t0 tr s :
  ~ In Clear tr -> run (fresh t0) tr = Some s -> length (running s) <= 1.
Proof.
  intros NC R.
  assert (I : Inv s) by (eapply Inv_run; [apply Inv_fresh| |]; eassumption).
  destruct I as [k [(Hrun & _)|((r & Hrun & _) & _)]]; rewrite Hrun; simpl; lia.
Qed.

(** As long as [clear()] is not called, a queue that is executing is
    never stuck: either the operation in flight can settle, or the
    drain loop can resume. *)
Lemma queue_never_stuck t0 tr s :
  ~ In Clear tr -> run (fresh t0) tr = Some s -> executing s = true ->
  (exists r, running s = [r] /\
             forall o, step s (Settle (op r) o) = Some (settle (op r) o s)) \/
  (exists h, resuming s = [h] /\ step s (Resume h) <> None).
Proof.
  intros NC R Hex.
  assert (I : Inv s) by (eapply Inv_run; [apply Inv_fresh| |]; eassumption).
  destruct I as [k [(_ & _ & _ & _ & [(_ & Hex' & _)|(h & Hres & _)])
                   |((r & Hrun & _) & _)]].
  - congruence.
  - right. exists h. split; [assumption|]. simpl. rewrite Hres. simpl.
    rewrite Nat.eqb_refl. discriminate.
  - left. exists r. split; [assumption|]. intros o. simpl. rewrite Hrun.
    simpl. unfold is_op. now rewrite Nat.eqb_refl.
Qed.

(** As long as [clear()] is not called, the operations given to
    [add()] are served strictly in the order of submission.  Handles are
    numbered by submission (the n-th call of [add] creates handle n).  In
    every state the queue can reach: the operations started so far are
    0, 1, 2, ... in this order and so are the handles settled so far; an
    operation is started only after every operation submitted before it
    has settled; whatever has been submitted and not started is still
    queued in submission order; and when the queue is not executing,
    every submitted operation has been started and has settled. *)
Theorem add_serves_in_submission_order :
  forall t0 tr s,
    ~ In Clear tr ->
    run (fresh t0) tr = Some s ->
    starts (log s) = seq 0 (length (starts (log s))) /\
    settles (log s) = seq 0 (length (settles (log s))) /\
    (forall l1 h l2, log s = l1 ++ Started h :: l2 -> settles l1 = seq 0 h) /\
    starts (log s) ++ map handle (queue s) = seq 0 (submitted s) /\
    (executing s = false -> settles (log s) = seq 0 (submitted s)).
Proof.
  intros t0 tr s NC R.
  assert (I : Inv s) by (eapply Inv_run; [apply Inv_fresh| |]; eassumption).
  destruct I as [k [(Hrun & Hlog & Hq & Hsub & Hres)|(Hrun & Hlog & Hq & Hsub & Hres & Hex)]].
  - pose proof (Serial_starts Hlog) as Hst. pose proof (Serial_settles Hlog) as Hse.
    simpl in Hst. rewrite Hst, Hse, Hq, Hsub, !length_seq, seq_app.
    repeat split.
    + intros l1 h l2 E. eapply Serial_start_after_settle; eassumption.
    + intros Hex. destruct Hres as [(_ & _ & ->)|(h & _ & Hex')]; [|congruence].
      simpl. now rewrite app_nil_r.
  - pose proof (Serial_starts Hlog) as Hst. pose proof (Serial_settles Hlog) as Hse.
    cbv iota in Hst. rewrite Hst, Hse, Hq, Hsub, !length_seq.
    split; [reflexivity|]. split; [reflexivity|]. split; [|split].
    + intros l1 h l2 E. eapply Serial_start_after_settle; eassumption.
    + now rewrite (seq_app (S k)).
    + congruence.
Qed.

Lemma add_serves_in_submission_order_witness :
  exists s,
    ~ In Clear TestInterface.three_operations /\
    run (fresh 0) TestInterface.three_operations = Some s /\
    log s = [Started 0; Settled 0 Fulfilled;
             Started 1; Settled 1 (Rejected "motor stalled");
             Started 2; Settled 2 Fulfilled] /\
    (forall l1 h l2, log s = l1 ++ Started h :: l2 -> settles l1 = seq 0 h) /\
    settles (log s) = seq 0 (submitted s).
Proof.
  eexists.
  assert (NC : ~ In Clear TestInterface.three_operations).
  { unfold TestInterface.three_operations. simpl. intuition discriminate. }
  assert (R : run (fresh 0) TestInterface.three_operations = Some _) by (vm_compute; reflexivity).
  split; [exact NC|]. split; [exact R|]. split; [reflexivity|].
  destruct (add_serves_in_submission_order 0 TestInterface.three_operations NC R)
    as (_ & _ & H3 & _ & H5).
  split; [exact H3|]. apply H5. reflexivity.
Defined.

(** C1.  [clear()] resets [executing] while an operation is in flight;
    the next [add()] then starts a second operation although the first
    has not settled. *)
Theorem clear_in_flight_lets_second_operation_start :
  forall t0 a b,
    exists s,
      run (fresh t0) [Add a; Clear; Add b] = Some s /\
      map op (running s) = [0; 1] /\
      log s = [Started 0; Started 1] /\
      settles (log s) = [].
Proof.
  intros t0 a b. eexists. split; [reflexivity|]. repeat split.
Qed.

(** C3.  Through [clear()] a later operation overtakes an earlier one
    (by the same reset of [executing] that lets two operations be in
    flight).  After [add(a)], [clear()] while [a] is in
    flight, and [add(b)], the body of [b] is started although [a], which
    was submitted before it, has not settled; [b] may then settle
    first, so that the handles settle in the order 1, 0.  The log the
    queue leaves is not one in which an operation starts only after
    every operation submitted before it has settled. *)
Theorem clear_lets_later_operation_overtake :
  forall t0 a b o1 o0,
    exists s,
      run (fresh t0) [Add a; Clear; Add b; Settle 1 o1; Settle 0 o0]
      = Some s /\
      log s = [Started 0; Started 1; Settled 1 o1; Settled 0 o0] /\
      starts (log s) = [0; 1] /\
      settles (log s) = [1; 0] /\
      ~ (forall l1 h l2,
           log s = l1 ++ Started h :: l2 -> settles l1 = seq 0 h).
Proof.
  intros t0 a b o1 o0. eexists. split; [reflexivity|].
  split; [reflexivity|]. split; [reflexivity|]. split; [reflexivity|].
  intros H.
  specialize (H [Started 0] 1 [Settled 1 o1; Settled 0 o0] eq_refl).
  discriminate.
Qed.


End QueueClaims.

(* ================================================================== *)
(** * Properties of the Movement Validator *)
(* ================================================================== *)

Section ValidatorClaims.

Import Js Types MovementValidator.
Local Open Scope float_scope.


(** C8, as stated, fails: the reason returned for (20,20) -> (5,5) is not
    the zone-crossing one. *)
Lemma validatePath_scenario_is_not_zone_crossing :
  validatePath scenario_validator 20 20 5 5
  <> invalid (lit "Path crosses danger zone").
Proof. vm_compute. discriminate. Qed.

(** C8, amended.  With bounds 0-148 x 0-210 mm and the danger zone
    {-10,-10,10,10}, [validatePath(20,20,5,5)] is invalid and its reason
    is 'Position is in danger zone': the end point (5,5) lies inside the
    zone, so the end-point check answers before the crossing test is
    reached (which would have found the crossing too).  This holds for
    every calibration. *)
Theorem validatePath_scenario_end_point_in_zone :
  forall cal,
    validatePath (MovementValidator.mk MOVEMENT_BOUNDS cal false) 20 20 5 5
    = invalid (lit "Position is in danger zone") /\
    validatePosition (MovementValidator.mk MOVEMENT_BOUNDS cal false) 20 20
    = ok /\
    existsb (doesLineIntersectZone 20 20 5 5) [Zone.mk (-10) (-10) 10 10]
    = true.
Proof. intros cal. repeat split; vm_compute; reflexivity. Qed.

End ValidatorClaims.

(* ================================================================== *)
(** * Properties of the move optimizer *)
(* ================================================================== *)

Section OptimizerClaims.

Import Js Types PathProcessor.
Local Open Scope float_scope.

Lemma reduce_from_absorb rest : forall i before prev,
  reduce_from (S i) (before ++ [prev]) rest = before ++ absorb prev rest.
Proof.
  induction rest as [|m rest IH]; intros i before prev; simpl; [reflexivity|].
  unfold merge. simpl. rewrite rev_app_distr. simpl.
  destruct (both_draw prev m).
  - simpl. rewrite rev_involutive. apply IH.
  - rewrite IH, <- app_assoc. reflexivity.
Qed.

Lemma optimize_cons m rest :
  optimizePlotterMoves (m :: rest) false = absorb m rest.
Proof.
  unfold optimizePlotterMoves. simpl. unfold merge. simpl.
  apply (reduce_from_absorb rest 0 [] m).
Qed.

(** The result starts with a move of the kind of [prev]. *)
Lemma absorb_head rest : forall prev,
  exists p tail,
    absorb prev rest = p :: tail /\
    PlotterMove.type p = PlotterMove.type prev.
Proof.
  induction rest as [|m rest IH]; intros prev; simpl.
  - exists prev, []. split; reflexivity.
  - destruct (both_draw prev m).
    + destruct (IH (with_xy prev (PlotterMove.x m) (PlotterMove.y m)))
        as (p & tail & E & Ht).
      exists p, tail. split; assumption.
    + exists prev, (absorb m rest). split; reflexivity.
Qed.

Lemma both_draw_type prev p m :
  PlotterMove.type p = PlotterMove.type m ->
  both_draw prev p = both_draw prev m.
Proof. unfold both_draw. now intros ->. Qed.

Lemma both_draw_true prev m :
  both_draw prev m = true ->
  PlotterMove.type prev = MoveType.draw /\ PlotterMove.type m = MoveType.draw.
Proof.
  unfold both_draw.
  destruct (PlotterMove.type prev), (PlotterMove.type m); simpl;
    intros H; try discriminate; split; reflexivity.
Qed.

Lemma merged_absorb rest : forall prev, merged (absorb prev rest) = true.
Proof.
  induction rest as [|m rest IH]; intros prev; simpl; [reflexivity|].
  destruct (both_draw prev m) eqn:E; [apply IH|].
  destruct (absorb_head rest m) as (p & tail & Eq & Ht).
  specialize (IH m). rewrite Eq in *. simpl.
  rewrite (both_draw_type prev p m Ht), E. simpl. exact IH.
Qed.

Lemma absorb_merged rest : forall prev,
  merged (prev :: rest) = true -> absorb prev rest = prev :: rest.
Proof.
  induction rest as [|m rest IH]; intros prev H; [reflexivity|].
  simpl in H. apply andb_true_iff in H. destruct H as [H1 H2].
  apply negb_true_iff in H1. simpl. rewrite H1. now rewrite IH.
Qed.

Lemma Subseq_refl (A : Type) (l : list A) : Subseq l l.
Proof. induction l; constructor; assumption. Qed.

Lemma trace_absorb_Subseq rest : forall prev,
  Subseq (trace (absorb prev rest)) (trace (prev :: rest)).
Proof.
  induction rest as [|m rest IH]; intros prev; simpl.
  - apply Subseq_refl.
  - destruct (both_draw prev m).
    + apply Subseq_drop. apply (IH (with_xy prev _ _)).
    + simpl. apply Subseq_keep. apply IH.
Qed.

Lemma trace_absorb_last rest : forall prev d,
  last (trace (absorb prev rest)) d = last (trace (prev :: rest)) d.
Proof.
  induction rest as [|m rest IH]; intros prev d; [reflexivity|].
  simpl absorb. destruct (both_draw prev m).
  - rewrite (IH (with_xy prev _ _)). reflexivity.
  - destruct (absorb_head rest m) as (p & tail & Eq & _).
    specialize (IH m d). rewrite Eq in *.
    change (last (point prev :: trace (p :: tail)) d = last (trace (m :: rest)) d).
    rewrite <- IH. reflexivity.
Qed.

Lemma travel_absorb rest : forall prev,
  filter is_travel (absorb prev rest) = filter is_travel (prev :: rest).
Proof.
  induction rest as [|m rest IH]; intros prev; [reflexivity|].
  simpl absorb. destruct (both_draw prev m) eqn:E.
  - apply both_draw_true in E. destruct E as [E1 E2].
    rewrite (IH (with_xy prev _ _)). simpl. unfold is_travel. simpl.
    rewrite E1, E2. reflexivity.
  - simpl. rewrite (IH m). reflexivity.
Qed.

Lemma length_assign st : forall r v, length (assign st r v) = length st.
Proof.
  induction st as [|o st IH]; intros [|r] v; simpl; try reflexivity.
  now rewrite IH.
Qed.

Lemma deref_assign_same st : forall r v,
  (r < length st)%nat -> deref (assign st r v) r = v.
Proof.
  unfold deref.
  induction st as [|o st IH]; intros [|r] v H; simpl in *; try lia.
  - reflexivity.
  - apply IH. lia.
Qed.

Lemma deref_assign_other st : forall r r' v,
  r <> r' -> deref (assign st r v) r' = deref st r'.
Proof.
  unfold deref.
  induction st as [|o st IH]; intros [|r] [|r'] v H; simpl;
    try reflexivity; try congruence.
  apply IH. congruence.
Qed.

Lemma read_assign_other st r v array :
  ~ In r array -> read (assign st r v) array = read st array.
Proof.
  intros H. unfold read. apply map_ext_in. intros r' Hin.
  apply deref_assign_other. intros ->. now apply H.
Qed.

(** On an array of distinct objects the pass on the store computes what
    the pass on the values computes. *)
Lemma reduce_inplace_absorb rest : forall i st before p,
  NoDup (before ++ p :: rest) ->
  Forall (fun r => (r < length st)%nat) (p :: rest) ->
  read (fst (reduce_inplace (S i) st (before ++ [p]) rest))
       (snd (reduce_inplace (S i) st (before ++ [p]) rest))
  = read st before ++ absorb (deref st p) (read st rest).
Proof.
  induction rest as [|r rest IH]; intros i st before p ND V.
  - simpl. unfold read. now rewrite map_app.
  - simpl. unfold merge_inplace. simpl. rewrite rev_app_distr. simpl.
    inversion V as [|? ? Hp V1]; subst. inversion V1 as [|? ? Hr V2]; subst.
    assert (ND2 : NoDup ((before ++ [p]) ++ r :: rest))
      by now rewrite <- app_assoc.
    assert (ND' : NoDup (before ++ p :: rest)).
    { apply NoDup_remove_1 in ND2. now rewrite <- app_assoc in ND2. }
    assert (Hb : ~ In p before).
    { apply NoDup_remove_2 in ND'. intros H. apply ND'.
      apply in_or_app. now left. }
    assert (Hrst : ~ In p rest).
    { apply NoDup_remove_2 in ND'. intros H. apply ND'.
      apply in_or_app. now right. }
    destruct (both_draw (deref st p) (deref st r)) eqn:E.
    + rewrite IH.
      * rewrite deref_assign_same by assumption.
        now rewrite (@read_assign_other _ _ _ _ Hb),
                    (@read_assign_other _ _ _ _ Hrst).
      * assumption.
      * constructor; [now rewrite length_assign|].
        eapply Forall_impl; [|exact V2]. intros a Ha.
        now rewrite length_assign.
    + transitivity (read st (before ++ [p])
                    ++ absorb (deref st r) (read st rest)).
      * exact (IH (S i) st (before ++ [p]) r ND2 V1).
      * unfold read. now rewrite map_app, <- app_assoc.
Qed.

Lemma optimize_inplace_refines st moves :
  NoDup moves ->
  Forall (fun r => (r < length st)%nat) moves ->
  read (fst (optimizePlotterMoves_inplace st moves))
       (snd (optimizePlotterMoves_inplace st moves))
  = optimizePlotterMoves (read st moves) false.
Proof.
  intros ND V. destruct moves as [|r rest]; [reflexivity|].
  change (read st (r :: rest)) with (deref st r :: read st rest).
  rewrite optimize_cons.
  unfold optimizePlotterMoves_inplace. simpl. unfold merge_inplace. simpl.
  exact (@reduce_inplace_absorb rest 0 st [] r ND V).
Qed.


(** C6, as stated, fails: the vertex (10,0) of the stroke is removed, so
    the pen is taken along the diagonal instead of around the corner. *)
Lemma optimize_alters_the_trace :
  trace corner = [(0, 0); (10, 0); (10, 10)] /\
  trace (optimizePlotterMoves corner false) = [(0, 0); (10, 10)] /\
  trace (optimizePlotterMoves corner false) <> trace corner.
Proof.
  split; [reflexivity|]. split; [reflexivity|].
  vm_compute. discriminate.
Qed.

Lemma both_draw_is_draw a b : both_draw a b = is_draw a && is_draw b.
Proof.
  unfold both_draw, is_draw.
  now destruct (PlotterMove.type a), (PlotterMove.type b).
Qed.

(** What is left of a list depends on its first move only through the
    kind and the point of that move. *)
Lemma without_draws_before_draw_head a b l :
  PlotterMove.type a = PlotterMove.type b -> point a = point b ->
  trace (without_draws_before_draw (a :: l))
  = trace (without_draws_before_draw (b :: l)).
Proof.
  intros Ht Hp. destruct l as [|c l]; simpl; [now rewrite Hp|].
  unfold is_draw. rewrite Ht.
  destruct (MoveType.eqb (PlotterMove.type b) MoveType.draw
            && MoveType.eqb (PlotterMove.type c) MoveType.draw);
    [reflexivity|].
  change (point a :: trace (without_draws_before_draw (c :: l))
          = point b :: trace (without_draws_before_draw (c :: l))).
  now rewrite Hp.
Qed.

(** The points of the result: those of the moves that are not a Draw
    directly followed by a Draw. *)
Lemma trace_absorb rest : forall prev,
  trace (absorb prev rest) = trace (without_draws_before_draw (prev :: rest)).
Proof.
  induction rest as [|m rest IH]; intros prev; [reflexivity|].
  cbn [absorb without_draws_before_draw].
  rewrite <- both_draw_is_draw. destruct (both_draw prev m) eqn:E.
  - rewrite IH. apply without_draws_before_draw_head; [|reflexivity].
    apply both_draw_true in E. destruct E as [E1 E2]. simpl. congruence.
  - change (point prev :: trace (absorb m rest)
            = point prev :: trace (without_draws_before_draw (m :: rest))).
    now rewrite IH.
Qed.

(** The kinds and pen settings of the result: those of the moves that
    are not a Draw directly after a Draw. *)
Lemma setting_absorb rest : forall prev,
  map setting (absorb prev rest)
  = setting prev
    :: map setting (without_draws_after_draw (is_draw prev) rest).
Proof.
  induction rest as [|m rest IH]; intros prev; [reflexivity|].
  cbn [absorb without_draws_after_draw].
  rewrite both_draw_is_draw.
  destruct (is_draw prev && is_draw m) eqn:E.
  - rewrite IH. apply andb_true_iff in E. destruct E as [E1 E2].
    unfold is_draw in *. simpl. now rewrite E1.
  - simpl. now rewrite IH.
Qed.

(** A list of moves is known by its settings and its points. *)
Lemma moves_of_settings_and_points l : forall f g,
  map setting l = map setting f -> trace l = trace g ->
  l = map (fun p => with_xy (fst p) (PlotterMove.x (snd p))
                            (PlotterMove.y (snd p)))
          (combine f g).
Proof.
  induction l as [|[t x y z] l IH]; intros [|[t1 x1 y1 z1] f] [|[t2 x2 y2 z2] g]
    Hs Hp; try discriminate; [reflexivity|].
  simpl in Hs, Hp. injection Hs as Ht Hz Hs. injection Hp as Hx Hy Hp.
  simpl. unfold with_xy. simpl. subst. f_equal. now apply IH.
Qed.

Lemma absorb_merge_runs prev rest :
  absorb prev rest = merge_runs (prev :: rest).
Proof.
  unfold merge_runs. apply moves_of_settings_and_points.
  - apply setting_absorb.
  - apply trace_absorb.
Qed.

(** C6, amended.  [optimize] merges every run of consecutive Draw moves
    into one Draw and does nothing else.  The result is [m] without the
    Draw moves that directly follow a Draw, each move left having the
    end point of the last Draw of its run; so the points of the result
    are exactly the points of [m] without those of the Draw moves that
    are directly followed by a Draw (the inner vertices of a stroke),
    in the same order.  Hence they are a subsequence of the points of
    [m] with the same last point, every Travel move is kept as it is,
    no two Draw moves are left next to each other, and
    [optimize (optimize m) = optimize m]. *)
Theorem optimize_merges_runs_and_is_idempotent :
  forall m,
    let o := optimizePlotterMoves m false in
    o = merge_runs m /\
    trace o = trace (without_draws_before_draw m) /\
    map setting o = map setting (without_draws_after_draw false m) /\
    Subseq (trace o) (trace m) /\
    (forall d, last (trace o) d = last (trace m) d) /\
    filter is_travel o = filter is_travel m /\
    merged o = true /\
    optimizePlotterMoves o false = o.
Proof.
  intros [|a rest]; cbv zeta.
  - repeat split. constructor.
  - rewrite optimize_cons.
    split; [apply absorb_merge_runs|].
    split; [apply trace_absorb|].
    split; [apply setting_absorb|].
    split; [apply trace_absorb_Subseq|].
    split; [intros d; apply trace_absorb_last|].
    split; [apply travel_absorb|].
    split; [apply merged_absorb|].
    destruct (absorb_head rest a) as (p & tail & Eq & _).
    pose proof (merged_absorb rest a) as M. rewrite Eq in *.
    rewrite optimize_cons. now apply absorb_merged.
Qed.

(** Two strokes of one Draw each: the pass has nothing to merge and
    returns them as they are. *)
Lemma optimize_keeps_two_marks :
  optimizePlotterMoves two_marks false = two_marks /\
  merge_runs two_marks = two_marks.
Proof. split; reflexivity. Qed.

End OptimizerClaims.

(* ================================================================== *)
(** * Properties of the path parser *)
(* ================================================================== *)

Section ParserClaims.

Import Js Types PathPlanner.
Local Open Scope float_scope.


(** C7.  A close-path command carries no coordinates, so the guard at
    the head of the loop skips it before the 'Z' case is reached: it
    changes nothing even when moves exist, and the path "M10 10 L20 20 Z"
    gets no Draw back to (10,10). *)
Theorem closepath_is_skipped :
  (forall scale st, processCommand scale st closepath = st) /\
  parsedMoves closed_path 1 =
    [ PlotterMove.mk MoveType.move 10 10 (Some 0);
      PlotterMove.mk MoveType.move 20 20 (Some (-45));
      PlotterMove.mk MoveType.draw 20 20 None;
      PlotterMove.mk MoveType.draw 20 20 (Some 0) ] /\
  parsedMoves closed_path 1 = parsedMoves [moveto 10 10; lineto 20 20] 1.
Proof.
  split; [|split]; [|reflexivity|reflexivity].
  intros scale [moves penDown]. reflexivity.
Qed.


Lemma zero_coordinate_falsy v : zero_coordinate v -> falsy v = true.
Proof.
  intros (n & -> & H). unfold falsy, is_zero.
  change zero with 0. now rewrite H.
Qed.

(** C10.  A command whose x or y coordinate is the number 0 is skipped by
    the guard [!cmd.x || !cmd.y]: the iteration changes neither the moves
    nor the pen state, whatever the command is, so the path parses as if
    the command were not there. *)
Theorem zero_coordinate_command_is_skipped :
  forall scale cmd,
    zero_coordinate cmd.(SVGCommand.x) \/ zero_coordinate cmd.(SVGCommand.y) ->
    (forall st, processCommand scale st cmd = st) /\
    (forall before after,
        parseSVGPath (before ++ cmd :: after) scale
        = parseSVGPath (before ++ after) scale).
Proof.
  intros scale cmd H.
  assert (Hskip : forall st, processCommand scale st cmd = st).
  { intros [moves penDown]. unfold processCommand.
    destruct H as [H|H]; apply zero_coordinate_falsy in H; rewrite H;
      [reflexivity|now rewrite orb_true_r]. }
  split; [exact Hskip|].
  intros before after. unfold parseSVGPath, parsedMoves.
  rewrite !fold_left_app. simpl. now rewrite Hskip.
Qed.

Lemma zero_coordinate_command_is_skipped_witness :
  zero_coordinate (SVGCommand.x (lineto 0 50)) /\
  processCommand 1 ([PlotterMove.mk MoveType.move 10 10 (Some 0)], false)
                 (lineto 0 50)
  = ([PlotterMove.mk MoveType.move 10 10 (Some 0)], false) /\
  parseSVGPath ([moveto 10 10] ++ lineto 0 50 :: [lineto 20 20]) 1
  = parseSVGPath ([moveto 10 10] ++ [lineto 20 20]) 1.
Proof.
  assert (Z : zero_coordinate (SVGCommand.x (lineto 0 50))).
  { exists 0. split; reflexivity. }
  split; [exact Z|].
  destruct (zero_coordinate_command_is_skipped 1 (lineto 0 50) (or_introl Z))
    as [H1 H2].
  split; [apply H1|apply H2].
Defined.

End ParserClaims.

(* ================================================================== *)
(** * Properties of the Path Executor *)
(* ================================================================== *)

Section ExecutorClaims.

Import Js Types PathExecutor.
Local Open Scope float_scope.




Lemma clean_app l1 l2 : clean l1 -> clean l2 -> clean (l1 ++ l2).
Proof. intros H1 H2. apply Forall_app. now split. Qed.

Lemma stopped_app l1 l2 : clean l1 -> stopped l2 -> stopped (l1 ++ l2).
Proof.
  intros H1 (a & e & b & -> & Ha & He & Hb).
  exists (l1 ++ a), e, b. rewrite <- app_assoc.
  repeat split; try assumption. now apply clean_app.
Qed.

Lemma moves_done_app l1 l2 :
  moves_done (l1 ++ l2) = (moves_done l1 + moves_done l2)%nat.
Proof. unfold moves_done. now rewrite filter_app, length_app. Qed.



Ltac stop_at_failure :=
  first
    [ eexists [], _, []; repeat split;
      solve [reflexivity | repeat constructor]
    | eexists [], _, [_]; repeat split;
      solve [reflexivity | repeat constructor]
    | eexists [_], _, []; repeat split;
      solve [reflexivity | repeat constructor]
    | eexists [_; _], _, []; repeat split;
      solve [reflexivity | repeat constructor]
    | eexists [_], _, [_]; repeat split;
      solve [reflexivity | repeat constructor] ].

(** A call is logged with the plotter's answer and throws unless the
    answer is [Done]. *)
Lemma rotateByDegrees_run this p d s st :
  exists r,
    rotateByDegrees this p d s st
    = (match r with
       | Done => Ok tt
       | Failed error => Throw error
       | NoMotor => Throw [Lit "Motor "; Lit (Hub.name p);
                           Lit " not found or not properly initialized"]
       end,
       mkState (currentX st) (currentY st)
               (log st ++ [Rotated (mkCall p d s) r])).
Proof.
  exists (plotter this (log st) (mkCall p d s)).
  unfold rotateByDegrees, bind, get, record, ret, throw. simpl.
  destruct (plotter this (log st) (mkCall p d s)); reflexivity.
Qed.

Ltac run_rotation :=
  match goal with
  | |- context [rotateByDegrees ?t ?p ?d ?s ?st] =>
      let r := fresh "r" in
      let E := fresh "E" in
      destruct (rotateByDegrees_run t p d s st) as (r & E);
      rewrite E; clear E; destruct r; simpl
  end.

Ltac added_entries :=
  simpl; rewrite <- ?app_assoc; simpl;
  eexists; split; [reflexivity|]; simpl.

Lemma executeMove_adds this move st :
  adds (executeMove this move) st move_outcome.
Proof.
  unfold adds, executeMove, all2, bind, get, ret, setPosition.
  destruct (PlotterMove.z move) as [z|]; simpl.
  - run_rotation; [|added_entries; stop_at_failure..].
    run_rotation; run_rotation; added_entries; try stop_at_failure.
    split; [repeat constructor|reflexivity].
  - run_rotation; run_rotation; added_entries; try stop_at_failure.
    split; [repeat constructor|reflexivity].
Qed.


(** Sequencing: what [m ;; k] adds is what [m] adds followed by what
    [k] adds, and nothing of [k] when [m] throws. *)
Lemma adds_bind (m : M unit) (k : unit -> M unit) st
    (P Q R : result unit -> list Entry -> Prop) :
  adds m st P ->
  (forall st1, adds (k tt) st1 Q) ->
  (forall a1 a2 r, P (Ok tt) a1 -> Q r a2 -> R r (a1 ++ a2)) ->
  (forall e a1, P (Throw e) a1 -> R (Throw e) a1) ->
  adds (bind m k) st R.
Proof.
  intros (a1 & L1 & O1) Hk Hok Hthrow. unfold adds, bind.
  destruct (m st) as [[[]|e] st1]; simpl in L1, O1.
  - destruct (Hk st1) as (a2 & L2 & O2).
    exists (a1 ++ a2). split; [now rewrite L2, L1, app_assoc|].
    now apply Hok.
  - exists a1. split; [assumption|]. now apply Hthrow.
Qed.


Lemma executeMoves_adds this onProgress total moves :
  simulationMode this = false ->
  forall i st,
    adds (executeMoves this onProgress total i moves) st
         (moves_outcome (length moves)).
Proof.
  intros Hsim. induction moves as [|move rest IH]; intros i st.
  - exists []. simpl. rewrite app_nil_r. repeat split. constructor.
  - simpl executeMoves. rewrite Hsim.
    apply adds_bind
      with (P := move_outcome) (Q := moves_outcome (length rest)).
    + apply executeMove_adds.
    + intros st1.
      apply adds_bind
        with (P := progress_outcome) (Q := moves_outcome (length rest)).
      * destruct onProgress.
        -- eexists [_]. repeat split. repeat constructor.
        -- exists []. simpl. rewrite app_nil_r. repeat split. constructor.
      * intros st2. apply IH.
      * intros a1 a2 r (_ & C1 & N1) O2. destruct r; simpl in *.
        -- destruct O2 as [C2 N2]. split; [now apply clean_app|].
           now rewrite moves_done_app, N1, N2.
        -- now apply stopped_app.
      * intros e a1 (H & _). discriminate.
    + intros a1 a2 r [C1 N1] O2. destruct r; simpl in *.
      * destruct O2 as [C2 N2]. split; [now apply clean_app|].
        now rewrite moves_done_app, N1, N2.
      * now apply stopped_app.
    + intros e a1 H. exact H.
Qed.





(** C4.  The pen-up command of [executeSequence] stands after the loop
    inside the [try] block, and the [catch] block only logs and
    rethrows.  A stroke to (30,0) with the pen down, on a plotter whose
    motor at port B fails: the pen is lowered, the move fails,
    [executeSequence] rethrows the motor's error, and the pen axis was
    never commanded to its rest position: the pen stays down. *)
Theorem executeSequence_failed_move_leaves_pen_down :
  let (r, st) := executeSequence stalling_executor one_stroke true initial in
  r = Throw (lit "motor stalled") /\
  log st = [ Rotated (mkCall Hub.C (-45) 30) Done;
             Rotated (mkCall Hub.B 300 300) (Failed (lit "motor stalled"));
             Rotated (mkCall Hub.A 0 0) Done ] /\
  existsb is_pen_up (log st) = false.
Proof. vm_compute. repeat split. Qed.

(** What [executeSequence] does command, outside simulation mode.  When
    validation passes and every move is carried out, the last thing it
    does before it returns is to command the pen axis (port C) to 0 at
    speed 30, after the calls of all the moves.  When it rethrows,
    either validation failed and nothing was commanded, or a call
    failed, and after the failed call nothing was commanded any more
    (but the port A rotation made together with a failed port B
    rotation). *)
Lemma executeSequence_pen_up_after_last_move :
  forall this sequence onProgress st,
    simulationMode this = false ->
    exists added,
      log (snd (executeSequence this sequence onProgress st))
      = log st ++ added /\
      match fst (executeSequence this sequence onProgress st) with
      | Ok _ =>
          exists l,
            added = l ++ [Rotated (mkCall Hub.C 0 30) Done] /\
            clean l /\
            moves_done l
            = length (PathProcessor.optimizePlotterMoves
                        sequence.(PlotterSequence.moves) false)
      | Throw _ => added = [] \/ stopped added
      end.
Proof.
  intros this sequence onProgress st Hsim. unfold executeSequence.
  destruct (negb _).
  - exists []. simpl. rewrite app_nil_r. split; [reflexivity|now left].
  - rewrite Hsim. simpl negb. cbv iota.
    set (moves := PathProcessor.optimizePlotterMoves _ false).
    apply adds_bind
      with (P := moves_outcome (length moves))
           (Q := fun r a =>
                   match r with
                   | Ok _ => a = [Rotated (mkCall Hub.C 0 30) Done]
                   | Throw _ => stopped a
                   end)
           (R := fun r added =>
                   match r with
                   | Ok _ =>
                       exists l,
                         added = l ++ [Rotated (mkCall Hub.C 0 30) Done] /\
                         clean l /\ moves_done l = length moves
                   | Throw _ => added = [] \/ stopped added
                   end).
    + now apply executeMoves_adds.
    + intros st1. unfold adds.
      destruct (rotateByDegrees_run this Hub.C 0 30 st1) as (r & ->).
      destruct r; added_entries; try reflexivity; stop_at_failure.
    + intros a1 a2 r [C1 N1] O2. destruct r.
      * subst a2. exists a1. repeat split; assumption.
      * right. now apply stopped_app.
    + intros e a1 H. now right.
Qed.

Lemma executeSequence_pen_up_after_last_move_witness :
  exists added,
    log (snd (executeSequence
                (PathExecutor.new (fun _ _ => Done) (mkSettings 10 10 148 210)
                   false 50 30
                   (Some (MovementValidator.mk open_bounds
                            (SimpleCalibration.mk 10 10) false)))
                one_stroke true initial))
    = [] ++ added /\
    exists l,
      added = l ++ [Rotated (mkCall Hub.C 0 30) Done] /\
      clean l /\ moves_done l = 1%nat.
Proof.
  exact (executeSequence_pen_up_after_last_move
           (PathExecutor.new (fun _ _ => Done) (mkSettings 10 10 148 210)
              false 50 30
              (Some (MovementValidator.mk open_bounds
                       (SimpleCalibration.mk 10 10) false)))
           one_stroke true initial eq_refl).
Defined.

End ExecutorClaims.

(* ================================================================== *)
(** * Properties of the Safety Controller *)
(* ================================================================== *)

Section SafetyInvariant.

Import Js SafetyController.

Lemma length_violation_settle_brake i p l :
  length (filter (fun x => is_violation (caller x)) (settle_brake i p l))
  = length (filter (fun x => is_violation (caller x)) l).
Proof.
  induction l as [|x l IH]; [reflexivity|]. simpl.
  destruct (ident x =? i)%nat; simpl.
  - destruct (is_violation (caller x)); reflexivity.
  - destruct (is_violation (caller x)); simpl; now rewrite IH.
Qed.

Lemma length_violation_returned i l x :
  find (fun y => (ident y =? i)%nat) l = Some x ->
  (length (filter (fun y => is_violation (caller y))
                  (filter (fun y => negb (ident y =? i)%nat) l))
   + (if is_violation (caller x) then 1 else 0)
   <= length (filter (fun y => is_violation (caller y)) l))%nat.
Proof.
  induction l as [|y l IH]; [discriminate|]. simpl.
  destruct (ident y =? i)%nat eqn:E; simpl.
  - intros [= ->].
    assert (H : (length (filter (fun y => is_violation (caller y))
                           (filter (fun y => negb (ident y =? i)%nat) l))
                 <= length (filter (fun y => is_violation (caller y)) l))%nat).
    { clear. induction l as [|z l IH]; [reflexivity|]. simpl.
      destruct (negb (ident z =? i)%nat); simpl;
        destruct (is_violation (caller z)); simpl; lia. }
    destruct (is_violation (caller x)); simpl; lia.
  - intros F. specialize (IH F).
    destruct (is_violation (caller y)); simpl; lia.
Qed.

Lemma length_remove_due d l :
  existsb (Z.eqb d) l = true -> S (length (remove_due d l)) = length l.
Proof.
  induction l as [|x l IH]; [discriminate|]. simpl.
  rewrite (Z.eqb_sym d x). destruct (x =? d)%Z; simpl; [reflexivity|].
  intros H. now rewrite IH.
Qed.

Lemma Guarded_observe l s : Guarded s -> Guarded (observe l s).
Proof. exact (fun H => H). Qed.

Lemma Guarded_stopMonitoring s : Guarded s -> Guarded (stopMonitoring s).
Proof. unfold stopMonitoring. now destruct (monitoringInterval s). Qed.

Lemma Guarded_emergencyStop_outside s :
  Guarded s -> Guarded (emergencyStop Outside s).
Proof.
  unfold Guarded, emergencyStop, violation_stopping, stopMonitoring.
  destruct (monitoringInterval s); simpl;
    rewrite filter_app, length_app; simpl; lia.
Qed.

Lemma Guarded_handleViolation port reason value s :
  Guarded s -> Guarded (handleViolation port reason value s).
Proof.
  unfold handleViolation. simpl. intros G.
  destruct (stopRequested s) eqn:E; simpl; [exact G|].
  unfold Guarded in *. rewrite E in G.
  unfold emergencyStop, violation_stopping, stopMonitoring in *.
  destruct (monitoringInterval s); simpl in *;
    rewrite filter_app, length_app; simpl; lia.
Qed.

Lemma Guarded_checkLimits port status s :
  Guarded s -> Guarded (checkLimits port status s).
Proof.
  intros G. unfold checkLimits. cbv zeta.
  repeat match goal with
         | |- Guarded (if ?c then _ else _) => destruct c
         | |- Guarded (handleViolation _ _ _ _) =>
             apply Guarded_handleViolation
         end; assumption.
Qed.

Lemma Guarded_step s e s' : Guarded s -> step s e = Some s' -> Guarded s'.
Proof.
  intros G St. destruct e; simpl in St.
  - injection St as <-. unfold startMonitoring.
    now destruct (monitoringInterval s).
  - injection St as <-. now apply Guarded_stopMonitoring.
  - destruct (monitoringInterval s) eqn:E; [|discriminate].
    injection St as <-. unfold stopMonitoring. now rewrite E.
  - injection St as <-. now apply Guarded_checkLimits.
  - injection St as <-. exact G.
  - injection St as <-. now apply Guarded_emergencyStop_outside.
  - destruct (find_stop i s) as [x|]; [|discriminate].
    destruct (has_port port (braking x)); [|discriminate].
    injection St as <-.
    assert (G1 : Guarded
                   (mkState (limits s) (stopRequested s) (monitoringInterval s)
                      (attached s) (now s) (stops s)
                      (settle_brake i port (stopping s)) (timers s) (log s))).
    { unfold Guarded, violation_stopping in *. simpl.
      now rewrite length_violation_settle_brake. }
    now destruct failure.
  - destruct (find_stop i s) as [x|] eqn:F; [|discriminate].
    destruct (braking x); [|discriminate]. injection St as <-.
    unfold Guarded, violation_stopping in *. simpl.
    pose proof (length_violation_returned i (stopping s) F) as L.
    destruct (is_violation (caller x)); simpl;
      rewrite ?length_app; simpl; lia.
  - destruct (existsb (Z.eqb due) (timers s)) eqn:E; [|discriminate].
    destruct (due <=? now s)%Z; [|discriminate]. injection St as <-.
    unfold Guarded, violation_stopping in *. simpl.
    apply length_remove_due in E.
    destruct (stopRequested s); lia.
  - injection St as <-. unfold updateLimits. cbn [negb].
    destruct (port_named port); exact G.
  - injection St as <-. exact G.
  - destruct (0 <=? dt)%Z; [|discriminate]. injection St as <-. exact G.
Qed.

Lemma Guarded_run tr : forall s s',
  Guarded s -> run s tr = Some s' -> Guarded s'.
Proof.
  induction tr as [|e tr IH]; intros s s' G R; simpl in R.
  - now injection R as <-.
  - destruct (step s e) as [s1|] eqn:St; [|discriminate].
    apply (IH s1); [|assumption]. eapply Guarded_step; eassumption.
Qed.

Lemma Guarded_new hub t0 : Guarded (new hub t0).
Proof. unfold Guarded, new, violation_stopping. simpl. lia. Qed.

End SafetyInvariant.

Section SafetyCoolDown.

Import Js SafetyController.
Local Open Scope float_scope.


Lemma Quiet_refl s : Quiet s s.
Proof. repeat split. Qed.

Lemma Quiet_trans s1 s2 s3 : Quiet s1 s2 -> Quiet s2 s3 -> Quiet s1 s3.
Proof.
  intros (A1 & A2 & A3 & A4 & A5) (B1 & B2 & B3 & B4 & B5).
  repeat split; congruence.
Qed.

Lemma violation_stops_app l1 l2 :
  violation_stops (l1 ++ l2) = (violation_stops l1 + violation_stops l2)%nat.
Proof. unfold violation_stops. now rewrite filter_app, length_app. Qed.

(** While the flag is set, a violation is reported and nothing else. *)
Lemma handleViolation_suppressed port reason value s :
  stopRequested s = true -> Quiet s (handleViolation port reason value s).
Proof.
  intros H. unfold handleViolation. simpl. rewrite H. simpl.
  repeat split; simpl; try assumption.
  rewrite !violation_stops_app. unfold violation_stops. simpl. lia.
Qed.

Lemma checkLimits_suppressed port status s :
  stopRequested s = true -> Quiet s (checkLimits port status s).
Proof.
  intros H. unfold checkLimits. cbv zeta.
  assert (K : forall (c : bool) reason value s',
             Quiet s s' ->
             Quiet s (if c then handleViolation port reason value s' else s')).
  { intros c reason value s' Q. destruct c; [|exact Q].
    eapply Quiet_trans; [exact Q|]. apply handleViolation_suppressed.
    destruct Q as (Q1 & _). congruence. }
  repeat apply K. apply Quiet_refl.
Qed.

Lemma violation_stops_brakes l : violation_stops (map Brake l) = 0%nat.
Proof. induction l; [reflexivity|assumption]. Qed.

(** The synchronous part of [emergencyStop]: the call and the brake
    calls are logged; flag, clock and timers are untouched. *)
Lemma emergencyStop_fields who s :
  stopRequested (emergencyStop who s) = stopRequested s /\
  timers (emergencyStop who s) = timers s /\
  log (emergencyStop who s)
  = log s ++ EmergencyStop who :: map Brake (filter (attached s) Hub.ports).
Proof.
  unfold emergencyStop, stopMonitoring, observe.
  destruct (monitoringInterval s);
    cbn [log stopRequested timers attached];
    rewrite <- app_assoc; repeat split.
Qed.

Lemma now_emergencyStop who s : now (emergencyStop who s) = now s.
Proof. unfold emergencyStop, stopMonitoring. now destruct (monitoringInterval s). Qed.

Lemma now_handleViolation port reason value s :
  now (handleViolation port reason value s) = now s.
Proof.
  unfold handleViolation, emergencyStop, stopMonitoring. simpl.
  destruct (stopRequested s); simpl; [reflexivity|].
  destruct (monitoringInterval s); reflexivity.
Qed.

Lemma now_checkLimits port status s : now (checkLimits port status s) = now s.
Proof.
  unfold checkLimits. cbv zeta.
  repeat match goal with
         | |- now (if ?c then _ else _) = _ => destruct c
         | |- now (handleViolation _ _ _ _) = _ => rewrite now_handleViolation
         end; reflexivity.
Qed.

(** Time does not run backwards. *)
Lemma step_now s e s' : step s e = Some s' -> (now s <= now s')%Z.
Proof.
  intros St. destruct e; simpl in St.
  - injection St as <-. unfold startMonitoring.
    destruct (monitoringInterval s); simpl; lia.
  - injection St as <-. unfold stopMonitoring.
    destruct (monitoringInterval s); simpl; lia.
  - destruct (monitoringInterval s) eqn:E; [|discriminate].
    injection St as <-. unfold stopMonitoring. rewrite E. simpl. lia.
  - injection St as <-. rewrite now_checkLimits. lia.
  - injection St as <-. simpl. lia.
  - injection St as <-. rewrite now_emergencyStop. lia.
  - destruct (find_stop i s) as [x|]; [|discriminate].
    destruct (has_port port (braking x)); [|discriminate].
    injection St as <-. destruct failure; simpl; lia.
  - destruct (find_stop i s) as [x|]; [|discriminate].
    destruct (braking x); [|discriminate]. injection St as <-. simpl. lia.
  - destruct (existsb _ _ && _); [|discriminate]. injection St as <-. simpl. lia.
  - injection St as <-. unfold updateLimits. cbn [negb].
    destruct (port_named port); simpl; lia.
  - injection St as <-. simpl. lia.
  - destruct (0 <=? dt)%Z eqn:E; [|discriminate]. injection St as <-.
    apply Z.leb_le in E. simpl. lia.
Qed.

Lemma run_now tr : forall s s', run s tr = Some s' -> (now s <= now s')%Z.
Proof.
  induction tr as [|e tr IH]; intros s s' R; simpl in R.
  - injection R as <-. lia.
  - destruct (step s e) as [s1|] eqn:St; [|discriminate].
    apply step_now in St. apply IH in R. lia.
Qed.

(** During the cool-down no event makes a violation stop the motors
    again, and the cool-down lasts at least until [t + 1000]. *)
Lemma Cooling_step t s e s' :
  Cooling t s -> step s e = Some s' -> (now s' < t + 1000)%Z ->
  Cooling t s' /\ violation_stops (log s') = violation_stops (log s).
Proof.
  intros (Hreq & Hnow & Htim) St Hlt.
  pose proof (step_now s e St) as Hmono.
  destruct e; simpl in St.
  - injection St as <-. unfold startMonitoring, Cooling.
    destruct (monitoringInterval s); simpl; repeat split; assumption.
  - injection St as <-. unfold stopMonitoring, Cooling.
    destruct (monitoringInterval s); simpl; repeat split; assumption.
  - destruct (monitoringInterval s) eqn:E; [|discriminate].
    injection St as <-. unfold stopMonitoring, Cooling. rewrite E. simpl.
    rewrite violation_stops_app. unfold violation_stops. simpl.
    repeat split; try assumption. lia.
  - injection St as <-.
    destruct (checkLimits_suppressed port status s Hreq)
      as (Q1 & Q2 & Q3 & _ & Q5).
    unfold Cooling. rewrite Q1, Q2, Q3. repeat split; assumption.
  - injection St as <-. unfold Cooling. simpl.
    rewrite violation_stops_app. unfold violation_stops. simpl.
    repeat split; try assumption. lia.
  - injection St as <-.
    destruct (emergencyStop_fields Outside s) as (F1 & F2 & F3).
    unfold Cooling. rewrite F1, F2, F3, now_emergencyStop.
    repeat split; try assumption.
    change (EmergencyStop Outside :: map Brake (filter (attached s) Hub.ports))
      with ([EmergencyStop Outside] ++ map Brake (filter (attached s) Hub.ports)).
    rewrite !violation_stops_app, violation_stops_brakes.
    unfold violation_stops at 2. simpl. lia.
  - destruct (find_stop i s) as [x|]; [|discriminate].
    destruct (has_port port (braking x)); [|discriminate].
    injection St as <-. unfold Cooling.
    destruct failure; simpl; rewrite ?violation_stops_app;
      unfold violation_stops; simpl; repeat split; try assumption; lia.
  - destruct (find_stop i s) as [x|]; [|discriminate].
    destruct (braking x); [|discriminate]. injection St as <-.
    unfold Cooling. simpl. rewrite violation_stops_app.
    unfold violation_stops. simpl.
    repeat split; try assumption; try lia.
    destruct (is_violation (caller x)); [|assumption].
    apply Forall_app. split; [assumption|]. constructor; [lia|constructor].
  - destruct (existsb (Z.eqb due) (timers s)) eqn:E; [|discriminate].
    destruct (due <=? now s)%Z eqn:D; [|discriminate]. exfalso.
    apply existsb_exists in E. destruct E as (d & Hin & Heq).
    apply Z.eqb_eq in Heq. subst d. apply Z.leb_le in D.
    rewrite Forall_forall in Htim. specialize (Htim due Hin). lia.
  - injection St as <-. unfold updateLimits, Cooling. cbn [negb].
    destruct (port_named port); simpl; rewrite violation_stops_app;
      unfold violation_stops; simpl; repeat split; try assumption; lia.
  - injection St as <-. unfold Cooling. simpl. repeat split; assumption.
  - destruct (0 <=? dt)%Z eqn:E; [|discriminate]. injection St as <-.
    apply Z.leb_le in E. unfold Cooling. simpl.
    repeat split; try assumption. lia.
Qed.

Lemma Cooling_run t tr : forall s s',
  Cooling t s -> run s tr = Some s' -> (now s' < t + 1000)%Z ->
  violation_stops (log s') = violation_stops (log s).
Proof.
  induction tr as [|e tr IH]; intros s s' C R Hlt; simpl in R.
  - now injection R as <-.
  - destruct (step s e) as [s1|] eqn:St; [|discriminate].
    pose proof (run_now tr s1 R) as Hmono.
    destruct (Cooling_step e C St) as [C1 V1]; [lia|].
    rewrite <- V1. now apply (IH s1).
Qed.

End SafetyCoolDown.

Section SafetyClaims.

Import Js SafetyController.
Local Open Scope float_scope.

(** With the flag clear, a violation is reported, sets the flag and
    starts an emergency stop: [brake()] is called on every attached
    motor before anything else can run. *)
Lemma handleViolation_triggers port reason value s :
  stopRequested s = false ->
  stopRequested (handleViolation port reason value s) = true /\
  timers (handleViolation port reason value s) = timers s /\
  log (handleViolation port reason value s)
  = log s ++
    [HandleViolation port reason value;
     Notified [Lit "Safety violation on motor "; Lit (Hub.name port);
               Lit ": "; Lit reason; Lit " ("; Num value; Lit ")"] error;
     EmergencyStop Violation]
    ++ map Brake (filter (attached s) Hub.ports).
Proof.
  intros H. unfold handleViolation, notifyViolation, observe.
  cbn [stopRequested limits monitoringInterval attached now stops stopping
       timers log].
  rewrite H. cbn [negb].
  match goal with
  | |- context [emergencyStop Violation ?s1] =>
      destruct (emergencyStop_fields Violation s1) as (F1 & F2 & F3)
  end.
  rewrite F1, F2, F3. cbn [stopRequested timers log attached].
  rewrite <- !app_assoc. repeat split.
Qed.


(** C9.  In a state the controller can reach in which no stop is
    requested, a tick that reads temperature 55 on axis A against the
    limit 50, all other fields being within their limits, calls
    [handleViolation] once and starts one emergency stop, which brakes
    every attached motor.  Whatever happens next, as long as less than
    1000 ms have passed no further violation starts another emergency
    stop: further violations are reported only. *)
Theorem temperature_violation_stops_once :
  forall hub t0 tr0 s0 status,
    run (new hub t0) tr0 = Some s0 ->
    stopRequested s0 = false ->
    maxTemperature (limits s0 Hub.A) = 50 ->
    temperature status = 55 ->
    others_within (limits s0 Hub.A) status ->
    let s1 := checkLimits Hub.A status s0 in
    log s1
    = log s0 ++
      [HandleViolation Hub.A "Temperature too high" 55;
       Notified [Lit "Safety violation on motor "; Lit "A"; Lit ": ";
                 Lit "Temperature too high"; Lit " ("; Num 55; Lit ")"] error;
       EmergencyStop Violation]
      ++ map Brake (filter (attached s0) Hub.ports) /\
    forall tr s2,
      run s1 tr = Some s2 ->
      (now s2 < now s1 + 1000)%Z ->
      violation_stops (log s2) = S (violation_stops (log s0)).
Proof.
  intros hub t0 tr0 s0 status R0 Hreq Hmax Htemp (H1 & H2 & H3 & H4 & H5) s1.
  assert (E : s1 = handleViolation Hub.A "Temperature too high" 55 s0).
  { unfold s1, checkLimits. cbv zeta.
    rewrite H1. cbv iota. rewrite H2. cbv iota. rewrite H3. cbv iota.
    rewrite H4. cbv iota. rewrite Hmax, Htemp.
    replace (50 <? 55) with true by reflexivity. cbv iota.
    rewrite H5. reflexivity. }
  destruct (handleViolation_triggers Hub.A "Temperature too high" 55 s0 Hreq)
    as (T1 & T2 & T3).
  rewrite <- E in T1, T2, T3. split; [exact T3|].
  intros tr s2 R Hlt.
  assert (G : Guarded s0) by (eapply Guarded_run; [apply Guarded_new|exact R0]).
  unfold Guarded in G. rewrite Hreq in G.
  assert (Ht : timers s0 = []) by (destruct (timers s0); [reflexivity|simpl in G; lia]).
  assert (C : Cooling (now s1) s1).
  { unfold Cooling. rewrite T1, T2, Ht. repeat split; [lia|constructor]. }
  rewrite (Cooling_run tr C R Hlt), T3, !violation_stops_app, violation_stops_brakes.
  unfold violation_stops at 2. simpl. lia.
Qed.


Lemma temperature_violation_stops_once_witness :
  exists s0 s2,
    run (new (fun _ => true) 0) [StartMonitoring] = Some s0 /\
    run (checkLimits Hub.A overheated s0) overheating_run = Some s2 /\
    log (checkLimits Hub.A overheated s0)
    = [HandleViolation Hub.A "Temperature too high" 55;
       Notified [Lit "Safety violation on motor "; Lit "A"; Lit ": ";
                 Lit "Temperature too high"; Lit " ("; Num 55; Lit ")"] error;
       EmergencyStop Violation; Brake Hub.A; Brake Hub.B; Brake Hub.C] /\
    violation_stops (log s2) = 1%nat /\
    length (filter is_handleViolation (log s2)) = 2%nat.
Proof.
  pose (s0 := startMonitoring (new (fun _ => true) 0)).
  assert (R0 : run (new (fun _ => true) 0) [StartMonitoring] = Some s0)
    by reflexivity.
  assert (W : others_within (limits s0 Hub.A) overheated)
    by (repeat split).
  destruct (@temperature_violation_stops_once (fun _ => true) 0
              [StartMonitoring] s0 overheated R0 eq_refl eq_refl eq_refl W)
    as [L K].
  assert (N1 : option_map now
                 (run (checkLimits Hub.A overheated s0) overheating_run)
               = Some 999%Z) by (vm_compute; reflexivity).
  assert (N2 : option_map
                 (fun s => length (filter is_handleViolation (log s)))
                 (run (checkLimits Hub.A overheated s0) overheating_run)
               = Some 2%nat) by (vm_compute; reflexivity).
  destruct (run (checkLimits Hub.A overheated s0) overheating_run)
    as [s2|] eqn:R; [|discriminate].
  injection N1 as N1. injection N2 as N2.
  exists s0, s2. split; [exact R0|]. split; [exact R|].
  split; [exact L|]. split; [|exact N2].
  apply (K overheating_run s2 R). rewrite N1. vm_compute. reflexivity.
Defined.

End SafetyClaims.

(* ================================================================== *)
(** * The emergency stop and the queue *)
(* ================================================================== *)

Section EmergencyStopClaims.

Import Page.

(** C2.  The emergency stop of the Safety Controller brakes every
    attached axis but leaves the Command Queue alone: no event of the
    controller changes the queue.  With one operation in flight and two
    pending, after the stop has returned (all three brakes called, none
    pending any more) two operations are still pending, and when the
    operation in flight completes the drain loop starts the next one.
    The emergency stop of the page, by contrast, empties the queue. *)
Theorem safety_emergencyStop_leaves_queue_pending :
  (forall p e p',
      step p (Safety e) = Some p' -> commandQueue p' = commandQueue p) /\
  option_map (fun p => CommandQueue.pendingCommands (commandQueue p))
             (run (initial (fun _ => true) 0) three_submitted)
  = Some 2 /\
  option_map (fun p => SafetyController.log (safetyController p))
             (run (initial (fun _ => true) 0) (three_submitted ++ safety_stop))
  = Some [ SafetyController.EmergencyStop SafetyController.Outside;
           SafetyController.Brake Hub.A; SafetyController.Brake Hub.B;
           SafetyController.Brake Hub.C;
           SafetyController.Notified (Js.lit "Emergency stop activated")
                                     SafetyController.info ] /\
  option_map (fun p => SafetyController.stopping (safetyController p))
             (run (initial (fun _ => true) 0) (three_submitted ++ safety_stop))
  = Some [] /\
  option_map (fun p => CommandQueue.pendingCommands (commandQueue p))
             (run (initial (fun _ => true) 0) (three_submitted ++ safety_stop))
  = Some 2 /\
  option_map (fun p => CommandQueue.log (commandQueue p))
             (run (initial (fun _ => true) 0)
                  (three_submitted ++ safety_stop ++ first_completes))
  = Some [ CommandQueue.Started 0;
           CommandQueue.Settled 0 CommandQueue.Fulfilled;
           CommandQueue.Started 1 ] /\
  (forall p, CommandQueue.pendingCommands (commandQueue (emergencyStop p)) = 0).
Proof.
  split.
  - intros p e p' St. simpl in St.
    destruct (SafetyController.step (safetyController p) e); [|discriminate].
    now injection St as <-.
  - repeat split; vm_compute; reflexivity.
Qed.

End EmergencyStopClaims.

(* ================================================================== *)
(** * More about the Command Queue *)
(* ================================================================== *)

Section QueueNumbering.

Import CommandQueue.

Lemma NoDup_snoc (A : Type) (l : list A) (x : A) :
  NoDup l -> ~ In x l -> NoDup (l ++ [x]).
Proof.
  intros Hl Hx. induction Hl as [|y l Hy Hl IH]; simpl.
  - constructor; [intros []|constructor].
  - constructor.
    + intros Hin. apply in_app_or in Hin. destruct Hin as [Hin|[->|[]]].
      * contradiction.
      * apply Hx. now left.
    + apply IH. intros Hin. apply Hx. now right.
Qed.

Lemma filter_keeps_NoDup (A B : Type) (key : A -> B) (keep : A -> bool) :
  forall l, NoDup (map key l) -> NoDup (map key (filter keep l)).
Proof.
  intros l. induction l as [|a l IH]; simpl; intros H; [constructor|].
  inversion H as [|? ? Hn Hl]; subst.
  destruct (keep a); simpl; [|now apply IH].
  constructor; [|now apply IH].
  intros Hin. apply Hn. apply in_map_iff in Hin.
  destruct Hin as (a' & E & Hin). apply filter_In in Hin.
  apply in_map_iff. exists a'. tauto.
Qed.

Lemma outcome_unsettled h l : ~ In h (settles l) -> outcome h l = None.
Proof.
  induction l as [|[h'|h' o] l IH]; simpl; intros H; try tauto.
  destruct (Nat.eqb_spec h' h); [subst; tauto|tauto].
Qed.

Lemma outcome_first h o l l' :
  ~ In h (settles l) -> outcome h (l ++ Settled h o :: l') = Some o.
Proof.
  induction l as [|[h'|h' o'] l IH]; simpl; intros H.
  - now rewrite Nat.eqb_refl.
  - now apply IH.
  - destruct (Nat.eqb_spec h' h); [subst; tauto|]. apply IH. tauto.
Qed.

Lemma Numbered_fresh t0 : Numbered (fresh t0).
Proof. unfold Numbered, fresh. simpl. repeat split; constructor. Qed.

Lemma Numbered_processQueue s : Numbered s -> Numbered (processQueue s).
Proof.
  intros N. unfold processQueue.
  destruct (executing s || (length (queue s) =? 0)%nat); [exact N|].
  destruct (queue s) as [|c rest] eqn:E; [exact N|].
  destruct N as (Hq & Hnd & Hns & Hst & Hrun & Hset).
  rewrite E in *. simpl in Hnd.
  inversion Hq as [|? ? Hc Hq']; subst.
  inversion Hnd as [|? ? Hnotin Hnd']; subst.
  inversion Hns as [|? ? Hcs Hns']; subst.
  unfold Numbered, execute. simpl. rewrite starts_app, settles_app. simpl.
  rewrite app_nil_r.
  split; [assumption|]. split; [assumption|]. split; [|split; [|split]].
  - rewrite Forall_forall in *. intros c' Hin Hs.
    apply in_app_or in Hs. destruct Hs as [Hs|[Hs|[]]].
    + now apply (Hns' c').
    + apply Hnotin. rewrite Hs. now apply in_map.
  - apply Forall_app. split; [assumption|]. now constructor.
  - apply Forall_app. split.
    + eapply Forall_impl; [|exact Hrun]. intros r Hr.
      apply in_or_app. now left.
    + constructor; [|constructor]. simpl. apply in_or_app. right. now left.
  - eapply Forall_impl; [|exact Hset]. intros h Hh. apply in_or_app. now left.
Qed.

Lemma Numbered_settle h o s :
  existsb (is_op h) (running s) = true -> Numbered s -> Numbered (settle h o s).
Proof.
  intros En (Hq & Hnd & Hns & Hst & Hrun & Hset).
  unfold Numbered, settle. simpl. rewrite starts_app, settles_app. simpl.
  rewrite app_nil_r.
  repeat split; try assumption.
  - rewrite Forall_forall in *. intros r Hin. apply filter_In in Hin.
    now apply Hrun.
  - apply Forall_app. split; [assumption|]. constructor; [|constructor].
    apply existsb_exists in En. destruct En as (r & Hin & Hr).
    unfold is_op in Hr. apply Nat.eqb_eq in Hr. subst h.
    rewrite Forall_forall in Hrun. now apply Hrun.
Qed.

Lemma timeout_is_in_flight h s :
  existsb (fun r => is_op h r && due s r) (running s) = true ->
  existsb (is_op h) (running s) = true.
Proof.
  intros En. apply existsb_exists in En. destruct En as (r & Hin & Hr).
  apply andb_true_iff in Hr. apply existsb_exists. exists r. tauto.
Qed.

Lemma Numbered_push c s :
  Numbered s ->
  Numbered (mkState (queue s ++ [mkCommand (now s) (submitted s) c])
                    (executing s) (currentCommand s) (now s) (S (submitted s))
                    (running s) (resuming s) (log s)).
Proof.
  intros (Hq & Hnd & Hns & Hst & Hrun & Hset).
  unfold Numbered. simpl. rewrite map_app. simpl.
  split; [|split; [|split; [|split; [|split]]]]; try assumption.
  - apply Forall_app. split.
    + eapply Forall_impl; [|exact Hq]. simpl. intros; lia.
    + constructor; [simpl; lia|constructor].
  - apply NoDup_snoc; [assumption|].
    intros Hin. apply in_map_iff in Hin.
    destruct Hin as (c' & Hc' & Hin). rewrite Forall_forall in Hq.
    specialize (Hq c' Hin). lia.
  - apply Forall_app. split; [assumption|]. constructor; [|constructor].
    simpl. intros Hin. rewrite Forall_forall in Hst.
    specialize (Hst _ Hin). lia.
  - eapply Forall_impl; [|exact Hst]. simpl. intros; lia.
Qed.

Lemma Numbered_step s e s' : Numbered s -> step s e = Some s' -> Numbered s'.
Proof.
  intros N St. destruct e; simpl in St.
  - injection St as <-. now apply Numbered_processQueue, Numbered_push.
  - injection St as <-. now apply Numbered_processQueue.
  - injection St as <-. destruct N as (Hq & Hnd & Hns & Hst & Hrun & Hset).
    unfold Numbered, clear. simpl. repeat split; try assumption; constructor.
  - destruct (existsb (is_op h) (running s)) eqn:En; [|discriminate].
    injection St as <-. now apply Numbered_settle.
  - destruct (existsb _ (running s)) eqn:En; [|discriminate].
    injection St as <-. apply Numbered_settle; [|assumption].
    now apply timeout_is_in_flight.
  - destruct (existsb (Nat.eqb h) (resuming s)); [|discriminate].
    injection St as <-. apply Numbered_processQueue. exact N.
  - destruct (0 <=? dt)%Z; [|discriminate]. injection St as <-. exact N.
Qed.

Lemma Numbered_run tr : forall s s',
  Numbered s -> run s tr = Some s' -> Numbered s'.
Proof.
  induction tr as [|e tr IH]; intros s s' N R; simpl in R.
  - now injection R as <-.
  - destruct (step s e) as [s1|] eqn:St; [|discriminate].
    apply (IH s1); [|assumption]. eapply Numbered_step; eassumption.
Qed.

Lemma Once_fresh t0 : Once (fresh t0).
Proof. unfold Once, fresh. simpl. repeat split; constructor. Qed.

Lemma Once_processQueue s : Numbered s -> Once s -> Once (processQueue s).
Proof.
  intros N O. unfold processQueue.
  destruct (executing s || (length (queue s) =? 0)%nat); [exact O|].
  destruct (queue s) as [|c rest] eqn:E; [exact O|].
  destruct N as (_ & _ & Hns & _ & Hrun & Hset).
  destruct O as (Hst & Hop & Hrs & Hse).
  rewrite E in Hns. inversion Hns as [|? ? Hcs _]; subst.
  rewrite Forall_forall in Hrun, Hset.
  unfold Once, execute. simpl. rewrite starts_app, settles_app, map_app. simpl.
  rewrite app_nil_r.
  split; [now apply NoDup_snoc|]. split; [|split; [|assumption]].
  - apply NoDup_snoc; [assumption|]. intros Hin. apply in_map_iff in Hin.
    destruct Hin as (r & Hr & Hin). apply Hcs. rewrite <- Hr. now apply Hrun.
  - apply Forall_app. split; [assumption|]. constructor; [|constructor].
    simpl. intros Hin. apply Hcs. now apply Hset.
Qed.

Lemma Once_settle h o s :
  existsb (is_op h) (running s) = true -> Once s -> Once (settle h o s).
Proof.
  intros En (Hst & Hop & Hrs & Hse).
  apply existsb_exists in En. destruct En as (r & Hin & Hr).
  unfold is_op in Hr. apply Nat.eqb_eq in Hr. subst h.
  rewrite Forall_forall in Hrs.
  unfold Once, settle. simpl. rewrite starts_app, settles_app. simpl.
  rewrite app_nil_r.
  split; [assumption|]. split; [now apply filter_keeps_NoDup|]. split.
  - apply Forall_forall. intros r' Hin'. apply filter_In in Hin'.
    destruct Hin' as [Hin' Hne]. intros H. apply in_app_or in H.
    destruct H as [H|[H|[]]]; [now apply (Hrs r')|].
    unfold is_op in Hne. rewrite H, Nat.eqb_refl in Hne. discriminate.
  - apply NoDup_snoc; [assumption|]. now apply Hrs.
Qed.

Lemma Once_step s e s' :
  Numbered s -> Once s -> step s e = Some s' -> Once s'.
Proof.
  intros N O St. destruct e; simpl in St.
  - injection St as <-.
    apply Once_processQueue; [now apply Numbered_push|exact O].
  - injection St as <-. now apply Once_processQueue.
  - injection St as <-. exact O.
  - destruct (existsb (is_op h) (running s)) eqn:En; [|discriminate].
    injection St as <-. now apply Once_settle.
  - destruct (existsb _ (running s)) eqn:En; [|discriminate].
    injection St as <-. apply Once_settle; [|assumption].
    now apply timeout_is_in_flight.
  - destruct (existsb (Nat.eqb h) (resuming s)); [|discriminate].
    injection St as <-. apply Once_processQueue; [exact N|exact O].
  - destruct (0 <=? dt)%Z; [|discriminate]. injection St as <-. exact O.
Qed.

Lemma Once_run tr : forall s s',
  Numbered s -> Once s -> run s tr = Some s' -> Once s'.
Proof.
  induction tr as [|e tr IH]; intros s s' N O R; simpl in R.
  - now injection R as <-.
  - destruct (step s e) as [s1|] eqn:St; [|discriminate].
    apply (IH s1); [| |assumption].
    + eapply Numbered_step; eassumption.
    + eapply Once_step; eassumption.
Qed.

Lemma Abandoned_processQueue h s :
  Abandoned h s -> Abandoned h (processQueue s).
Proof.
  intros A. unfold processQueue.
  destruct (executing s || (length (queue s) =? 0)%nat); [exact A|].
  destruct (queue s) as [|c rest] eqn:E; [exact A|].
  destruct A as (Hlt & Hq & Hs). rewrite E in Hq. simpl in Hq.
  unfold Abandoned, execute. simpl. rewrite starts_app. simpl.
  repeat split; [assumption|tauto|].
  intros Hin. apply in_app_or in Hin. destruct Hin as [Hin|[Hin|[]]]; tauto.
Qed.

Lemma Abandoned_step h s e s' :
  Abandoned h s -> step s e = Some s' -> Abandoned h s'.
Proof.
  intros A St. destruct e; simpl in St.
  - injection St as <-. apply Abandoned_processQueue.
    destruct A as (Hlt & Hq & Hs). unfold Abandoned. simpl.
    rewrite map_app. simpl. repeat split; [lia| |assumption].
    intros Hin. apply in_app_or in Hin. destruct Hin as [Hin|[Hin|[]]];
      [tauto|lia].
  - injection St as <-. now apply Abandoned_processQueue.
  - injection St as <-. destruct A as (Hlt & Hq & Hs).
    unfold Abandoned, clear. simpl. tauto.
  - destruct (existsb _ _); [|discriminate]. injection St as <-.
    destruct A as (Hlt & Hq & Hs). unfold Abandoned, settle. simpl.
    rewrite starts_app. simpl. rewrite app_nil_r. tauto.
  - destruct (existsb _ _); [|discriminate]. injection St as <-.
    destruct A as (Hlt & Hq & Hs). unfold Abandoned, settle. simpl.
    rewrite starts_app. simpl. rewrite app_nil_r. tauto.
  - destruct (existsb _ _); [|discriminate]. injection St as <-.
    apply Abandoned_processQueue. exact A.
  - destruct (0 <=? dt)%Z; [|discriminate]. injection St as <-. exact A.
Qed.

Lemma Abandoned_run h tr : forall s s',
  Abandoned h s -> run s tr = Some s' -> Abandoned h s'.
Proof.
  induction tr as [|e tr IH]; intros s s' A R; simpl in R.
  - now injection R as <-.
  - destruct (step s e) as [s1|] eqn:St; [|discriminate].
    apply (IH s1); [|assumption]. eapply Abandoned_step; eassumption.
Qed.

(** An operation that is still pending when [clear()] is called is
    dropped for good: whatever happens afterwards it is never started,
    and the handle that [add] returned for it never settles. *)
Theorem cleared_operation_is_abandoned :
  forall t0 tr0 s c tr s',
    run (fresh t0) tr0 = Some s ->
    In c (queue s) ->
    run (clear s) tr = Some s' ->
    ~ In (handle c) (starts (log s')) /\
    ~ In (handle c) (settles (log s')) /\
    outcome (handle c) (log s') = None.
Proof.
  intros t0 tr0 s c tr s' R0 Hin R.
  assert (N : Numbered s) by (eapply Numbered_run; [apply Numbered_fresh|exact R0]).
  assert (N' : Numbered s').
  { eapply Numbered_run; [|exact R].
    exact (@Numbered_step s Clear (clear s) N eq_refl). }
  assert (A : Abandoned (handle c) (clear s)).
  { destruct N as (Hq & _ & Hns & _). rewrite Forall_forall in Hq, Hns.
    unfold Abandoned, clear. simpl. repeat split; [now apply Hq|tauto|].
    now apply Hns. }
  apply (Abandoned_run tr A) in R. destruct R as (_ & _ & Hs).
  assert (Hse : ~ In (handle c) (settles (log s'))).
  { destruct N' as (_ & _ & _ & _ & _ & Hset). rewrite Forall_forall in Hset.
    intros H. apply Hs. now apply Hset. }
  split; [exact Hs|]. split; [exact Hse|]. now apply outcome_unsettled.
Qed.

Lemma cleared_operation_is_abandoned_witness :
  exists s',
    run (fresh 0) [Add TestInterface.bare_operation;
                   Add TestInterface.bare_operation] = Some two_submitted /\
    In (mkCommand 0 1 TestInterface.bare_operation) (queue two_submitted) /\
    run (clear two_submitted)
        [Settle 0 Fulfilled; Resume 0; Add TestInterface.bare_operation]
    = Some s' /\
    log s' = [Started 0; Settled 0 Fulfilled; Started 2] /\
    outcome 1 (log s') = None.
Proof.
  assert (R0 : run (fresh 0) [Add TestInterface.bare_operation;
                              Add TestInterface.bare_operation]
               = Some two_submitted) by reflexivity.
  assert (L : option_map log
                (run (clear two_submitted)
                     [Settle 0 Fulfilled; Resume 0;
                      Add TestInterface.bare_operation])
              = Some [Started 0; Settled 0 Fulfilled; Started 2])
    by reflexivity.
  destruct (run (clear two_submitted)
                [Settle 0 Fulfilled; Resume 0;
                 Add TestInterface.bare_operation]) as [s'|] eqn:R;
    [|discriminate].
  injection L as L. exists s'.
  split; [exact R0|]. split; [left; reflexivity|]. split; [reflexivity|].
  split; [exact L|].
  exact (proj2 (proj2 (@cleared_operation_is_abandoned 0 _ two_submitted
                         (mkCommand 0 1 TestInterface.bare_operation) _ s'
                         R0 (or_introl eq_refl) R))).
Defined.

(** Whatever the callers do, [clear()] included, no operation is called
    twice and no handle settles twice: the handles started are distinct,
    the handles settled are distinct, only a started operation settles,
    and only a submitted one is started. *)
Theorem operation_runs_at_most_once :
  forall t0 tr s,
    run (fresh t0) tr = Some s ->
    NoDup (starts (log s)) /\
    NoDup (settles (log s)) /\
    incl (settles (log s)) (starts (log s)) /\
    Forall (fun h => h < submitted s)%nat (starts (log s)).
Proof.
  intros t0 tr s R.
  assert (N : Numbered s) by (eapply Numbered_run; [apply Numbered_fresh|exact R]).
  assert (O : Once s).
  { eapply Once_run; [apply Numbered_fresh|apply Once_fresh|exact R]. }
  destruct N as (_ & _ & _ & Hst & _ & Hset).
  destruct O as (Hnd & _ & _ & Hse).
  rewrite Forall_forall in Hset.
  split; [assumption|]. split; [assumption|]. split; [exact Hset|assumption].
Qed.

Lemma operation_runs_at_most_once_witness :
  exists s,
    run (fresh 0) [Add TestInterface.bare_operation;
                   Add TestInterface.bare_operation; Clear;
                   Add TestInterface.bare_operation;
                   Settle 0 Fulfilled; Resume 0] = Some s /\
    NoDup (starts (log s)) /\ NoDup (settles (log s)).
Proof.
  destruct (run (fresh 0) [Add TestInterface.bare_operation;
                           Add TestInterface.bare_operation; Clear;
                           Add TestInterface.bare_operation;
                           Settle 0 Fulfilled; Resume 0]) as [s|] eqn:R;
    [|vm_compute in R; discriminate].
  exists s. split; [reflexivity|].
  destruct (@operation_runs_at_most_once 0 _ s R) as (H1 & H2 & _).
  split; assumption.
Defined.

(** A failing operation does not stop the queue.  As long as [clear()]
    is not called, the operation in flight may settle either way: the
    handle of its caller gets exactly that outcome, and when the drain
    loop resumes it starts the next queued operation, or leaves the
    queue idle when nothing is queued. *)
Theorem settled_operation_hands_over :
  forall t0 tr s r o,
    ~ In Clear tr ->
    run (fresh t0) tr = Some s ->
    In r (running s) ->
    exists s1 s2,
      step s (Settle (op r) o) = Some s1 /\
      step s1 (Resume (op r)) = Some s2 /\
      outcome (op r) (log s2) = Some o /\
      match queue s with
      | [] => executing s2 = false /\ running s2 = [] /\
              log s2 = log s ++ [Settled (op r) o]
      | c :: rest =>
          executing s2 = true /\ queue s2 = rest /\
          map op (running s2) = [handle c] /\
          log s2 = log s ++ [Settled (op r) o; Started (handle c)]
      end.
Proof.
  intros t0 tr s r o NC R Hin.
  assert (I : Inv s) by (eapply Inv_run; [apply Inv_fresh| |]; eassumption).
  destruct I as [k [(Hrun & _)|((r' & Hrun & Hop) & Hlog & Hq & Hsub & Hres & Hex)]].
  - rewrite Hrun in Hin. destruct Hin.
  - rewrite Hrun in Hin. destruct Hin as [<-|[]].
    assert (Hns : ~ In (op r') (settles (log s))).
    { rewrite (Serial_settles Hlog), Hop, in_seq. lia. }
    exists (settle (op r') o s). eexists.
    split; [simpl; rewrite Hrun; simpl; unfold is_op; now rewrite Nat.eqb_refl|].
    split; [simpl; rewrite Hres; simpl; rewrite Nat.eqb_refl; reflexivity|].
    unfold continue, processQueue. simpl. rewrite Hrun. simpl.
    unfold is_op. rewrite Nat.eqb_refl. simpl.
    destruct (queue s) as [|c rest]; simpl.
    + split; [now apply outcome_first|]. repeat split.
    + rewrite <- app_assoc. simpl.
      split; [now apply outcome_first|]. repeat split.
Qed.

Lemma settled_operation_hands_over_witness :
  exists s1 s2,
    ~ In Clear [Add TestInterface.bare_operation;
                Add TestInterface.bare_operation] /\
    run (fresh 0) [Add TestInterface.bare_operation;
                   Add TestInterface.bare_operation] = Some two_submitted /\
    step two_submitted (Settle 0 (Rejected "motor stalled")) = Some s1 /\
    step s1 (Resume 0) = Some s2 /\
    outcome 0 (log s2) = Some (Rejected "motor stalled") /\
    log s2 = [Started 0; Settled 0 (Rejected "motor stalled"); Started 1].
Proof.
  assert (NC : ~ In Clear [Add TestInterface.bare_operation;
                           Add TestInterface.bare_operation]).
  { simpl. intuition discriminate. }
  assert (R0 : run (fresh 0) [Add TestInterface.bare_operation;
                              Add TestInterface.bare_operation]
               = Some two_submitted) by reflexivity.
  destruct (@settled_operation_hands_over 0 _ two_submitted
              (mkInFlight 0 0 None) (Rejected "motor stalled") NC R0
              (or_introl eq_refl))
    as (s1 & s2 & St1 & St2 & Ho & _ & _ & _ & L).
  exists s1, s2. repeat (split; [assumption|]). exact L.
Defined.

End QueueNumbering.

Section QueueOrder.

Import CommandQueue.

Lemma sorted_snoc l : forall a,
  StronglySorted lt l -> Forall (fun x => x < a) l ->
  StronglySorted lt (l ++ [a]).
Proof.
  induction l as [|x l IH]; intros a Hs Hf; simpl.
  - constructor; constructor.
  - inversion Hs as [|? ? Hs' Hx]; subst. inversion Hf as [|? ? Hxa Hf']; subst.
    constructor; [now apply IH|].
    apply Forall_app. split; [assumption|]. constructor; [assumption|constructor].
Qed.

Lemma sorted_front (l1 l2 : list nat) :
  StronglySorted lt (l1 ++ l2) -> StronglySorted lt l1.
Proof.
  induction l1 as [|x l1 IH]; simpl; intros Hs; [constructor|].
  inversion Hs as [|? ? Hs' Hx]; subst.
  constructor; [now apply IH|]. apply Forall_app in Hx. tauto.
Qed.

Lemma Ordered_processQueue s : Ordered s -> Ordered (processQueue s).
Proof.
  intros O. unfold processQueue.
  destruct (executing s || (length (queue s) =? 0)%nat); [exact O|].
  destruct (queue s) as [|c rest] eqn:E; [exact O|].
  destruct O as [Hs Hf]. rewrite E in Hs, Hf.
  unfold Ordered, execute. cbn [log queue submitted].
  rewrite starts_app. cbn [starts map] in *. rewrite <- app_assoc.
  split; assumption.
Qed.

Lemma Ordered_step s e s' : Ordered s -> step s e = Some s' -> Ordered s'.
Proof.
  intros O St. destruct e; simpl in St.
  - injection St as <-. apply Ordered_processQueue.
    destruct O as [Hs Hf]. unfold Ordered. cbn [log queue submitted].
    rewrite map_app, app_assoc. cbn [map handle]. split.
    + apply sorted_snoc; assumption.
    + apply Forall_app. split.
      * eapply Forall_impl; [|exact Hf]. simpl. intros; lia.
      * constructor; [lia|constructor].
  - injection St as <-. now apply Ordered_processQueue.
  - injection St as <-. destruct O as [Hs Hf].
    unfold Ordered, clear. cbn [log queue submitted map].
    rewrite app_nil_r. split; [now apply sorted_front in Hs|].
    apply Forall_app in Hf. tauto.
  - destruct (existsb _ _); [|discriminate]. injection St as <-.
    destruct O as [Hs Hf]. unfold Ordered, settle. cbn [log queue submitted].
    rewrite starts_app. cbn [starts]. rewrite app_nil_r. split; assumption.
  - destruct (existsb _ _); [|discriminate]. injection St as <-.
    destruct O as [Hs Hf]. unfold Ordered, settle. cbn [log queue submitted].
    rewrite starts_app. cbn [starts]. rewrite app_nil_r. split; assumption.
  - destruct (existsb _ _); [|discriminate]. injection St as <-.
    apply Ordered_processQueue. exact O.
  - destruct (0 <=? dt)%Z; [|discriminate]. injection St as <-. exact O.
Qed.

Lemma Ordered_run tr : forall s s',
  Ordered s -> run s tr = Some s' -> Ordered s'.
Proof.
  induction tr as [|e tr IH]; intros s s' O R; simpl in R.
  - now injection R as <-.
  - destruct (step s e) as [s1|] eqn:St; [|discriminate].
    apply (IH s1); [|assumption]. eapply Ordered_step; eassumption.
Qed.

(** [clear()] drops operations but never reorders them: whatever the
    callers do, the operations that get started are started in the
    order in which they were submitted, and those still queued come
    after all of them, in that order too. *)
Theorem operations_start_in_submission_order :
  forall t0 tr s,
    run (fresh t0) tr = Some s ->
    StronglySorted lt (starts (log s) ++ map handle (queue s)) /\
    StronglySorted lt (starts (log s)).
Proof.
  intros t0 tr s R.
  assert (O : Ordered s).
  { eapply Ordered_run; [|exact R]. split; constructor. }
  destruct O as [Hs _]. split; [exact Hs|]. now apply sorted_front in Hs.
Qed.

Lemma operations_start_in_submission_order_witness :
  exists s,
    run (fresh 0) [Add TestInterface.bare_operation;
                   Add TestInterface.bare_operation;
                   Add TestInterface.bare_operation; Clear;
                   Add TestInterface.bare_operation;
                   Add TestInterface.bare_operation] = Some s /\
    starts (log s) ++ map handle (queue s) = [0; 3; 4]%nat /\
    StronglySorted lt (starts (log s)).
Proof.
  assert (L : option_map (fun s => starts (log s) ++ map handle (queue s))
                (run (fresh 0) [Add TestInterface.bare_operation;
                                Add TestInterface.bare_operation;
                                Add TestInterface.bare_operation; Clear;
                                Add TestInterface.bare_operation;
                                Add TestInterface.bare_operation])
              = Some [0; 3; 4]%nat) by (vm_compute; reflexivity).
  destruct (run (fresh 0) [Add TestInterface.bare_operation;
                           Add TestInterface.bare_operation;
                           Add TestInterface.bare_operation; Clear;
                           Add TestInterface.bare_operation;
                           Add TestInterface.bare_operation]) as [s|] eqn:R;
    [|discriminate].
  cbn [option_map] in L. injection L as L.
  exists s. split; [reflexivity|]. split; [exact L|].
  exact (proj2 (@operations_start_in_submission_order 0 _ s R)).
Defined.

End QueueOrder.

Section QueueLiveness.

Import CommandQueue.

Lemma single_flight_without_clear_witness :
  run (fresh 0) [Add TestInterface.bare_operation;
                 Add TestInterface.bare_operation] = Some two_submitted /\
  length (running two_submitted) <= 1.
Proof.
  split; [reflexivity|].
  apply (@single_flight_without_clear 0
           [Add TestInterface.bare_operation;
            Add TestInterface.bare_operation] two_submitted);
    [simpl; intuition discriminate|reflexivity].
Defined.

Lemma queue_never_stuck_witness :
  executing two_submitted = true /\
  ((exists r, running two_submitted = [r] /\
              forall o, step two_submitted (Settle (op r) o)
                        = Some (settle (op r) o two_submitted)) \/
   (exists h, resuming two_submitted = [h] /\
              step two_submitted (Resume h) <> None)).
Proof.
  split; [reflexivity|].
  apply (@queue_never_stuck 0
           [Add TestInterface.bare_operation;
            Add TestInterface.bare_operation] two_submitted);
    [simpl; intuition discriminate|reflexivity|reflexivity].
Defined.

End QueueLiveness.

Section QueueTimer.

Import CommandQueue.





End QueueTimer.


(* ================================================================== *)
(** * Numbers that are not numbers *)
(* ================================================================== *)

Section NotANumber.

Local Open Scope float_scope.

Lemma ltb_nan_l x : (nan <? x) = false.
Proof. rewrite FloatAxioms.ltb_spec. reflexivity. Qed.

Lemma ltb_nan_r x : (x <? nan) = false.
Proof.
  rewrite FloatAxioms.ltb_spec.
  change (FloatOps.Prim2SF nan) with SpecFloat.S754_nan.
  unfold SpecFloat.SFltb.
  destruct (FloatOps.Prim2SF x) as [s|s| |s m e]; reflexivity.
Qed.

Lemma leb_nan_l x : (nan <=? x) = false.
Proof. rewrite FloatAxioms.leb_spec. reflexivity. Qed.

Lemma leb_nan_r x : (x <=? nan) = false.
Proof.
  rewrite FloatAxioms.leb_spec.
  change (FloatOps.Prim2SF nan) with SpecFloat.S754_nan.
  unfold SpecFloat.SFleb.
  destruct (FloatOps.Prim2SF x) as [s|s| |s m e]; reflexivity.
Qed.

Lemma Prim2SF_nan x : FloatOps.Prim2SF x = SpecFloat.S754_nan -> x = nan.
Proof. intros H. apply FloatAxioms.Prim2SF_inj. rewrite H. reflexivity. Qed.

Lemma sub_nan_l x : nan - x = nan.
Proof. apply Prim2SF_nan. rewrite FloatAxioms.sub_spec. reflexivity. Qed.

Lemma mul_nan_l x : nan * x = nan.
Proof. apply Prim2SF_nan. rewrite FloatAxioms.mul_spec. reflexivity. Qed.

Lemma div_nan_r x : x / nan = nan.
Proof.
  apply Prim2SF_nan. rewrite FloatAxioms.div_spec.
  change (FloatOps.Prim2SF nan) with SpecFloat.S754_nan.
  destruct (FloatOps.Prim2SF x) as [s|s| |s m e]; reflexivity.
Qed.

End NotANumber.

(* ================================================================== *)
(** * More about the Movement Validator *)
(* ================================================================== *)

Section ValidatorSequences.

Import Js Types MovementValidator.
Local Open Scope float_scope.

Lemma validateMoves_valid this moves : forall x y,
  ValidationResult.valid (validateMoves this x y moves)
  = forallb (valid_hop this) (hops x y moves).
Proof.
  induction moves as [|m rest IH]; intros x y; simpl; [reflexivity|].
  destruct (ValidationResult.valid
              (validatePath this x y (PlotterMove.x m) (PlotterMove.y m)));
    simpl; [apply IH|reflexivity].
Qed.

Lemma validatePath_valid_ends this sx sy ex ey :
  simulationMode this = false ->
  ValidationResult.valid (validatePath this sx sy ex ey) = true ->
  ValidationResult.valid (validatePosition this sx sy) = true /\
  ValidationResult.valid (validatePosition this ex ey) = true /\
  (Js.max (MovementValidatorConfig.paperWidth (bounds this))
          (MovementValidatorConfig.paperHeight (bounds this))
   <? PrimFloat.sqrt ((ex - sx) * (ex - sx) + (ey - sy) * (ey - sy))) = false.
Proof.
  intros Hsim. unfold validatePath. rewrite Hsim.
  destruct (ValidationResult.valid (validatePosition this sx sy)) eqn:Hs;
    simpl; [|now rewrite Hs].
  destruct (ValidationResult.valid (validatePosition this ex ey)) eqn:He;
    simpl; [|now rewrite He].
  destruct (_ <? _); simpl; [discriminate|]. intros _. repeat split.
Qed.

Lemma hops_valid_positions this moves :
  simulationMode this = false ->
  forall x y,
    forallb (valid_hop this) (hops x y moves) = true ->
    (moves <> [] -> ValidationResult.valid (validatePosition this x y) = true) /\
    Forall (fun m => ValidationResult.valid
                       (validatePosition this (PlotterMove.x m) (PlotterMove.y m))
                     = true) moves /\
    Forall (fun h => match h with
                     | (sx, sy, ex, ey) =>
                         (Js.max (MovementValidatorConfig.paperWidth (bounds this))
                                 (MovementValidatorConfig.paperHeight (bounds this))
                          <? PrimFloat.sqrt ((ex - sx) * (ex - sx)
                                             + (ey - sy) * (ey - sy))) = false
                     end)
           (hops x y moves).
Proof.
  intros Hsim. induction moves as [|m rest IH]; intros x y H.
  - split; [congruence|]. split; constructor.
  - simpl in H. apply andb_true_iff in H. destruct H as [Hm Hrest].
    destruct (validatePath_valid_ends this x y _ _ Hsim Hm) as (Hs & He & Hl).
    destruct (IH _ _ Hrest) as (_ & Hpos & Hlen).
    split; [intros _; exact Hs|]. split; constructor; assumption.
Qed.

(** Outside simulation mode [validateSequence] accepts exactly the
    sequences whose bounding box lies on the paper and whose every hop,
    the first one starting at (0,0), passes [validatePath].  For an
    accepted sequence with a move in it the assumed start (0,0) is
    therefore itself a valid position, every move ends at a valid
    position, and no hop is longer than the longer side of the paper. *)
Theorem validateSequence_accepts_valid_hops :
  forall this sequence,
    simulationMode this = false ->
    ValidationResult.valid (validateSequence this sequence)
    = box_on_paper this (PlotterSequence.boundingBox sequence)
      && forallb (valid_hop this) (hops 0 0 (PlotterSequence.moves sequence)) /\
    (ValidationResult.valid (validateSequence this sequence) = true ->
     (PlotterSequence.moves sequence <> [] ->
      ValidationResult.valid (validatePosition this 0 0) = true) /\
     Forall (fun m => ValidationResult.valid
                        (validatePosition this (PlotterMove.x m) (PlotterMove.y m))
                      = true)
            (PlotterSequence.moves sequence) /\
     Forall (fun h => match h with
                      | (sx, sy, ex, ey) =>
                          (Js.max (MovementValidatorConfig.paperWidth (bounds this))
                                  (MovementValidatorConfig.paperHeight (bounds this))
                           <? PrimFloat.sqrt ((ex - sx) * (ex - sx)
                                              + (ey - sy) * (ey - sy))) = false
                      end)
            (hops 0 0 (PlotterSequence.moves sequence))).
Proof.
  intros this sequence Hsim.
  assert (E : ValidationResult.valid (validateSequence this sequence)
              = box_on_paper this (PlotterSequence.boundingBox sequence)
                && forallb (valid_hop this)
                           (hops 0 0 (PlotterSequence.moves sequence))).
  { unfold validateSequence, box_on_paper. rewrite Hsim.
    destruct (_ || _ || _ || _); simpl; [reflexivity|].
    apply validateMoves_valid. }
  split; [exact E|]. rewrite E. intros H. apply andb_true_iff in H.
  destruct H as [_ H]. now apply hops_valid_positions.
Qed.

Lemma validateSequence_accepts_valid_hops_witness :
  ValidationResult.valid (validateSequence open_validator short_stroke) = true /\
  ValidationResult.valid (validatePosition open_validator 0 0) = true /\
  ValidationResult.valid (validatePosition open_validator 30 0) = true.
Proof.
  destruct (@validateSequence_accepts_valid_hops open_validator short_stroke
              eq_refl) as [_ H].
  assert (V : ValidationResult.valid
                (validateSequence open_validator short_stroke) = true)
    by (vm_compute; reflexivity).
  destruct (H V) as (H0 & Hpos & _).
  split; [exact V|]. split.
  - apply H0. discriminate.
  - inversion Hpos; assumption.
Defined.

Lemma default_bounds_reject :
  forall cal sequence,
    PlotterSequence.moves sequence <> [] ->
    validateSequence (mk MOVEMENT_BOUNDS cal false) sequence
    = invalid (lit "Sequence exceeds paper bounds") \/
    exists m rest,
      PlotterSequence.moves sequence = m :: rest /\
      validateSequence (mk MOVEMENT_BOUNDS cal false) sequence
      = invalid [Lit "Invalid move at ("; Num (PlotterMove.x m); Lit ", ";
                 Num (PlotterMove.y m); Lit "): ";
                 Lit "Position is in danger zone"].
Proof.
  intros cal sequence Hne. unfold validateSequence.
  cbn [simulationMode bounds].
  destruct (_ || _ || _ || _); [now left|]. right.
  destruct (PlotterSequence.moves sequence) as [|m rest]; [congruence|].
  exists m, rest. split; [reflexivity|].
  assert (Hstart : validatePosition (mk MOVEMENT_BOUNDS cal false) 0 0
                   = invalid (lit "Position is in danger zone"))
    by reflexivity.
  cbn [validateMoves]. unfold validatePath. cbn [simulationMode].
  rewrite Hstart. reflexivity.
Qed.

(** With the bounds every validator gets by default the assumed start
    (0,0) lies inside the danger zone {-10,-10,10,10}.  Outside
    simulation mode such a validator rejects every sequence that has a
    move: either its bounding box is off the paper, or its first move is
    refused because the start is in the danger zone. *)
Theorem default_bounds_reject_every_sequence :
  forall cal sequence,
    PlotterSequence.moves sequence <> [] ->
    validateSequence (mk MOVEMENT_BOUNDS cal false) sequence
    = invalid (lit "Sequence exceeds paper bounds") \/
    exists m rest,
      PlotterSequence.moves sequence = m :: rest /\
      validateSequence (mk MOVEMENT_BOUNDS cal false) sequence
      = invalid [Lit "Invalid move at ("; Num (PlotterMove.x m); Lit ", ";
                 Num (PlotterMove.y m); Lit "): ";
                 Lit "Position is in danger zone"].
Proof. exact default_bounds_reject. Qed.

Lemma default_bounds_reject_every_sequence_witness :
  validateSequence (mk MOVEMENT_BOUNDS (SimpleCalibration.mk 10 10) false)
                   (PlotterSequence.mk "dot"
                      [PlotterMove.mk MoveType.move 50 50 (Some 0)]
                      (BoundingBox.mk 50 50 50 50))
  = invalid [Lit "Invalid move at ("; Num 50; Lit ", "; Num 50; Lit "): ";
             Lit "Position is in danger zone"].
Proof.
  assert (Hne : PlotterSequence.moves
                  (PlotterSequence.mk "dot"
                     [PlotterMove.mk MoveType.move 50 50 (Some 0)]
                     (BoundingBox.mk 50 50 50 50)) <> [])
    by discriminate.
  destruct (@default_bounds_reject_every_sequence (SimpleCalibration.mk 10 10)
              _ Hne)
    as [H|(m & rest & E & H)].
  - vm_compute in H. discriminate.
  - injection E as <- _. exact H.
Defined.

Lemma isInZone_nan zones : existsb (isInZone nan nan) zones = false.
Proof.
  induction zones as [|z zones IH]; simpl; [reflexivity|].
  unfold isInZone at 1. now rewrite leb_nan_r.
Qed.

Lemma doLinesIntersect_nan x1 y1 x3 y3 x4 y4 :
  doLinesIntersect x1 y1 nan nan x3 y3 x4 y4 = false.
Proof.
  unfold doLinesIntersect. rewrite !sub_nan_l, !mul_nan_l.
  change (nan - nan) with nan. change (nan =? 0) with false. cbv iota.
  rewrite !div_nan_r. reflexivity.
Qed.

Lemma doesLineIntersectZone_nan x1 y1 zones :
  existsb (doesLineIntersectZone x1 y1 nan nan) zones = false.
Proof.
  induction zones as [|z zones IH]; simpl; [reflexivity|].
  unfold doesLineIntersectZone at 1. simpl.
  now rewrite !doLinesIntersect_nan.
Qed.

(** A target that is not a number is never rejected: for every
    validator [validatePosition(NaN, NaN)] is valid, and so is
    [validatePath] from any valid start to (NaN, NaN), since every
    comparison with NaN is false. *)
Theorem nan_target_is_never_rejected :
  forall this sx sy,
    ValidationResult.valid (validatePosition this sx sy) = true ->
    validatePosition this nan nan = ok /\
    validatePath this sx sy nan nan = ok.
Proof.
  intros this sx sy Hs.
  assert (Hn : validatePosition this nan nan = ok).
  { unfold validatePosition, outside.
    destruct (simulationMode this); [reflexivity|].
    rewrite !ltb_nan_l, !ltb_nan_r. simpl.
    destruct (MovementValidatorConfig.dangerZones (bounds this)) as [zones|];
      [|reflexivity].
    now rewrite isInZone_nan. }
  split; [exact Hn|]. unfold validatePath.
  destruct (simulationMode this); [reflexivity|].
  rewrite Hs, Hn. cbn [negb ValidationResult.valid ok].
  rewrite !sub_nan_l, !mul_nan_l.
  change (PrimFloat.sqrt (nan * nan + nan * nan)) with nan.
  change (abs nan) with nan.
  rewrite !ltb_nan_r. cbn [orb].
  destruct (MovementValidatorConfig.dangerZones (bounds this)) as [zones|];
    [|reflexivity].
  now rewrite doesLineIntersectZone_nan.
Qed.

Lemma nan_target_is_never_rejected_witness :
  validatePosition open_validator nan nan = ok /\
  validatePath open_validator 30 0 nan nan = ok.
Proof.
  apply (@nan_target_is_never_rejected open_validator 30 0).
  vm_compute. reflexivity.
Defined.

End ValidatorSequences.

(* ================================================================== *)
(** * The order of numbers *)
(* ================================================================== *)

(** [<] and [<=] of JavaScript numbers, from the specification of the
    binary64 comparison: on numbers other than NaN they form a total
    preorder (in which [+0] and [-0] are equivalent). *)

Section NumberOrder.

Import SpecFloat.
Local Open Scope float_scope.

Ltac by_comparison :=
  repeat match goal with
  | H : context [Z.compare ?a ?b] |- _ =>
      destruct (Z.compare_spec a b); try subst
  | |- context [Z.compare ?a ?b] =>
      destruct (Z.compare_spec a b); try subst
  | H : context [Pos.compare_cont Eq ?a ?b] |- _ =>
      change (Pos.compare_cont Eq a b) with (Pos.compare a b) in *;
      destruct (Pos.compare_spec a b); try subst
  | |- context [Pos.compare_cont Eq ?a ?b] =>
      change (Pos.compare_cont Eq a b) with (Pos.compare a b) in *;
      destruct (Pos.compare_spec a b); try subst
  end;
  simpl in *; try discriminate; try reflexivity; try lia.

Lemma SFleb_trans x y z :
  SFleb x y = true -> SFleb y z = true -> SFleb x z = true.
Proof.
  unfold SFleb, SFcompare.
  destruct x as [[|]|[|]| |[|] mx ex], y as [[|]|[|]| |[|] my ey],
           z as [[|]|[|]| |[|] mz ez];
    try discriminate; try reflexivity; intros H1 H2; by_comparison.
Qed.

Lemma SFcompare_refl x : x <> S754_nan -> SFcompare x x = Some Eq.
Proof.
  destruct x as [[|]|[|]| |[|] m e]; simpl; try congruence; intros _;
    now rewrite Z.compare_refl, ?Pos.compare_cont_refl.
Qed.

Lemma SFleb_total x y :
  x <> S754_nan -> y <> S754_nan -> SFltb x y = false -> SFleb y x = true.
Proof.
  unfold SFleb, SFltb, SFcompare.
  destruct x as [[|]|[|]| |[|] mx ex], y as [[|]|[|]| |[|] my ey];
    try congruence; try reflexivity; intros _ _ H; by_comparison.
Qed.

Lemma SFleb_not_SFltb x y : SFleb x y = true -> SFltb y x = false.
Proof.
  unfold SFleb, SFltb, SFcompare.
  destruct x as [[|]|[|]| |[|] mx ex], y as [[|]|[|]| |[|] my ey];
    try congruence; try reflexivity; intros H; by_comparison.
Qed.

Lemma is_nan_false x :
  is_nan x = false <-> FloatOps.Prim2SF x <> S754_nan.
Proof.
  unfold is_nan. rewrite FloatAxioms.eqb_spec. unfold SFeqb. split.
  - intros H E. rewrite E in H. discriminate.
  - intros H. now rewrite (SFcompare_refl H).
Qed.

Lemma leb_is_number x y :
  (x <=? y) = true -> is_nan x = false /\ is_nan y = false.
Proof.
  rewrite FloatAxioms.leb_spec, !is_nan_false. unfold SFleb.
  destruct (FloatOps.Prim2SF x) as [s|s| |s m e],
           (FloatOps.Prim2SF y) as [s'|s'| |s' m' e'];
    simpl; intros H; split; congruence.
Qed.

Lemma leb_refl x : is_nan x = false -> (x <=? x) = true.
Proof.
  rewrite is_nan_false, FloatAxioms.leb_spec. intros H.
  unfold SFleb. now rewrite (SFcompare_refl H).
Qed.

Lemma leb_trans x y z :
  (x <=? y) = true -> (y <=? z) = true -> (x <=? z) = true.
Proof. rewrite !FloatAxioms.leb_spec. apply SFleb_trans. Qed.

Lemma ltb_leb x y : (x <? y) = true -> (x <=? y) = true.
Proof.
  rewrite FloatAxioms.ltb_spec, FloatAxioms.leb_spec. unfold SFltb, SFleb.
  destruct (SFcompare _ _) as [[| |]|]; congruence.
Qed.

Lemma leb_total x y :
  is_nan x = false -> is_nan y = false -> (x <? y) = false -> (y <=? x) = true.
Proof.
  rewrite !is_nan_false, FloatAxioms.ltb_spec, FloatAxioms.leb_spec.
  apply SFleb_total.
Qed.

Lemma leb_not_ltb x y : (x <=? y) = true -> (y <? x) = false.
Proof.
  rewrite FloatAxioms.ltb_spec, FloatAxioms.leb_spec. apply SFleb_not_SFltb.
Qed.

(** [Math.min] and [Math.max] of two numbers. *)
Lemma min_spec a b :
  is_nan a = false -> is_nan b = false ->
  (Js.min a b = a \/ Js.min a b = b) /\
  (Js.min a b <=? a) = true /\ (Js.min a b <=? b) = true.
Proof.
  intros Ha Hb. unfold Js.min. rewrite Ha, Hb. simpl.
  destruct (a <? b) eqn:Hab.
  - split; [now left|]. split; [now apply leb_refl|now apply ltb_leb].
  - destruct (b <? a) eqn:Hba.
    + split; [now right|]. split; [now apply ltb_leb|now apply leb_refl].
    + destruct (is_zero a && get_sign a).
      * split; [now left|]. split; [now apply leb_refl|now apply leb_total].
      * split; [now right|]. split; [now apply leb_total|now apply leb_refl].
Qed.

Lemma max_spec a b :
  is_nan a = false -> is_nan b = false ->
  (Js.max a b = a \/ Js.max a b = b) /\
  (a <=? Js.max a b) = true /\ (b <=? Js.max a b) = true.
Proof.
  intros Ha Hb. unfold Js.max. rewrite Ha, Hb. simpl.
  destruct (a <? b) eqn:Hab.
  - split; [now right|]. split; [now apply ltb_leb|now apply leb_refl].
  - destruct (b <? a) eqn:Hba.
    + split; [now left|]. split; [now apply leb_refl|now apply ltb_leb].
    + destruct (is_zero a && get_sign a).
      * split; [now right|]. split; [now apply leb_total|now apply leb_refl].
      * split; [now left|]. split; [now apply leb_refl|now apply leb_total].
Qed.

Lemma min_is_number a b :
  is_nan a = false -> is_nan b = false -> is_nan (Js.min a b) = false.
Proof.
  intros Ha Hb. destruct (min_spec a b Ha Hb) as ([E|E] & _); now rewrite E.
Qed.

Lemma max_is_number a b :
  is_nan a = false -> is_nan b = false -> is_nan (Js.max a b) = false.
Proof.
  intros Ha Hb. destruct (max_spec a b Ha Hb) as ([E|E] & _); now rewrite E.
Qed.

(** Nothing is above [Infinity] or below [-Infinity]. *)
Lemma min_infinity b : is_nan b = false -> Js.min infinity b = b.
Proof.
  intros Hb. unfold Js.min. rewrite Hb.
  change (is_nan infinity) with false. cbn [orb].
  assert (H : (infinity <? b) = false).
  { rewrite FloatAxioms.ltb_spec.
    change (FloatOps.Prim2SF infinity) with (S754_infinity false).
    unfold SFltb. destruct (FloatOps.Prim2SF b) as [[|]|[|]| |[|] m e];
      reflexivity. }
  rewrite H. destruct (b <? infinity); reflexivity.
Qed.

Lemma max_neg_infinity b : is_nan b = false -> Js.max neg_infinity b = b.
Proof.
  intros Hb. unfold Js.max. rewrite Hb.
  change (is_nan neg_infinity) with false. cbn [orb].
  destruct (neg_infinity <? b) eqn:H; [reflexivity|].
  assert (E : b = neg_infinity).
  { apply is_nan_false in Hb. rewrite FloatAxioms.ltb_spec in H.
    change (FloatOps.Prim2SF neg_infinity) with (S754_infinity true) in H.
    apply FloatAxioms.Prim2SF_inj.
    change (FloatOps.Prim2SF neg_infinity) with (S754_infinity true).
    unfold SFltb in H.
    destruct (FloatOps.Prim2SF b) as [[|]|[|]| |[|] m e];
      try discriminate; try reflexivity; congruence. }
  rewrite E. reflexivity.
Qed.

End NumberOrder.

(* ================================================================== *)
(** * Bounding boxes and scaling *)
(* ================================================================== *)

Section BoundingBoxes.

Import Js Types PathProcessor.
Local Open Scope float_scope.

Lemma fold_min_spec xs : forall a,
  is_nan a = false ->
  Forall (fun v => is_nan v = false) xs ->
  is_nan (fold_left Js.min xs a) = false /\
  (fold_left Js.min xs a <=? a) = true /\
  Forall (fun v => (fold_left Js.min xs a <=? v) = true) xs /\
  (fold_left Js.min xs a = a \/ In (fold_left Js.min xs a) xs).
Proof.
  induction xs as [|v xs IH]; intros a Ha Hxs; simpl.
  - split; [assumption|]. split; [now apply leb_refl|]. split; [constructor|].
    now left.
  - inversion Hxs as [|? ? Hv Hxs']; subst.
    destruct (min_spec a v Ha Hv) as (Hor & Hla & Hlv).
    destruct (IH (Js.min a v) (min_is_number a v Ha Hv) Hxs')
      as (Hn & Hle & Hall & Hin).
    split; [assumption|]. split; [eapply leb_trans; eassumption|].
    split; [constructor; [eapply leb_trans; eassumption|assumption]|].
    destruct Hin as [E|Hin]; [|right; now right].
    destruct Hor as [E'|E']; [left; congruence|right; left; congruence].
Qed.

Lemma fold_max_spec xs : forall a,
  is_nan a = false ->
  Forall (fun v => is_nan v = false) xs ->
  is_nan (fold_left Js.max xs a) = false /\
  (a <=? fold_left Js.max xs a) = true /\
  Forall (fun v => (v <=? fold_left Js.max xs a) = true) xs /\
  (fold_left Js.max xs a = a \/ In (fold_left Js.max xs a) xs).
Proof.
  induction xs as [|v xs IH]; intros a Ha Hxs; simpl.
  - split; [assumption|]. split; [now apply leb_refl|]. split; [constructor|].
    now left.
  - inversion Hxs as [|? ? Hv Hxs']; subst.
    destruct (max_spec a v Ha Hv) as (Hor & Hla & Hlv).
    destruct (IH (Js.max a v) (max_is_number a v Ha Hv) Hxs')
      as (Hn & Hle & Hall & Hin).
    split; [assumption|]. split; [eapply leb_trans; eassumption|].
    split; [constructor; [eapply leb_trans; eassumption|assumption]|].
    destruct Hin as [E|Hin]; [|right; now right].
    destruct Hor as [E'|E']; [left; congruence|right; left; congruence].
Qed.

(** The four bounds are computed independently of each other. *)
Lemma fold_extend moves : forall acc,
  fold_left extend moves acc
  = BoundingBox.mk
      (fold_left Js.min (map PlotterMove.x moves) (BoundingBox.minX acc))
      (fold_left Js.max (map PlotterMove.x moves) (BoundingBox.maxX acc))
      (fold_left Js.min (map PlotterMove.y moves) (BoundingBox.minY acc))
      (fold_left Js.max (map PlotterMove.y moves) (BoundingBox.maxY acc)).
Proof.
  induction moves as [|m moves IH]; intros acc; simpl.
  - now destruct acc.
  - now rewrite IH.
Qed.

Lemma located_coordinates moves :
  Forall (fun m => located m = true) moves ->
  Forall (fun v => is_nan v = false) (map PlotterMove.x moves) /\
  Forall (fun v => is_nan v = false) (map PlotterMove.y moves).
Proof.
  induction 1 as [|m moves Hm _ [IHx IHy]]; simpl; [split; constructor|].
  unfold located in Hm. apply andb_true_iff in Hm. destruct Hm as [Hx Hy].
  apply negb_true_iff in Hx, Hy. split; constructor; assumption.
Qed.

Lemma bounding_box_covers :
  forall moves,
    moves <> [] ->
    Forall (fun m => located m = true) moves ->
    let box := calculateBoundingBox moves in
    Forall (fun m => covers box m = true) moves /\
    In (BoundingBox.minX box) (map PlotterMove.x moves) /\
    In (BoundingBox.maxX box) (map PlotterMove.x moves) /\
    In (BoundingBox.minY box) (map PlotterMove.y moves) /\
    In (BoundingBox.maxY box) (map PlotterMove.y moves).
Proof.
  intros moves Hne Hloc box.
  destruct moves as [|m moves]; [congruence|]. clear Hne.
  destruct (located_coordinates Hloc) as [Hx Hy].
  subst box. unfold calculateBoundingBox. rewrite fold_extend.
  cbn [BoundingBox.minX BoundingBox.maxX BoundingBox.minY BoundingBox.maxY
       empty_box].
  simpl map in *.
  inversion Hx as [|? ? Hmx Hxs]; subst. inversion Hy as [|? ? Hmy Hys]; subst.
  cbn [fold_left].
  rewrite (min_infinity _ Hmx), (max_neg_infinity _ Hmx),
          (min_infinity _ Hmy), (max_neg_infinity _ Hmy).
  destruct (@fold_min_spec _ _ Hmx Hxs) as (_ & A1 & A2 & A3).
  destruct (@fold_max_spec _ _ Hmx Hxs) as (_ & B1 & B2 & B3).
  destruct (@fold_min_spec _ _ Hmy Hys) as (_ & C1 & C2 & C3).
  destruct (@fold_max_spec _ _ Hmy Hys) as (_ & D1 & D2 & D3).
  split.
  - apply Forall_forall. intros m' Hin. unfold covers.
    cbn [BoundingBox.minX BoundingBox.maxX BoundingBox.minY BoundingBox.maxY].
    destruct Hin as [<-|Hin].
    + now rewrite A1, B1, C1, D1.
    + rewrite Forall_forall in A2, B2, C2, D2.
      rewrite (A2 _ (in_map PlotterMove.x _ _ Hin)),
              (B2 _ (in_map PlotterMove.x _ _ Hin)),
              (C2 _ (in_map PlotterMove.y _ _ Hin)),
              (D2 _ (in_map PlotterMove.y _ _ Hin)).
      reflexivity.
  - repeat split.
    + destruct A3 as [E|H]; [left; now rewrite E|now right].
    + destruct B3 as [E|H]; [left; now rewrite E|now right].
    + destruct C3 as [E|H]; [left; now rewrite E|now right].
    + destruct D3 as [E|H]; [left; now rewrite E|now right].
Qed.

(** The bounding box of moves whose coordinates are numbers covers every
    one of them, and it is the smallest such box: each of its four
    bounds is the coordinate of some move.  (For no moves at all the box
    is the point (0,0).) *)
Theorem calculateBoundingBox_is_tight :
  forall moves,
    moves <> [] ->
    Forall (fun m => located m = true) moves ->
    let box := calculateBoundingBox moves in
    Forall (fun m => covers box m = true) moves /\
    In (BoundingBox.minX box) (map PlotterMove.x moves) /\
    In (BoundingBox.maxX box) (map PlotterMove.x moves) /\
    In (BoundingBox.minY box) (map PlotterMove.y moves) /\
    In (BoundingBox.maxY box) (map PlotterMove.y moves).
Proof. exact bounding_box_covers. Qed.

Lemma calculateBoundingBox_is_tight_witness :
  calculateBoundingBox corner = BoundingBox.mk 0 10 0 10 /\
  Forall (fun m => covers (calculateBoundingBox corner) m = true) corner.
Proof.
  split; [reflexivity|].
  apply (@calculateBoundingBox_is_tight corner); [discriminate|].
  repeat constructor.
Defined.

End BoundingBoxes.

Section Scaling.

Import Js Types PathProcessor.
Local Open Scope float_scope.

(** [Math.max(0, Math.min(v, w))] is neither below 0 nor above [w]. *)
Lemma clamp_inside v w :
  (0 <=? w) = true ->
  (Js.max 0 (Js.min v w) <? 0) = false /\
  (w <? Js.max 0 (Js.min v w)) = false.
Proof.
  intros Hw. destruct (leb_is_number Hw) as [_ Hnw].
  destruct (is_nan v) eqn:Hv.
  - assert (E : Js.min v w = nan) by (unfold Js.min; now rewrite Hv).
    rewrite E. change (Js.max 0 nan) with nan.
    now rewrite ltb_nan_l, ltb_nan_r.
  - destruct (min_spec v w Hv Hnw) as (_ & _ & Hle).
    pose proof (min_is_number v w Hv Hnw) as Hn.
    destruct (max_spec 0 (Js.min v w) eq_refl Hn) as (Hor & H0 & _).
    split; [now apply leb_not_ltb|]. apply leb_not_ltb.
    destruct Hor as [E|E]; rewrite E; assumption.
Qed.

Lemma with_xy_kind (f : PlotterMove.t -> number) (g : PlotterMove.t -> number)
    moves :
  map PlotterMove.type (map (fun m => with_xy m (f m) (g m)) moves)
  = map PlotterMove.type moves /\
  map PlotterMove.z (map (fun m => with_xy m (f m) (g m)) moves)
  = map PlotterMove.z moves.
Proof. rewrite !map_map. split; reflexivity. Qed.

(** Whatever [validateAndScalePath] returns has as many moves as it was
    given, of the same kinds and with the same pen positions, and none
    of them is outside the drawing area; in simulation mode it clamps
    and never throws, otherwise the one error it throws is 'Path
    contains moves outside drawing area'. *)
Theorem validateAndScalePath_stays_on_area :
  forall moves area simulationMode,
    (0 <=? DrawingArea.width area) = true ->
    (0 <=? DrawingArea.height area) = true ->
    match validateAndScalePath moves area simulationMode with
    | Ok scaled =>
        length scaled = length moves /\
        map PlotterMove.type scaled = map PlotterMove.type moves /\
        map PlotterMove.z scaled = map PlotterMove.z moves /\
        existsb (outside_area area) scaled = false
    | Throw message =>
        simulationMode = false /\
        message = lit "Path contains moves outside drawing area"
    end.
Proof.
  intros moves area sim Hw Hh. unfold validateAndScalePath.
  destruct sim.
  - split; [now rewrite length_map|].
    destruct (with_xy_kind
                (fun m => Js.max 0 (Js.min (PlotterMove.x m) (DrawingArea.width area)))
                (fun m => Js.max 0 (Js.min (PlotterMove.y m) (DrawingArea.height area)))
                moves) as [Ht Hz].
    split; [exact Ht|]. split; [exact Hz|]. clear Ht Hz.
    induction moves as [|m moves IH]; [reflexivity|].
    cbn [map existsb]. rewrite IH. unfold outside_area at 1.
    cbn [with_xy PlotterMove.x PlotterMove.y].
    destruct (clamp_inside (PlotterMove.x m) Hw) as [-> ->].
    destruct (clamp_inside (PlotterMove.y m) Hh) as [-> ->].
    reflexivity.
  - cbv zeta.
    destruct (existsb (outside_area area) _) eqn:E; [split; reflexivity|].
    split; [now rewrite length_map|].
    match goal with
    | |- context [map (fun move => with_xy move (@?f move) (@?g move)) moves] =>
        destruct (with_xy_kind f g moves) as [Ht Hz]
    end.
    split; [exact Ht|]. split; [exact Hz|exact E].
Qed.

Lemma validateAndScalePath_stays_on_area_witness :
  validateAndScalePath corner A5_SIZE true = Ok corner /\
  existsb (outside_area A5_SIZE) corner = false.
Proof.
  assert (E : validateAndScalePath corner A5_SIZE true = Ok corner)
    by (vm_compute; reflexivity).
  split; [exact E|].
  pose proof (@validateAndScalePath_stays_on_area corner A5_SIZE true
                eq_refl eq_refl) as H.
  rewrite E in H. apply H.
Defined.

End Scaling.

(* ================================================================== *)
(** * The optimizer writes into its input *)
(* ================================================================== *)

Section OptimizerInPlace.

Import Js Types PathProcessor.
Local Open Scope float_scope.

Lemma deref_assign_kind st p x' y' r :
  PlotterMove.type (deref (assign st p (with_xy (deref st p) x' y')) r)
  = PlotterMove.type (deref st r) /\
  PlotterMove.z (deref (assign st p (with_xy (deref st p) x' y')) r)
  = PlotterMove.z (deref st r).
Proof.
  destruct (Nat.eq_dec p r) as [<-|Hne];
    [|now rewrite deref_assign_other].
  destruct (Nat.lt_ge_cases p (length st)) as [Hlt|Hge].
  - rewrite deref_assign_same by assumption. split; reflexivity.
  - unfold deref. rewrite !nth_overflow; [split; reflexivity|assumption|].
    now rewrite length_assign.
Qed.

Lemma reduce_inplace_frame rest : forall i st acc,
  length (fst (reduce_inplace (S i) st acc rest)) = length st /\
  (exists kept,
     snd (reduce_inplace (S i) st acc rest) = acc ++ kept /\
     Subseq kept rest) /\
  (forall r, ~ In r (snd (reduce_inplace (S i) st acc rest)) ->
             deref (fst (reduce_inplace (S i) st acc rest)) r = deref st r) /\
  (forall r,
     PlotterMove.type (deref (fst (reduce_inplace (S i) st acc rest)) r)
     = PlotterMove.type (deref st r) /\
     PlotterMove.z (deref (fst (reduce_inplace (S i) st acc rest)) r)
     = PlotterMove.z (deref st r)).
Proof.
  induction rest as [|r0 rest IH]; intros i st acc.
  - simpl. split; [reflexivity|]. split.
    + exists []. split; [now rewrite app_nil_r|constructor].
    + split; [reflexivity|]. intros r. split; reflexivity.
  - cbn [reduce_inplace]. unfold merge_inplace. cbn [Nat.eqb].
    destruct (rev acc) as [|p before] eqn:Hrev.
    + destruct (IH (S i) st (acc ++ [r0])) as (Hlen & (kept & Hout & Hsub) & Hfr & Hk).
      cbn [fst snd] in *.
      split; [exact Hlen|]. split.
      * exists (r0 :: kept). split; [now rewrite Hout, <- app_assoc|].
        now constructor.
      * split; assumption.
    + destruct (both_draw (deref st p) (deref st r0)).
      * set (st1 := assign st p (with_xy (deref st p)
                                   (PlotterMove.x (deref st r0))
                                   (PlotterMove.y (deref st r0)))).
        destruct (IH (S i) st1 acc) as (Hlen & (kept & Hout & Hsub) & Hfr & Hk).
        split; [rewrite Hlen; apply length_assign|]. split.
        -- exists kept. split; [exact Hout|now constructor].
        -- split.
           ++ intros r Hr. rewrite (Hfr r Hr). apply deref_assign_other.
              intros ->. apply Hr. rewrite Hout. apply in_or_app. left.
              apply in_rev. rewrite Hrev. now left.
           ++ intros r. destruct (Hk r) as [Ht Hz]. rewrite Ht, Hz.
              apply deref_assign_kind.
      * destruct (IH (S i) st (acc ++ [r0])) as (Hlen & (kept & Hout & Hsub) & Hfr & Hk).
        split; [exact Hlen|]. split.
        -- exists (r0 :: kept). split; [now rewrite Hout, <- app_assoc|].
           now constructor.
        -- split; assumption.
Qed.

Lemma optimize_inplace_frame :
  forall st moves,
    let store := fst (optimizePlotterMoves_inplace st moves) in
    let kept := snd (optimizePlotterMoves_inplace st moves) in
    length store = length st /\
    Subseq kept moves /\
    (forall r, ~ In r kept -> deref store r = deref st r) /\
    (forall r,
       PlotterMove.type (deref store r) = PlotterMove.type (deref st r) /\
       PlotterMove.z (deref store r) = PlotterMove.z (deref st r)).
Proof.
  intros st [|r0 rest]; cbv zeta.
  - simpl. split; [reflexivity|]. split; [constructor|].
    split; [reflexivity|]. intros r. split; reflexivity.
  - unfold optimizePlotterMoves_inplace. cbn [reduce_inplace].
    unfold merge_inplace. cbn [Nat.eqb].
    destruct (reduce_inplace_frame rest 0 st [r0])
      as (Hlen & (kept & Hout & Hsub) & Hfr & Hk).
    split; [exact Hlen|]. split; [|split; assumption].
    rewrite Hout. simpl. now constructor.
Qed.

(** What the pass does to the caller's objects.  It returns some of the
    references it was given, in their order; it writes only into objects
    it returns (a Draw it keeps receives the end point of the Draws it
    drops after it), so every object it drops, and every object that was
    not in the array, is left as it was; and it never changes the kind
    or the pen position of any object. *)
Theorem optimize_inplace_writes_only_kept :
  forall st moves,
    let store := fst (optimizePlotterMoves_inplace st moves) in
    let kept := snd (optimizePlotterMoves_inplace st moves) in
    length store = length st /\
    Subseq kept moves /\
    (forall r, ~ In r kept -> deref store r = deref st r) /\
    (forall r,
       PlotterMove.type (deref store r) = PlotterMove.type (deref st r) /\
       PlotterMove.z (deref store r) = PlotterMove.z (deref st r)).
Proof. exact optimize_inplace_frame. Qed.

(** On an array of distinct objects the pass on the objects returns
    the moves that the pass on their values computes. *)
Theorem optimize_inplace_returns_optimized :
  forall st moves,
    NoDup moves ->
    Forall (fun r => (r < length st)%nat) moves ->
    read (fst (optimizePlotterMoves_inplace st moves))
         (snd (optimizePlotterMoves_inplace st moves))
    = optimizePlotterMoves (read st moves) false.
Proof. exact optimize_inplace_refines. Qed.

Lemma optimize_inplace_returns_optimized_witness :
  read (fst (optimizePlotterMoves_inplace corner [0; 1; 2]%nat))
       (snd (optimizePlotterMoves_inplace corner [0; 1; 2]%nat))
  = [ PlotterMove.mk MoveType.move 0 0 (Some 0);
      PlotterMove.mk MoveType.draw 10 10 (Some (-45)) ] /\
  fst (optimizePlotterMoves_inplace corner [0; 1; 2]%nat)
  = [ PlotterMove.mk MoveType.move 0 0 (Some 0);
      PlotterMove.mk MoveType.draw 10 10 (Some (-45));
      PlotterMove.mk MoveType.draw 10 10 None ].
Proof.
  split; [|reflexivity].
  rewrite (@optimize_inplace_returns_optimized corner [0; 1; 2]%nat).
  - reflexivity.
  - repeat constructor; simpl; intuition discriminate.
  - repeat constructor.
Defined.

(** *** Optimizing the same array again *)

Lemma Subseq_In (A : Type) (l1 l2 : list A) :
  Subseq l1 l2 -> forall a, In a l1 -> In a l2.
Proof.
  induction 1 as [|x l1 l2 _ IH|x l1 l2 _ IH]; intros a Ha.
  - destruct Ha.
  - destruct Ha as [<-|Ha]; [now left|right; now apply IH].
  - right. now apply IH.
Qed.

Lemma assign_twice st : forall p a b,
  assign (assign st p a) p b = assign st p b.
Proof.
  induction st as [|o st IH]; intros [|p] a b; simpl; try reflexivity.
  now rewrite IH.
Qed.

Lemma assign_deref st : forall p, assign st p (deref st p) = st.
Proof.
  unfold deref. induction st as [|o st IH]; intros [|p]; simpl;
    try reflexivity.
  now rewrite IH.
Qed.

Lemma both_draw_kinds a b a' b' :
  PlotterMove.type a = PlotterMove.type a' ->
  PlotterMove.type b = PlotterMove.type b' ->
  both_draw a b = both_draw a' b'.
Proof. unfold both_draw. now intros -> ->. Qed.

(** The store the loop leaves does not depend on the index or on the
    part of the result before its last element. *)
Lemma store_after rest : forall i st before p,
  fst (reduce_inplace (S i) st (before ++ [p]) rest) = written st p rest.
Proof.
  unfold written.
  induction rest as [|r rest IH]; intros i st before p; [reflexivity|].
  cbn [reduce_inplace]. unfold merge_inplace. cbn [Nat.eqb].
  rewrite rev_app_distr. cbn [rev app].
  destruct (both_draw (deref st p) (deref st r)).
  - rewrite (IH (S i) _ before p). symmetry. exact (IH 1%nat _ [] p).
  - rewrite (IH (S i) st (before ++ [p]) r). symmetry.
    exact (IH 1%nat st [p] r).
Qed.

Lemma written_nil st p : written st p [] = st.
Proof. reflexivity. Qed.

Lemma written_cons (st : Store) (p r : Ref) (rest : list Ref) :
  written st p (r :: rest)
  = if both_draw (deref st p) (deref st r)
    then written (assign st p (with_xy (deref st p)
                                 (PlotterMove.x (deref st r))
                                 (PlotterMove.y (deref st r)))) p rest
    else written st r rest.
Proof.
  unfold written at 1. cbn [reduce_inplace]. unfold merge_inplace.
  cbn [Nat.eqb rev app].
  destruct (both_draw (deref st p) (deref st r)).
  - exact (store_after rest 1 _ [] p).
  - exact (store_after rest 1 st [p] r).
Qed.

Lemma written_frame (st : Store) (p : Ref) (rest : list Ref) :
  length (written st p rest) = length st /\
  (forall q, ~ In q (p :: rest) -> deref (written st p rest) q = deref st q) /\
  (forall q,
     PlotterMove.type (deref (written st p rest) q)
     = PlotterMove.type (deref st q) /\
     PlotterMove.z (deref (written st p rest) q) = PlotterMove.z (deref st q)).
Proof.
  unfold written.
  destruct (reduce_inplace_frame rest 0 st [p])
    as (Hlen & (kept & Hout & Hsub) & Hfr & Hk).
  split; [exact Hlen|]. split; [|exact Hk].
  intros q Hq. apply Hfr. rewrite Hout. intros Hin. apply Hq.
  destruct Hin as [<-|Hin]; [now left|right].
  eapply Subseq_In; eassumption.
Qed.

Lemma written_again (rest : list Ref) : forall (st : Store) (p : Ref),
  NoDup (p :: rest) ->
  Forall (fun q => (q < length st)%nat) (p :: rest) ->
  written (written st p rest) p rest = written st p rest /\
  written (assign (written st p rest) p (deref st p)) p rest
  = written st p rest.
Proof.
  induction rest as [|r rest IH]; intros st p ND V.
  - rewrite !written_nil. split; [reflexivity|apply assign_deref].
  - inversion ND as [|? ? Hnp ND']; subst.
    inversion V as [|? ? Hp V']; subst.
    inversion V' as [|? ? Hr0 V'']; subst.
    assert (Hpr : p <> r) by (intros ->; apply Hnp; now left).
    assert (NDp : NoDup (p :: rest)).
    { inversion ND' as [|? ? _ ND'']; subst. constructor; [|assumption].
      intros H. apply Hnp. now right. }
    rewrite (written_cons st p r rest).
    destruct (both_draw (deref st p) (deref st r)) eqn:E.
    + set (v := with_xy (deref st p) (PlotterMove.x (deref st r))
                        (PlotterMove.y (deref st r))).
      set (st1 := assign st p v).
      assert (Hp1 : (p < length st1)%nat)
        by (unfold st1; now rewrite length_assign).
      assert (V1 : Forall (fun q => (q < length st1)%nat) (p :: rest)).
      { constructor; [exact Hp1|]. unfold st1.
        eapply Forall_impl; [|exact V'']. intros q Hq.
        now rewrite length_assign. }
      destruct (IH st1 p NDp V1) as [IH1 IH2].
      destruct (written_frame st1 p rest) as (Hlen & Hfr & Hk).
      set (sigma := written st1 p rest) in *.
      assert (Hv : deref st1 p = v)
        by (unfold st1; now apply deref_assign_same).
      rewrite Hv in IH2.
      assert (Hr : deref sigma r = deref st r).
      { rewrite Hfr.
        - unfold st1. now apply deref_assign_other.
        - intros [H|H]; [congruence|]. inversion ND'; subst. contradiction. }
      assert (Hkp : PlotterMove.type (deref sigma p)
                    = PlotterMove.type (deref st p) /\
                    PlotterMove.z (deref sigma p) = PlotterMove.z (deref st p)).
      { destruct (Hk p) as [-> ->]. rewrite Hv. split; reflexivity. }
      destruct Hkp as [Hkt Hkz].
      split.
      * rewrite (written_cons sigma p r rest), Hr.
        rewrite (both_draw_kinds (deref sigma p) (deref st r)
                   (deref st p) (deref st r) Hkt eq_refl), E.
        replace (with_xy (deref sigma p) (PlotterMove.x (deref st r))
                         (PlotterMove.y (deref st r))) with v; [exact IH2|].
        unfold v, with_xy. now rewrite Hkt, Hkz.
      * rewrite written_cons.
        assert (Hps : (p < length sigma)%nat) by (rewrite Hlen; exact Hp1).
        rewrite (@deref_assign_same sigma p (deref st p) Hps).
        rewrite (@deref_assign_other sigma p r (deref st p) Hpr), Hr, E.
        rewrite assign_twice. exact IH2.
    + destruct (written_frame st r rest) as (Hlen & Hfr & Hk).
      assert (Hsame : deref (written st r rest) p = deref st p).
      { apply Hfr. intros [H|H]; [congruence|]. apply Hnp. now right. }
      assert (L1 : written (written st r rest) p (r :: rest)
                   = written st r rest).
      { rewrite written_cons.
        rewrite (both_draw_kinds (deref (written st r rest) p)
                   (deref (written st r rest) r) (deref st p) (deref st r)
                   (proj1 (Hk p)) (proj1 (Hk r))), E.
        exact (proj1 (IH st r ND' V')). }
      split; [exact L1|].
      rewrite <- Hsame, assign_deref. exact L1.
Qed.

Lemma kept_by_kinds rest : forall i a b acc,
  (forall q, PlotterMove.type (deref a q) = PlotterMove.type (deref b q)) ->
  snd (reduce_inplace i a acc rest) = snd (reduce_inplace i b acc rest).
Proof.
  induction rest as [|r rest IH]; intros i a b acc H; [reflexivity|].
  cbn [reduce_inplace]. unfold merge_inplace.
  destruct (i =? 0)%nat; [now apply IH|].
  destruct (rev acc) as [|p before]; [now apply IH|].
  rewrite (both_draw_kinds (deref a p) (deref a r) (deref b p) (deref b r)
             (H p) (H r)).
  destruct (both_draw (deref b p) (deref b r)); [|now apply IH].
  apply IH. intros q.
  rewrite (proj1 (deref_assign_kind a p _ _ q)),
          (proj1 (deref_assign_kind b p _ _ q)).
  apply H.
Qed.

(** Optimizing the same array a second time changes nothing: called
    again on the array it was given (whose objects it has written
    into), the pass returns the same references and leaves every object
    as it is.  So a sequence that is executed twice is optimized to the
    same moves both times. *)
Theorem optimize_inplace_again_changes_nothing :
  forall st moves,
    NoDup moves ->
    Forall (fun r => (r < length st)%nat) moves ->
    optimizePlotterMoves_inplace
      (fst (optimizePlotterMoves_inplace st moves)) moves
    = optimizePlotterMoves_inplace st moves.
Proof.
  intros st [|p rest] ND V; [reflexivity|].
  unfold optimizePlotterMoves_inplace. cbn [reduce_inplace].
  unfold merge_inplace. cbn [Nat.eqb].
  apply injective_projections.
  - exact (proj1 (@written_again rest st p ND V)).
  - apply kept_by_kinds. intros q.
    exact (proj1 (proj2 (proj2 (written_frame st p rest)) q)).
Qed.

Lemma optimize_inplace_again_changes_nothing_witness :
  optimizePlotterMoves_inplace corner [0; 1; 2]%nat
  = ([ PlotterMove.mk MoveType.move 0 0 (Some 0);
       PlotterMove.mk MoveType.draw 10 10 (Some (-45));
       PlotterMove.mk MoveType.draw 10 10 None ], [0; 1]%nat) /\
  optimizePlotterMoves_inplace
    (fst (optimizePlotterMoves_inplace corner [0; 1; 2]%nat)) [0; 1; 2]%nat
  = optimizePlotterMoves_inplace corner [0; 1; 2]%nat.
Proof.
  split; [reflexivity|].
  apply (@optimize_inplace_again_changes_nothing corner [0; 1; 2]%nat).
  - repeat constructor; simpl; intuition discriminate.
  - repeat constructor.
Defined.

End OptimizerInPlace.

(* ================================================================== *)
(** * From a drawing to a sequence *)
(* ================================================================== *)

Section PreviewPaths.

Import Js Types PathProcessor PathPlanner.
Local Open Scope float_scope.

Lemma located_deref st r :
  Forall (fun m => located m = true) st -> located (deref st r) = true.
Proof.
  intros H. unfold deref.
  destruct (Nat.lt_ge_cases r (length st)) as [Hlt|Hge].
  - rewrite Forall_forall in H. apply H. now apply nth_In.
  - now rewrite nth_overflow.
Qed.

Lemma located_assign st : forall p v,
  Forall (fun m => located m = true) st -> located v = true ->
  Forall (fun m => located m = true) (assign st p v).
Proof.
  induction st as [|o st IH]; intros [|p] v H Hv; simpl;
    try constructor; inversion H; subst; try assumption.
  now apply IH.
Qed.

Lemma located_reduce_inplace rest : forall i st acc,
  Forall (fun m => located m = true) st ->
  Forall (fun m => located m = true) (fst (reduce_inplace i st acc rest)).
Proof.
  induction rest as [|r0 rest IH]; intros i st acc H; [exact H|].
  cbn [reduce_inplace]. unfold merge_inplace.
  destruct (i =? 0)%nat; [now apply IH|].
  destruct (rev acc) as [|p before]; [now apply IH|].
  destruct (both_draw (deref st p) (deref st r0)); [|now apply IH].
  apply IH. apply located_assign; [assumption|].
  pose proof (located_deref r0 H) as Hr. unfold located in *. exact Hr.
Qed.

Lemma preview_pen path :
  PlotterMove.z (preview_move path)
  = Some (if MoveType.eqb (PlotterMove.type (preview_move path)) MoveType.move
          then 0 else -45).
Proof. reflexivity. Qed.

Lemma seq_in_range n : Forall (fun r => (r < n)%nat) (seq 0 n).
Proof. apply Forall_forall. intros r Hr. apply in_seq in Hr. lia. Qed.

Lemma read_all (st : Store) : read st (seq 0 (length st)) = st.
Proof.
  unfold read, deref. apply nth_ext with (d := null_object) (d' := null_object).
  - now rewrite length_map, length_seq.
  - intros n Hn. rewrite length_map, length_seq in Hn.
    rewrite (nth_indep _ null_object (deref st 0%nat)) by
      now rewrite length_map, length_seq.
    rewrite map_nth, seq_nth by assumption. reflexivity.
Qed.

(** The sequence made of a drawing holds the optimized moves of the
    drawing, and in it every Travel move carries pen position 0 and
    every Draw move pen position -45. *)
Theorem convertPreviewPathsToSequence_moves :
  forall paths name,
    let sequence := convertPreviewPathsToSequence paths name in
    PlotterSequence.name sequence = name /\
    PlotterSequence.moves sequence
    = optimizePlotterMoves (map preview_move paths) false /\
    Forall (fun m =>
              PlotterMove.z m
              = Some (if MoveType.eqb (PlotterMove.type m) MoveType.move
                      then 0 else -45))
           (PlotterSequence.moves sequence).
Proof.
  intros paths name. cbv zeta. unfold convertPreviewPathsToSequence.
  pose proof (optimize_inplace_frame
                (map preview_move paths)
                (seq 0 (length (map preview_move paths)))) as Hfr.
  pose proof (@optimize_inplace_refines (map preview_move paths)
                (seq 0 (length (map preview_move paths)))
                (seq_NoDup _ 0) (seq_in_range _)) as Href.
  destruct (optimizePlotterMoves_inplace (map preview_move paths)
              (seq 0 (length (map preview_move paths)))) as [store kept].
  cbn [fst snd PlotterSequence.name PlotterSequence.moves] in *.
  rewrite read_all in Href.
  split; [reflexivity|]. split; [exact Href|].
  destruct Hfr as (_ & Hsub & _ & Hk).
  apply Forall_forall. intros m Hm. unfold read in Hm.
  apply in_map_iff in Hm. destruct Hm as (r & <- & Hr).
  destruct (Hk r) as [-> ->]. unfold deref.
  pose proof (Subseq_In Hsub r Hr) as Hlt. apply in_seq in Hlt.
  assert (Hin : In (nth r (map preview_move paths) null_object)
                   (map preview_move paths)) by (apply nth_In; lia).
  apply in_map_iff in Hin. destruct Hin as (path & <- & _).
  apply preview_pen.
Qed.

(** When the end points of the drawing are numbers, the bounding box of
    the sequence covers every move of the sequence. *)
Theorem convertPreviewPathsToSequence_box_covers :
  forall paths name,
    Forall (fun path => located (preview_move path) = true) paths ->
    let sequence := convertPreviewPathsToSequence paths name in
    Forall (fun m => covers (PlotterSequence.boundingBox sequence) m = true)
           (PlotterSequence.moves sequence).
Proof.
  intros paths name Hloc. cbv zeta. unfold convertPreviewPathsToSequence.
  assert (Hst : Forall (fun m => located m = true) (map preview_move paths)).
  { apply Forall_forall. intros m Hm. apply in_map_iff in Hm.
    destruct Hm as (path & <- & Hin). rewrite Forall_forall in Hloc.
    now apply Hloc. }
  pose proof (optimize_inplace_frame
                (map preview_move paths)
                (seq 0 (length (map preview_move paths)))) as Hfr.
  pose proof (located_reduce_inplace
                (seq 0 (length (map preview_move paths))) 0 [] Hst) as Hloc'.
  fold (optimizePlotterMoves_inplace (map preview_move paths)
          (seq 0 (length (map preview_move paths)))) in Hloc'.
  destruct (optimizePlotterMoves_inplace (map preview_move paths)
              (seq 0 (length (map preview_move paths)))) as [store kept].
  cbn [fst snd PlotterSequence.boundingBox PlotterSequence.moves] in *.
  destruct Hfr as (Hlen & Hsub & _ & _).
  rewrite <- Hlen, read_all.
  destruct kept as [|r0 kept]; [constructor|].
  assert (Hne : store <> []).
  { intros ->. pose proof (Subseq_In Hsub r0 (or_introl eq_refl)) as Hin.
    simpl in Hlen. rewrite <- Hlen in Hin. destruct Hin. }
  destruct (bounding_box_covers Hne Hloc') as [Hcov _].
  apply Forall_forall. intros m Hm. unfold read in Hm.
  apply in_map_iff in Hm. destruct Hm as (r & <- & Hr).
  rewrite Forall_forall in Hcov. apply Hcov.
  pose proof (Subseq_In Hsub r Hr) as Hin. rewrite <- Hlen in Hin.
  apply in_seq in Hin. unfold deref. apply nth_In. lia.
Qed.

Lemma convertPreviewPathsToSequence_box_covers_witness :
  convertPreviewPathsToSequence corner_preview "Manual Drawing"
  = PlotterSequence.mk "Manual Drawing"
      [ PlotterMove.mk MoveType.move 0 0 (Some 0);
        PlotterMove.mk MoveType.draw 0 50 (Some (-45)) ]
      (BoundingBox.mk 0 0 0 50) /\
  Forall (fun m => covers (BoundingBox.mk 0 0 0 50) m = true)
         [ PlotterMove.mk MoveType.move 0 0 (Some 0);
           PlotterMove.mk MoveType.draw 0 50 (Some (-45)) ].
Proof.
  split; [reflexivity|].
  apply (@convertPreviewPathsToSequence_box_covers corner_preview
           "Manual Drawing").
  repeat constructor.
Defined.

End PreviewPaths.

(* ================================================================== *)
(** * Properties of the segment optimizer *)
(* ================================================================== *)

Section SegmentOptimizer.

Import Js Types PathOptimizer.
Local Open Scope float_scope.

Lemma fold_step_weld rest : forall before previous,
  fold_left step rest (before ++ [previous]) = before ++ weld previous rest.
Proof.
  induction rest as [|c rest IH]; intros before previous; simpl;
    [reflexivity|].
  unfold step. rewrite rev_app_distr. simpl.
  destruct (joins previous c).
  - simpl. rewrite rev_involutive. apply IH.
  - rewrite IH, <- app_assoc. reflexivity.
Qed.

Lemma optimizePath_weld first rest :
  optimizePath (first :: rest) false = weld first rest.
Proof.
  unfold optimizePath. destruct rest as [|c rest]; [reflexivity|].
  cbn [length Nat.leb]. exact (fold_step_weld (c :: rest) [] first).
Qed.

Lemma joins_with_end previous e current :
  joins (with_end previous e) current
  = MoveType.eqb (PathSegment.type current) (PathSegment.type previous) &&
    (Point.x (PathSegment.start current) =? Point.x e) &&
    (Point.y (PathSegment.start current) =? Point.y e).
Proof. reflexivity. Qed.

(** The result starts with a segment that has the kind and the start of
    [previous]. *)
Lemma weld_head rest : forall previous,
  exists p tail,
    weld previous rest = p :: tail /\
    PathSegment.type p = PathSegment.type previous /\
    PathSegment.start p = PathSegment.start previous.
Proof.
  induction rest as [|c rest IH]; intros previous; simpl.
  - exists previous, []. repeat split.
  - destruct (joins previous c).
    + destruct (IH (with_end previous (PathSegment.end_ c)))
        as (p & tail & E & Ht & Hs).
      exists p, tail. repeat split; assumption.
    + exists previous, (weld c rest). repeat split.
Qed.

Lemma joins_same_head previous p c :
  PathSegment.type p = PathSegment.type c ->
  PathSegment.start p = PathSegment.start c ->
  joins previous p = joins previous c.
Proof. unfold joins. now intros -> ->. Qed.

Lemma welded_weld rest : forall previous, welded (weld previous rest) = true.
Proof.
  induction rest as [|c rest IH]; intros previous; simpl; [reflexivity|].
  destruct (joins previous c) eqn:E; [apply IH|].
  destruct (weld_head rest c) as (p & tail & Eq & Ht & Hs).
  specialize (IH c). rewrite Eq in *. simpl.
  rewrite (joins_same_head previous p c Ht Hs), E. simpl. exact IH.
Qed.

Lemma weld_welded rest : forall previous,
  welded (previous :: rest) = true -> weld previous rest = previous :: rest.
Proof.
  induction rest as [|c rest IH]; intros previous H; [reflexivity|].
  simpl in H. apply andb_true_iff in H. destruct H as [H1 H2].
  apply negb_true_iff in H1. simpl. rewrite H1. now rewrite IH.
Qed.

Lemma weld_last rest : forall previous d,
  PathSegment.end_ (last (weld previous rest) d)
  = PathSegment.end_ (last (previous :: rest) d).
Proof.
  induction rest as [|c rest IH]; intros previous d; [reflexivity|].
  simpl weld. destruct (joins previous c).
  - rewrite (IH (with_end previous (PathSegment.end_ c))).
    destruct rest; reflexivity.
  - destruct (weld_head rest c) as (p & tail & Eq & _).
    specialize (IH c d). rewrite Eq in *.
    change (last (previous :: p :: tail) d) with (last (p :: tail) d).
    rewrite IH. reflexivity.
Qed.

Lemma weld_length rest : forall previous,
  (length (weld previous rest) <= S (length rest))%nat.
Proof.
  induction rest as [|c rest IH]; intros previous; simpl; [lia|].
  destruct (joins previous c); simpl.
  - specialize (IH (with_end previous (PathSegment.end_ c))). lia.
  - specialize (IH c). lia.
Qed.

Lemma last_cons (A : Type) (l : list A) : forall a d,
  last (a :: l) d = last l a.
Proof.
  induction l as [|b l IH]; intros a d; [reflexivity|].
  change (last (a :: b :: l) d) with (last (b :: l) d). now rewrite !IH.
Qed.

Lemma last_map (A B : Type) (f : A -> B) (l : list A) : forall a,
  last (map f l) (f a) = f (last l a).
Proof.
  induction l as [|b l IH]; intros a; [reflexivity|].
  cbn [map]. rewrite !last_cons. apply IH.
Qed.

Lemma optimizePath_last first rest (pos : number * number) d :
  last (map (fun s => (Point.x (PathSegment.end_ s),
                       Point.y (PathSegment.end_ s)))
            (optimizePath (first :: rest) false)) pos
  = (Point.x (PathSegment.end_ (last (first :: rest) d)),
     Point.y (PathSegment.end_ (last (first :: rest) d))).
Proof.
  rewrite optimizePath_weld.
  pose proof (weld_last rest first d) as Hl.
  destruct (weld_head rest first) as (p & tail & Eq & _). rewrite Eq in *.
  set (f := fun s => (Point.x (PathSegment.end_ s),
                      Point.y (PathSegment.end_ s))).
  cbn [map]. rewrite last_cons, last_map, <- (last_cons tail p d).
  unfold f. now rewrite Hl.
Qed.

(** [optimizePath] outside simulation mode: the path it returns begins
    where the given path begins, with a segment of the same kind, and
    ends where the given path ends; it is empty only for an empty path
    and never longer than the given one; no two neighbours in it can be
    combined any further, so optimizing it again changes nothing. *)
Theorem optimizePath_keeps_ends_and_is_idempotent :
  forall segments d,
    let o := optimizePath segments false in
    (o = [] <-> segments = []) /\
    (length o <= length segments)%nat /\
    PathSegment.start (hd d o) = PathSegment.start (hd d segments) /\
    PathSegment.type (hd d o) = PathSegment.type (hd d segments) /\
    PathSegment.end_ (last o d) = PathSegment.end_ (last segments d) /\
    welded o = true /\
    optimizePath o false = o.
Proof.
  intros [|first rest] d; cbv zeta.
  - repeat split; reflexivity.
  - rewrite optimizePath_weld.
    destruct (weld_head rest first) as (p & tail & Eq & Ht & Hs).
    pose proof (welded_weld rest first) as Hw.
    pose proof (weld_last rest first d) as Hl.
    pose proof (weld_length rest first) as Hn.
    rewrite Eq in *. split; [split; discriminate|].
    split; [exact Hn|]. split; [exact Hs|]. split; [exact Ht|].
    split; [exact Hl|]. split; [exact Hw|].
    rewrite optimizePath_weld. now apply weld_welded.
Qed.

End SegmentOptimizer.

(* ================================================================== *)
(** * More about the Path Executor *)
(* ================================================================== *)

Section ExecutorRuns.

Import Js Types PathExecutor.
Local Open Scope float_scope.

Ltac answer :=
  match goal with
  | |- context [rotateByDegrees ?t ?p ?d ?s ?st] =>
      let r := fresh "r" in
      let E := fresh "E" in
      destruct (rotateByDegrees_run t p d s st) as (r & E);
      rewrite E; clear E; destruct r; simpl
  end.

(** *** Where the executor thinks the pen is *)

Lemma executeMove_position this move st :
  match fst (executeMove this move st) with
  | Ok _ => position (snd (executeMove this move st)) = PathProcessor.point move
  | Throw _ => position (snd (executeMove this move st)) = position st
  end.
Proof.
  unfold executeMove, all2, bind, get, ret, setPosition, position.
  destruct (PlotterMove.z move) as [z|]; simpl.
  - answer; try reflexivity. answer; answer; reflexivity.
  - answer; answer; reflexivity.
Qed.

Lemma executeMoves_position this onProgress total moves : forall i st,
  fst (executeMoves this onProgress total i moves st) = Ok tt ->
  position (snd (executeMoves this onProgress total i moves st))
  = last (PathProcessor.trace moves) (position st).
Proof.
  induction moves as [|move rest IH]; intros i st; [reflexivity|].
  cbn [executeMoves PathProcessor.trace map]. rewrite last_cons.
  unfold bind.
  assert (Hstep :
    match fst ((if simulationMode this then simulateMove move
                else executeMove this move) st) with
    | Ok _ => position (snd ((if simulationMode this then simulateMove move
                              else executeMove this move) st))
              = PathProcessor.point move
    | Throw _ => True
    end).
  { destruct (simulationMode this); [reflexivity|].
    pose proof (executeMove_position this move st) as H.
    destruct (fst (executeMove this move st)); [exact H|exact I]. }
  destruct ((if simulationMode this then simulateMove move
             else executeMove this move) st) as [[[]|e] st1];
    cbn [fst snd] in *; [|discriminate].
  destruct onProgress; cbn [record ret fst snd].
  - intros H. rewrite (IH _ _ H). unfold position in *. simpl.
    now rewrite <- Hstep.
  - intros H. rewrite (IH _ _ H). now rewrite <- Hstep.
Qed.

(** When [executeSequence] returns, the tracked position is the end
    point of the last move of the sequence as it was given (the
    optimizer never drops the last point), in simulation mode and
    outside it. *)
Theorem executeSequence_ends_at_last_move :
  forall this sequence onProgress st d,
    PlotterSequence.moves sequence <> [] ->
    fst (executeSequence this sequence onProgress st) = Ok tt ->
    getCurrentPosition (snd (executeSequence this sequence onProgress st))
    = Point.mk (PlotterMove.x (last (PlotterSequence.moves sequence) d))
               (PlotterMove.y (last (PlotterSequence.moves sequence) d)).
Proof.
  intros this sequence onProgress st d Hne. unfold executeSequence.
  destruct (negb _); [discriminate|].
  destruct (PlotterSequence.moves sequence) as [|m rest]; [congruence|].
  clear Hne. rewrite optimize_cons. unfold bind.
  pose proof (@executeMoves_position this onProgress
                (of_nat (length (PathProcessor.absorb m rest))) 
                (PathProcessor.absorb m rest) 0 st) as Hpos.
  destruct (executeMoves this onProgress _ 0 (PathProcessor.absorb m rest) st)
    as [[[]|e] st1]; cbn [fst snd] in *; [|discriminate].
  specialize (Hpos eq_refl).
  rewrite (trace_absorb_last rest m (position st)) in Hpos.
  assert (Hlast : last (PathProcessor.trace (m :: rest)) (position st)
                  = PathProcessor.point (last (m :: rest) d)).
  { clear. revert m. induction rest as [|m' rest IH]; intros m; [reflexivity|].
    change (last (PathProcessor.trace (m :: m' :: rest)) (position st))
      with (last (PathProcessor.trace (m' :: rest)) (position st)).
    change (last (m :: m' :: rest) d) with (last (m' :: rest) d). apply IH. }
  rewrite Hlast in Hpos. unfold position, PathProcessor.point in Hpos.
  injection Hpos as Hx Hy.
  destruct (negb (simulationMode this)); cbn [ret fst snd].
  - destruct (rotateByDegrees_run this Hub.C 0 30 st1) as (r & ->).
    intros _. unfold getCurrentPosition. cbn [snd currentX currentY].
    now rewrite Hx, Hy.
  - intros _. unfold getCurrentPosition. now rewrite Hx, Hy.
Qed.

Lemma executeSequence_ends_at_last_move_witness :
  fst (executeSequence steady_executor one_stroke true initial) = Ok tt /\
  getCurrentPosition (snd (executeSequence steady_executor one_stroke true initial))
  = Point.mk 30 0.
Proof.
  assert (R : fst (executeSequence steady_executor one_stroke true initial)
              = Ok tt) by (vm_compute; reflexivity).
  split; [exact R|].
  apply (@executeSequence_ends_at_last_move steady_executor one_stroke true
           initial (PlotterMove.mk MoveType.move 0 0 None));
    [discriminate|exact R].
Defined.

(** *** The executor as the page constructs it *)

(** An executor constructed without a validator of its own, outside
    simulation mode, validates against the default bounds; it therefore
    rejects every sequence that has a move, whatever the plotter, the
    calibration and the speeds, and sends nothing to the plotter. *)
Theorem default_executor_rejects_every_sequence :
  forall plotter settings moveSpeed drawSpeed sequence onProgress st,
    PlotterSequence.moves sequence <> [] ->
    exists reason,
      executeSequence (new plotter settings false moveSpeed drawSpeed None)
                      sequence onProgress st
      = (Throw (Lit "Invalid sequence: " :: reason), st).
Proof.
  intros plotter settings moveSpeed drawSpeed sequence onProgress st Hne.
  unfold executeSequence, new. cbn [validator].
  destruct (default_bounds_reject
              (SimpleCalibration.mk (degreesPerMM_X settings)
                                    (degreesPerMM_Y settings))
              sequence Hne) as [H|(m & rest & _ & H)];
    rewrite H; cbn; eexists; reflexivity.
Qed.

Lemma default_executor_rejects_every_sequence_witness :
  executeSequence (default_executor steady_plotter false) one_stroke true initial
  = (Throw [Lit "Invalid sequence: "; Lit "Invalid move at ("; Num 30;
            Lit ", "; Num 0; Lit "): "; Lit "Position is in danger zone"],
     initial).
Proof.
  destruct (@default_executor_rejects_every_sequence steady_plotter
              (mkSettings 10 10 148 210) 50 30 one_stroke true initial)
    as (reason & H); [discriminate|].
  unfold default_executor. rewrite H.
  assert (E : fst (executeSequence
                     (new steady_plotter (mkSettings 10 10 148 210) false 50 30 None)
                     one_stroke true initial)
              = Throw [Lit "Invalid sequence: "; Lit "Invalid move at (";
                       Num 30; Lit ", "; Num 0; Lit "): ";
                       Lit "Position is in danger zone"])
    by (vm_compute; reflexivity).
  rewrite H in E. cbn [fst] in E. now rewrite E.
Defined.

(** *** Simulation mode *)




(** *** Both axes or neither *)

Ltac entries_added :=
  simpl; rewrite <- ?app_assoc; simpl;
  eexists; split; [reflexivity|]; simpl.

Lemma paired_app l1 l2 : paired l1 -> paired l2 -> paired (l1 ++ l2).
Proof.
  unfold paired. intros H1 H2. now rewrite !filter_app, !length_app, H1, H2.
Qed.

Lemma executeMove_paired this move st :
  adds (executeMove this move) st (fun _ added => paired added).
Proof.
  unfold adds, executeMove, all2, bind, get, ret, setPosition.
  destruct (PlotterMove.z move) as [z|]; simpl.
  - answer; [|entries_added; reflexivity..].
    answer; answer; entries_added; reflexivity.
  - answer; answer; entries_added; reflexivity.
Qed.

Lemma executeMoves_paired this onProgress total moves : forall i st,
  adds (executeMoves this onProgress total i moves) st
       (fun _ added => paired added).
Proof.
  induction moves as [|move rest IH]; intros i st.
  - exists []. simpl. rewrite app_nil_r. split; reflexivity.
  - simpl executeMoves.
    apply adds_bind
      with (P := fun _ added => paired added)
           (Q := fun _ added => paired added).
    + destruct (simulationMode this); [|apply executeMove_paired].
      eexists [_]. split; reflexivity.
    + intros st1.
      apply adds_bind
        with (P := fun _ added => paired added)
             (Q := fun _ added => paired added).
      * destruct onProgress.
        -- eexists [_]. split; reflexivity.
        -- exists []. simpl. rewrite app_nil_r. split; reflexivity.
      * intros st2. apply IH.
      * intros a1 a2 r. apply paired_app.
      * intros e a1 H. exact H.
    + intros a1 a2 r. apply paired_app.
    + intros e a1 H. exact H.
Qed.

(** Every move rotates both axes or neither: whatever the plotter
    answers and however [executeSequence] ends, it has made as many
    calls to port B as to port A (the two rotations of a move are
    started together, also when the first of them fails; when the pen
    command of a move fails, neither is started). *)
Theorem executeSequence_rotates_axes_in_pairs :
  forall this sequence onProgress st,
    exists added,
      log (snd (executeSequence this sequence onProgress st)) = log st ++ added /\
      length (filter (on_port Hub.B) added)
      = length (filter (on_port Hub.A) added).
Proof.
  intros this sequence onProgress st.
  change (adds (executeSequence this sequence onProgress) st
               (fun _ added => paired added)).
  unfold executeSequence. destruct (negb _).
  - exists []. simpl. rewrite app_nil_r. split; reflexivity.
  - apply adds_bind
      with (P := fun _ added => paired added)
           (Q := fun _ added => paired added).
    + apply executeMoves_paired.
    + intros st1. destruct (negb (simulationMode this)).
      * unfold adds.
        destruct (rotateByDegrees_run this Hub.C 0 30 st1) as (r & ->).
        entries_added. reflexivity.
      * exists []. simpl. rewrite app_nil_r. split; reflexivity.
    + intros a1 a2 r. apply paired_app.
    + intros e a1 H. exact H.
Qed.

(** *** Paths of segments *)

Ltac find_failure :=
  first
    [ eexists [], _, []; repeat split;
      solve [reflexivity | repeat constructor]
    | eexists [_], _, []; repeat split;
      solve [reflexivity | repeat constructor]
    | eexists [_], _, [_]; repeat split;
      solve [reflexivity | repeat constructor]
    | eexists [_; _], _, []; repeat split;
      solve [reflexivity | repeat constructor] ].

Lemma executePathSegment_adds this segment st :
  adds (executePathSegment this segment) st segment_outcome.
Proof.
  unfold adds, executePathSegment, all2, bind, get, ret, setPosition.
  answer; [|entries_added; find_failure..].
  answer; answer; entries_added; try find_failure.
  split; [repeat constructor|repeat split].
Qed.

Lemma carried_out_app n1 n2 l1 l2 :
  carried_out n1 l1 -> carried_out n2 l2 -> carried_out (n1 + n2) (l1 ++ l2).
Proof.
  intros (C1 & P1 & B1 & A1 & L1) (C2 & P2 & B2 & A2 & L2).
  split; [now apply clean_app|].
  unfold pen_commands, moves_done, cross_moves in *.
  rewrite !filter_app, !length_app, P1, P2, B1, B2, A1, A2, L1, L2.
  repeat split. lia.
Qed.

Lemma executeSegments_adds this segments :
  simulationMode this = false ->
  forall st,
    adds (executeSegments this segments) st
         (segments_outcome (length segments)).
Proof.
  intros Hsim. induction segments as [|segment rest IH]; intros st.
  - exists []. simpl. rewrite app_nil_r. repeat split. constructor.
  - simpl executeSegments. rewrite Hsim.
    apply adds_bind
      with (P := segment_outcome) (Q := segments_outcome (length rest)).
    + apply executePathSegment_adds.
    + intros st1. apply IH.
    + intros a1 a2 r O1 O2. destruct r; cbn [segment_outcome segments_outcome] in *.
      * exact (carried_out_app O1 O2).
      * destruct O1 as (C1 & _). now apply stopped_app.
    + intros e a1 H. exact H.
Qed.

Lemma executePathSegment_position this segment st :
  match fst (executePathSegment this segment st) with
  | Ok _ =>
      position (snd (executePathSegment this segment st))
      = (Point.x (PathSegment.end_ segment), Point.y (PathSegment.end_ segment))
  | Throw _ => True
  end.
Proof.
  unfold executePathSegment, all2, bind, get, ret, setPosition, position.
  answer; try exact I. answer; answer; try exact I. reflexivity.
Qed.

Lemma executeSegments_position this segments : forall st,
  fst (executeSegments this segments st) = Ok tt ->
  position (snd (executeSegments this segments st))
  = last (map (fun s => (Point.x (PathSegment.end_ s),
                         Point.y (PathSegment.end_ s))) segments)
         (position st).
Proof.
  induction segments as [|segment rest IH]; intros st; [reflexivity|].
  cbn [executeSegments map]. rewrite last_cons. unfold bind.
  assert (Hstep :
    match fst ((if simulationMode this then simulatePathSegment segment
                else executePathSegment this segment) st) with
    | Ok _ => position (snd ((if simulationMode this
                              then simulatePathSegment segment
                              else executePathSegment this segment) st))
              = (Point.x (PathSegment.end_ segment),
                 Point.y (PathSegment.end_ segment))
    | Throw _ => True
    end).
  { destruct (simulationMode this); [reflexivity|].
    apply executePathSegment_position. }
  destruct ((if simulationMode this then simulatePathSegment segment
             else executePathSegment this segment) st) as [[[]|e] st1];
    cbn [fst snd] in *; [|discriminate].
  intros H. rewrite (IH _ H). now rewrite Hstep.
Qed.

(** [executePath] outside simulation mode.  When every call succeeds,
    each segment of the optimized path has been given one pen command
    (port C), one rotation of port B and one rotation of port A, and
    nothing else was done for the segments: with [n] segments in the
    optimized path these are [3 n] calls, [n] to each port; the last
    call of all has sent the pen axis to 0 at speed 30, and the tracked
    position is the end of the last segment of the path as it was
    given.  When it rethrows, a call has failed and nothing was
    commanded after it (but the port A rotation made together with a
    failed port B rotation). *)
Theorem executePath_pen_up_after_last_segment :
  forall this segments st d,
    simulationMode this = false ->
    exists added,
      log (snd (executePath this segments st)) = log st ++ added /\
      match fst (executePath this segments st) with
      | Ok _ =>
          (exists l,
             added = l ++ [Rotated (mkCall Hub.C 0 30) Done] /\
             clean l /\
             pen_commands l = length (PathOptimizer.optimizePath segments false) /\
             moves_done l = length (PathOptimizer.optimizePath segments false) /\
             cross_moves l = length (PathOptimizer.optimizePath segments false) /\
             length l
             = (3 * length (PathOptimizer.optimizePath segments false))%nat) /\
          (segments <> [] ->
           getCurrentPosition (snd (executePath this segments st))
           = PathSegment.end_ (last segments d))
      | Throw _ => stopped added
      end.
Proof.
  intros this segments st d Hsim.
  assert (Hpos : fst (executePath this segments st) = Ok tt ->
                 segments <> [] ->
                 getCurrentPosition (snd (executePath this segments st))
                 = PathSegment.end_ (last segments d)).
  { unfold executePath. rewrite Hsim. cbn [negb]. unfold bind.
    pose proof (executeSegments_position this
                  (PathOptimizer.optimizePath segments false) st) as Hp.
    destruct (executeSegments this _ st) as [[[]|e] st1];
      cbn [fst snd] in *; [|discriminate].
    destruct (rotateByDegrees_run this Hub.C 0 30 st1) as (r & ->).
    cbn [fst snd]. intros _ Hne.
    specialize (Hp eq_refl).
    destruct segments as [|first rest]; [congruence|].
    rewrite (optimizePath_last first rest (position st) d) in Hp.
    set (e := PathSegment.end_ (last (first :: rest) d)) in *.
    unfold getCurrentPosition. cbn [currentX currentY].
    unfold position in Hp. injection Hp as -> ->.
    now destruct e. }
  assert (Hlog : adds (executePath this segments) st
                   (fun r added =>
                      match r with
                      | Ok _ =>
                          exists l,
                            added = l ++ [Rotated (mkCall Hub.C 0 30) Done] /\
                            carried_out
                              (length (PathOptimizer.optimizePath segments false))
                              l
                      | Throw _ => stopped added
                      end)).
  { unfold executePath. rewrite Hsim. cbn [negb].
    apply adds_bind
      with (P := segments_outcome
                   (length (PathOptimizer.optimizePath segments false)))
           (Q := fun r a =>
                   match r with
                   | Ok _ => a = [Rotated (mkCall Hub.C 0 30) Done]
                   | Throw _ => stopped a
                   end).
    - now apply executeSegments_adds.
    - intros st1. unfold adds.
      destruct (rotateByDegrees_run this Hub.C 0 30 st1) as (r & ->).
      destruct r; entries_added; try reflexivity; find_failure.
    - intros a1 a2 r O1 O2. destruct r.
      + subst a2. exists a1. split; [reflexivity|exact O1].
      + destruct O1 as (C1 & _). now apply stopped_app.
    - intros e a1 H. exact H. }
  destruct Hlog as (added & Hl & Hr). exists added. split; [exact Hl|].
  destruct (fst (executePath this segments st)) as [[]|e]; [|exact Hr].
  split; [exact Hr|]. now apply Hpos.
Qed.

Lemma executePath_pen_up_after_last_segment_witness :
  fst (executePath steady_executor PathOptimizer.two_strokes initial) = Ok tt /\
  map is_pen_up
      (log (snd (executePath steady_executor PathOptimizer.two_strokes initial)))
  = [false; false; false; true] /\
  map (on_port Hub.A)
      (log (snd (executePath steady_executor PathOptimizer.two_strokes initial)))
  = [false; false; true; false] /\
  getCurrentPosition
    (snd (executePath steady_executor PathOptimizer.two_strokes initial))
  = Point.mk 10 10.
Proof.
  assert (R : fst (executePath steady_executor PathOptimizer.two_strokes initial)
              = Ok tt) by (vm_compute; reflexivity).
  split; [exact R|].
  destruct (@executePath_pen_up_after_last_segment steady_executor
              PathOptimizer.two_strokes initial
              (PathSegment.mk MoveType.move (Point.mk 0 0) (Point.mk 0 0))
              eq_refl) as (added & Hl & H).
  rewrite R in H. destruct H as [_ Hp].
  split; [vm_compute; reflexivity|]. split; [vm_compute; reflexivity|].
  apply Hp. discriminate.
Defined.

End ExecutorRuns.

(* ================================================================== *)
(** * More about the Safety Controller *)
(* ================================================================== *)

Section SafetyChecks.

Import Js SafetyController.
Local Open Scope float_scope.

Lemma violations_handled_app l1 l2 :
  violations_handled (l1 ++ l2)
  = (violations_handled l1 + violations_handled l2)%nat.
Proof. unfold violations_handled. now rewrite filter_app, length_app. Qed.

Lemma violations_handled_brakes l : violations_handled (map Brake l) = 0%nat.
Proof. induction l; [reflexivity|assumption]. Qed.

(** One call of [handleViolation]. *)
Lemma handleViolation_effect port reason value s :
  violations_handled (log (handleViolation port reason value s))
  = S (violations_handled (log s)) /\
  violation_stops (log (handleViolation port reason value s))
  = (violation_stops (log s) + if stopRequested s then 0 else 1)%nat /\
  stopRequested (handleViolation port reason value s) = true.
Proof.
  destruct (stopRequested s) eqn:E.
  - unfold handleViolation. simpl. rewrite E. simpl.
    rewrite !violations_handled_app, !violation_stops_app.
    unfold violations_handled, violation_stops. simpl.
    repeat split; try assumption; lia.
  - destruct (handleViolation_triggers port reason value s E) as (Hreq & _ & Hlog).
    rewrite Hlog, !violations_handled_app, !violation_stops_app,
            violations_handled_brakes, violation_stops_brakes.
    unfold violations_handled, violation_stops. simpl.
    repeat split; try assumption; lia.
Qed.

(** One test of [checkLimits]. *)
Lemma test_effect (c : bool) port reason value s :
  violations_handled
    (log (if c then handleViolation port reason value s else s))
  = (violations_handled (log s) + if c then 1 else 0)%nat /\
  violation_stops (log (if c then handleViolation port reason value s else s))
  = (violation_stops (log s)
     + if c && negb (stopRequested s) then 1 else 0)%nat /\
  stopRequested (if c then handleViolation port reason value s else s)
  = stopRequested s || c.
Proof.
  destruct c.
  - destruct (handleViolation_effect port reason value s) as (-> & -> & ->).
    destruct (stopRequested s); simpl; repeat split; lia.
  - rewrite orb_false_r. simpl. repeat split; lia.
Qed.

(** One call of [checkLimits] reports every limit that is exceeded, by
    one call of [handleViolation] each, and stops the motors at most
    once: it triggers an emergency stop iff some limit is exceeded and
    no stop was requested before, and afterwards the stop is requested
    iff it was before or some limit is exceeded. *)
Theorem checkLimits_reports_each_and_stops_once :
  forall port status s,
    let tests := out_of_range (limits s port) status in
    let s' := checkLimits port status s in
    violations_handled (log s')
    = (violations_handled (log s) + length (filter (fun c => c) tests))%nat /\
    violation_stops (log s')
    = (violation_stops (log s)
       + if existsb (fun c => c) tests && negb (stopRequested s)
         then 1 else 0)%nat /\
    stopRequested s' = stopRequested s || existsb (fun c => c) tests.
Proof.
  intros port status s. cbv zeta. unfold checkLimits, out_of_range.
  cbv zeta.
  set (c1 := currentPosition status <? minDegrees (limits s port)).
  set (c2 := maxDegrees (limits s port) <? currentPosition status).
  set (c3 := maxSpeed (limits s port) <? abs (speed status)).
  set (c4 := maxCurrent (limits s port) <? current status).
  set (c5 := maxTemperature (limits s port) <? temperature status).
  set (c6 := maxMotorLoad (limits s port) <? load status).
  set (s1 := if c1 then handleViolation port "Position below minimum limit"
                          (currentPosition status) s else s).
  set (s2 := if c2 then handleViolation port "Position above maximum limit"
                          (currentPosition status) s1 else s1).
  set (s3 := if c3 then handleViolation port "Speed exceeds maximum limit"
                          (speed status) s2 else s2).
  set (s4 := if c4 then handleViolation port "Current draw too high"
                          (current status) s3 else s3).
  set (s5 := if c5 then handleViolation port "Temperature too high"
                          (temperature status) s4 else s4).
  destruct (test_effect c1 port "Position below minimum limit"
              (currentPosition status) s) as (H1 & V1 & R1).
  destruct (test_effect c2 port "Position above maximum limit"
              (currentPosition status) s1) as (H2 & V2 & R2).
  destruct (test_effect c3 port "Speed exceeds maximum limit"
              (speed status) s2) as (H3 & V3 & R3).
  destruct (test_effect c4 port "Current draw too high"
              (current status) s3) as (H4 & V4 & R4).
  destruct (test_effect c5 port "Temperature too high"
              (temperature status) s4) as (H5 & V5 & R5).
  destruct (test_effect c6 port "Motor load too high"
              (load status) s5) as (H6 & V6 & R6).
  fold s1 in H1, V1, R1. fold s2 in H2, V2, R2. fold s3 in H3, V3, R3.
  fold s4 in H4, V4, R4. fold s5 in H5, V5, R5.
  rewrite H6, V6, R6, H5, V5, R5, H4, V4, R4, H3, V3, R3, H2, V2, R2,
          H1, V1, R1.
  clearbody c1 c2 c3 c4 c5 c6. clear.
  destruct (stopRequested s), c1, c2, c3, c4, c5, c6; simpl;
    repeat split; lia.
Qed.

Lemma tests_of_no_reading l :
  out_of_range l no_reading = [false; false; false; false; false; false].
Proof.
  unfold out_of_range, no_reading. cbn [currentPosition speed current
                                        temperature load].
  change (abs nan) with nan. now rewrite !ltb_nan_l, !ltb_nan_r.
Qed.

Lemma tests_of_no_limits status :
  out_of_range no_limits status = [false; false; false; false; false; false].
Proof.
  unfold out_of_range, no_limits. cbn [minDegrees maxDegrees maxSpeed
                                       maxCurrent maxTemperature maxMotorLoad].
  now rewrite !ltb_nan_l, !ltb_nan_r.
Qed.

Lemma checkLimits_all_within port status s :
  out_of_range (limits s port) status
  = [false; false; false; false; false; false] ->
  checkLimits port status s = s.
Proof.
  unfold out_of_range, checkLimits. cbv zeta. intros H.
  injection H as -> -> -> -> -> ->. reflexivity.
Qed.

(** Every comparison with NaN is false.  So a reading that is not a
    number in any field is never out of range, whatever the limits are,
    and limits that are not numbers are never exceeded, whatever is
    read: in both cases [checkLimits] does nothing at all. *)
Theorem nan_raises_no_violation :
  forall port s,
    checkLimits port no_reading s = s /\
    (forall status,
       limits s port = no_limits -> checkLimits port status s = s).
Proof.
  intros port s. split.
  - apply checkLimits_all_within, tests_of_no_reading.
  - intros status H. apply checkLimits_all_within. rewrite H.
    apply tests_of_no_limits.
Qed.

End SafetyChecks.

Section SafetyMonitoring.

Import Js SafetyController.
Local Open Scope float_scope.

Lemma monitoring_emergencyStop who s :
  monitoringInterval (emergencyStop who s) = false.
Proof.
  unfold emergencyStop, stopMonitoring.
  destruct (monitoringInterval s) eqn:E; simpl; [reflexivity|exact E].
Qed.

Lemma monitoring_handleViolation port reason value s :
  monitoringInterval s = false ->
  monitoringInterval (handleViolation port reason value s) = false.
Proof.
  intros H. unfold handleViolation, notifyViolation, observe.
  cbn [stopRequested]. destruct (stopRequested s); cbn [negb];
    [exact H|apply monitoring_emergencyStop].
Qed.

Lemma monitoring_checkLimits port status s :
  monitoringInterval s = false ->
  monitoringInterval (checkLimits port status s) = false.
Proof.
  intros H. unfold checkLimits. cbv zeta.
  repeat match goal with
         | |- monitoringInterval (if ?c then _ else _) = false => destruct c
         | |- monitoringInterval (handleViolation _ _ _ _) = false =>
             apply monitoring_handleViolation
         end; assumption.
Qed.

Lemma monitoring_step s e s' :
  monitoringInterval s = false -> e <> StartMonitoring ->
  step s e = Some s' -> monitoringInterval s' = false.
Proof.
  intros H Hne St. destruct e; simpl in St; try congruence.
  - injection St as <-. unfold stopMonitoring. now rewrite H.
  - rewrite H in St. discriminate.
  - injection St as <-. now apply monitoring_checkLimits.
  - injection St as <-. exact H.
  - injection St as <-. apply monitoring_emergencyStop.
  - destruct (find_stop i s) as [x|]; [|discriminate].
    destruct (has_port port (braking x)); [|discriminate].
    injection St as <-. now destruct failure.
  - destruct (find_stop i s) as [x|]; [|discriminate].
    destruct (braking x); [|discriminate]. injection St as <-. exact H.
  - destruct (_ && _); [|discriminate]. injection St as <-. exact H.
  - injection St as <-. unfold updateLimits. cbn [negb].
    now destruct (port_named port).
  - injection St as <-. exact H.
  - destruct (0 <=? dt)%Z; [|discriminate]. injection St as <-. exact H.
Qed.

Lemma monitoring_run tr : forall s s',
  monitoringInterval s = false -> ~ In StartMonitoring tr ->
  run s tr = Some s' -> monitoringInterval s' = false.
Proof.
  induction tr as [|e tr IH]; intros s s' H Hn R; simpl in R.
  - now injection R as <-.
  - destruct (step s e) as [s1|] eqn:St; [|discriminate].
    apply (IH s1); [|intros Hin; apply Hn; now right|assumption].
    eapply monitoring_step; [exact H| |exact St].
    intros ->. apply Hn. now left.
Qed.

(** An emergency stop switches the monitoring off, and nothing the
    controller does switches it on again: after a stop, whoever called
    it, the limits are no longer checked periodically (not when the stop
    has returned, and not when the cool-down timer has reset the stop
    request) until [startMonitoring] is called from outside. *)
Theorem monitoring_stays_off_after_emergencyStop :
  forall who s tr s',
    ~ In StartMonitoring tr ->
    run (emergencyStop who s) tr = Some s' ->
    monitoringInterval s' = false.
Proof.
  intros who s tr s' Hn R.
  eapply monitoring_run; [apply monitoring_emergencyStop|exact Hn|exact R].
Qed.

Lemma monitoring_stays_off_after_emergencyStop_witness :
  option_map (fun s => (monitoringInterval s, stops s))
             (run (emergencyStop Outside
                     (startMonitoring (new (fun _ => true) 0)))
                  after_stop)
  = Some (false, 2%nat).
Proof.
  assert (N : ~ In StartMonitoring after_stop).
  { unfold after_stop. simpl. intuition discriminate. }
  assert (F : option_map stops
                (run (emergencyStop Outside
                        (startMonitoring (new (fun _ => true) 0)))
                     after_stop)
              = Some 2%nat) by (vm_compute; reflexivity).
  destruct (run (emergencyStop Outside
                   (startMonitoring (new (fun _ => true) 0)))
                after_stop) as [s'|] eqn:R; [|discriminate].
  cbn [option_map] in *. injection F as F.
  rewrite (@monitoring_stays_off_after_emergencyStop _ _ _ _ N R), F.
  reflexivity.
Defined.

(** In every state the controller can reach, at most one thing started
    by a violation is pending: the emergency stop it triggered, or, once
    that has returned, the timer that resets the stop request; and
    while no stop is requested, nothing of the kind is pending. *)
Theorem one_violation_stop_at_a_time :
  forall hub t0 tr s,
    run (new hub t0) tr = Some s ->
    (violation_stopping s + length (timers s) <= 1)%nat /\
    (stopRequested s = false -> violation_stopping s = 0%nat /\ timers s = []).
Proof.
  intros hub t0 tr s R.
  assert (G : Guarded s) by (eapply Guarded_run; [apply Guarded_new|exact R]).
  unfold Guarded in G. split.
  - destruct (stopRequested s); lia.
  - intros H. rewrite H in G. split; [lia|].
    destruct (timers s); [reflexivity|simpl in G; lia].
Qed.

Lemma one_violation_stop_at_a_time_witness :
  exists s,
    run (new (fun _ => true) 0)
        [StartMonitoring; Observed Hub.A overheated; Observed Hub.B overheated]
    = Some s /\
    violation_stopping s = 1%nat /\ timers s = [].
Proof.
  destruct (run (new (fun _ => true) 0)
                [StartMonitoring; Observed Hub.A overheated;
                 Observed Hub.B overheated]) as [s|] eqn:R;
    [|vm_compute in R; discriminate].
  exists s. split; [reflexivity|].
  assert (V : option_map violation_stopping
                (run (new (fun _ => true) 0)
                     [StartMonitoring; Observed Hub.A overheated;
                      Observed Hub.B overheated]) = Some 1%nat)
    by (vm_compute; reflexivity).
  rewrite R in V. injection V as V.
  destruct (@one_violation_stop_at_a_time _ _ _ s R) as [H _].
  split; [exact V|]. rewrite V in H.
  destruct (timers s); [reflexivity|simpl in H; lia].
Defined.

End SafetyMonitoring.

Section SafetyLimitsTable.

Import Js SafetyController.
Local Open Scope float_scope.

Lemma port_named_name p : port_named (Hub.name p) = Some p.
Proof. destruct p; reflexivity. Qed.

Lemma port_named_some port p : port_named port = Some p -> port = Hub.name p.
Proof.
  unfold port_named, Hub.ports. cbn [find Hub.name].
  destruct (String.eqb_spec "A" port) as [<-|_]; [now intros [= <-]|].
  destruct (String.eqb_spec "B" port) as [<-|_]; [now intros [= <-]|].
  destruct (String.eqb_spec "C" port) as [<-|_]; [now intros [= <-]|].
  discriminate.
Qed.

Lemma eqb_same p : Hub.eqb p p = true.
Proof. now destruct p. Qed.

Lemma eqb_other p q : q <> p -> Hub.eqb q p = false.
Proof. destruct p, q; intros H; try reflexivity; congruence. Qed.

(** [updateLimits] and [getLimits].  On a controller that has its hub
    and for a port 'A', 'B' or 'C' the update succeeds whatever values
    it is given (they are not checked against each other or against
    anything) and is notified as information; [getLimits] then returns
    the old limits of the port overridden by the fields that were
    given, the limits of the other ports are as before, and giving the
    same update again changes nothing more.  For any other port name
    the update fails, no limit changes, and [getLimits] returns null.
    On a controller without a hub every update fails, whatever the
    port: the only effect is the notification 'Cannot update limits: No
    hub connected', and [getLimits] answers as before.  In no case does
    an update touch the stop flag or the monitoring. *)
Theorem updateLimits_then_getLimits :
  forall (hub : bool) port newLimits s,
    (if hub then
       match port_named port with
       | Some p =>
           port = Hub.name p /\
           fst (updateLimits true port newLimits s) = true /\
           log (snd (updateLimits true port newLimits s))
           = log s ++ [Notified [Lit "Updated limits for motor "; Lit port]
                                info] /\
           fst (getLimits port (snd (updateLimits true port newLimits s)))
           = Some (spread (limits s p) newLimits) /\
           (forall q, q <> p ->
              fst (getLimits (Hub.name q)
                     (snd (updateLimits true port newLimits s)))
              = fst (getLimits (Hub.name q) s)) /\
           limits (snd (updateLimits true port newLimits
                          (snd (updateLimits true port newLimits s)))) p
           = limits (snd (updateLimits true port newLimits s)) p
       | None =>
           fst (updateLimits true port newLimits s) = false /\
           log (snd (updateLimits true port newLimits s))
           = log s ++ [Notified [Lit "Invalid port "; Lit port;
                                 Lit " for limit update"] error] /\
           limits (snd (updateLimits true port newLimits s)) = limits s /\
           fst (getLimits port s) = None
       end
     else
       fst (updateLimits false port newLimits s) = false /\
       log (snd (updateLimits false port newLimits s))
       = log s ++ [Notified (lit "Cannot update limits: No hub connected")
                            error] /\
       limits (snd (updateLimits false port newLimits s)) = limits s /\
       fst (getLimits port (snd (updateLimits false port newLimits s)))
       = fst (getLimits port s)) /\
    stopRequested (snd (updateLimits hub port newLimits s))
    = stopRequested s /\
    monitoringInterval (snd (updateLimits hub port newLimits s))
    = monitoringInterval s.
Proof.
  intros [|] port newLimits s; unfold updateLimits, getLimits; cbn [negb].
  - destruct (port_named port) as [p|] eqn:E.
    + cbn [fst snd notifyViolation observe limits stopRequested
           monitoringInterval log].
      rewrite eqb_same. split; [|split; reflexivity].
      split; [now apply port_named_some|]. split; [reflexivity|].
      split; [reflexivity|]. split; [reflexivity|]. split.
      * intros q Hq. rewrite port_named_name. cbn [fst limits].
        now rewrite (eqb_other Hq).
      * destruct newLimits as [[a|] [b|] [c|] [d|] [e|] [f|] [g|]];
          reflexivity.
    + cbn [fst snd notifyViolation observe limits stopRequested
           monitoringInterval log]. repeat split.
  - cbn [fst snd notifyViolation observe limits stopRequested
         monitoringInterval log].
    split; [|split; reflexivity].
    split; [reflexivity|]. split; [reflexivity|]. split; [reflexivity|].
    destruct (port_named port); reflexivity.
Qed.

End SafetyLimitsTable.

(* ================================================================== *)
(** * More about the Path Planner *)
(* ================================================================== *)

Section ParsedPaths.

Import Js Types PathProcessor PathPlanner.
Local Open Scope float_scope.

Lemma endPenUp_snoc init m :
  endPenUp (init ++ [m])
  = init ++ [m; PlotterMove.mk (PlotterMove.type m) (PlotterMove.x m)
                               (PlotterMove.y m) (Some 0)].
Proof.
  unfold endPenUp. rewrite rev_app_distr. simpl.
  now rewrite <- app_assoc.
Qed.

(** What [parseSVGPath] returns is empty, or it ends with a move that
    repeats the move before it (same kind, same point) with the pen at
    0: the path always ends with the pen up. *)
Theorem parseSVGPath_ends_with_pen_up :
  forall commands scale moves,
    parseSVGPath commands scale = Ok moves ->
    moves = [] \/
    exists init m,
      moves = init ++ [m; PlotterMove.mk (PlotterMove.type m)
                                         (PlotterMove.x m) (PlotterMove.y m)
                                         (Some 0)].
Proof.
  intros commands scale moves. unfold parseSVGPath, parsedMoves.
  destruct (fst (fold_left (processCommand scale) commands ([], false)))
    as [|m0 raw] using rev_ind.
  - cbn. intros [= <-]. now left.
  - clear IHraw. rewrite endPenUp_snoc. unfold validateAndScalePath.
    cbv zeta. destruct (existsb _ _); [discriminate|].
    intros [= <-]. right. rewrite map_app.
    match goal with
    | |- context [map ?f raw] => exists (map f raw), (f m0)
    end.
    reflexivity.
Qed.

Lemma parseSVGPath_ends_with_pen_up_witness :
  exists init m,
    parseSVGPath [moveto 10 10; lineto 20 30] 1 = Ok (init ++ [m]) /\
    PlotterMove.z m = Some 0.
Proof.
  destruct (parseSVGPath [moveto 10 10; lineto 20 30] 1) as [moves|e] eqn:E;
    [|vm_compute in E; discriminate].
  destruct (parseSVGPath_ends_with_pen_up _ _ E) as [->|(init & m & ->)].
  - vm_compute in E. discriminate.
  - exists (init ++ [m]), (PlotterMove.mk (PlotterMove.type m) (PlotterMove.x m)
                                          (PlotterMove.y m) (Some 0)).
    split; [now rewrite <- app_assoc|reflexivity].
Defined.

(** *** The pen is down for every stroke *)

Lemma pen_kept_down_app l1 : forall pen l2,
  pen_kept_down pen (l1 ++ l2)
  = pen_kept_down pen l1 && pen_kept_down (pen_after pen l1) l2.
Proof.
  induction l1 as [|m l1 IH]; intros pen l2; [reflexivity|].
  simpl. destruct (PlotterMove.z m) as [z|]; [apply IH|].
  rewrite IH. now rewrite andb_assoc.
Qed.

Lemma pen_after_app l1 : forall pen l2,
  pen_after pen (l1 ++ l2) = pen_after (pen_after pen l1) l2.
Proof.
  induction l1 as [|m l1 IH]; intros pen l2; [reflexivity|].
  simpl. apply IH.
Qed.

Lemma fold_left_step (A B : Type) (f : A -> B -> A) (b : B) (l : list B) (a : A) :
  fold_left f (b :: l) a = fold_left f l (f a b).
Proof. reflexivity. Qed.

(** What holds between two commands. *)
Lemma lineTo_keeps_pen_down px py moves penDown :
  pen_kept_down None moves = true ->
  (penDown = true -> is_down (pen_after None moves) = true) ->
  pen_kept_down None (fst (lineTo px py (moves, penDown))) = true /\
  snd (lineTo px py (moves, penDown)) = true /\
  is_down (pen_after None (fst (lineTo px py (moves, penDown)))) = true.
Proof.
  intros Hk Hd. unfold lineTo. destruct penDown; cbn [fst snd].
  - rewrite pen_kept_down_app, pen_after_app, Hk. simpl.
    rewrite (Hd eq_refl). repeat split.
  - rewrite <- app_assoc, pen_kept_down_app, pen_after_app, Hk. simpl.
    repeat split.
Qed.

Lemma points_keep_pen_down scale points : forall st : LoopState,
  pen_kept_down None (fst st) = true ->
  (snd st = true -> is_down (pen_after None (fst st)) = true) ->
  pen_kept_down None
    (fst (fold_left (fun st' p => lineTo (fst p * scale) (snd p * scale) st')
                    points st)) = true /\
  (snd (fold_left (fun st' p => lineTo (fst p * scale) (snd p * scale) st')
                  points st) = true ->
   is_down (pen_after None
              (fst (fold_left
                      (fun st' p => lineTo (fst p * scale) (snd p * scale) st')
                      points st))) = true).
Proof.
  induction points as [|p points IH]; intros [moves penDown] Hk Hd;
    [split; assumption|].
  rewrite fold_left_step. cbv beta. cbn [fst snd] in Hk, Hd.
  destruct (@lineTo_keeps_pen_down (fst p * scale) (snd p * scale)
              moves penDown Hk Hd) as (H1 & H2 & H3).
  apply IH; [exact H1|intros _; exact H3].
Qed.

Lemma processCommand_keeps_pen_down scale cmd moves penDown :
  closes cmd = false ->
  pen_kept_down None moves = true ->
  (penDown = true -> is_down (pen_after None moves) = true) ->
  pen_kept_down None (fst (processCommand scale (moves, penDown) cmd)) = true /\
  (snd (processCommand scale (moves, penDown) cmd) = true ->
   is_down (pen_after None (fst (processCommand scale (moves, penDown) cmd)))
   = true).
Proof.
  intros Hc Hk Hd. unfold processCommand. unfold closes in Hc.
  destruct (falsy (SVGCommand.x cmd) || falsy (SVGCommand.y cmd)) eqn:Hf;
    [split; assumption|].
  destruct (SVGCommand.x cmd) as [cx|]; [|split; assumption].
  destruct (SVGCommand.y cmd) as [cy|]; [|split; assumption].
  destruct (String.eqb (SVGCommand.code cmd) "M") eqn:EM.
  { cbn [fst snd]. rewrite pen_kept_down_app, Hk. split; [reflexivity|].
    discriminate. }
  destruct (String.eqb (SVGCommand.code cmd) "L") eqn:EL.
  { destruct (@lineTo_keeps_pen_down (cx * scale) (cy * scale) moves penDown
                Hk Hd) as (H1 & _ & H3).
    split; [exact H1|intros _; exact H3]. }
  destruct (String.eqb (SVGCommand.code cmd) "C") eqn:EC.
  { destruct (SVGCommand.x0 cmd) as [bx0|]; [|split; assumption].
    destruct (SVGCommand.y0 cmd) as [by0|]; [|split; assumption].
    destruct (SVGCommand.x1 cmd) as [bx1|]; [|split; assumption].
    destruct (SVGCommand.y1 cmd) as [by1|]; [|split; assumption].
    destruct (SVGCommand.x2 cmd) as [bx2|]; [|split; assumption].
    destruct (SVGCommand.y2 cmd) as [by2|]; [|split; assumption].
    now apply points_keep_pen_down. }
  cbn [negb] in Hc. rewrite andb_true_r in Hc. rewrite Hc.
  split; assumption.
Qed.

Lemma loop_keeps_pen_down scale commands : forall st : LoopState,
  forallb (fun cmd => negb (closes cmd)) commands = true ->
  pen_kept_down None (fst st) = true ->
  (snd st = true -> is_down (pen_after None (fst st)) = true) ->
  pen_kept_down None (fst (fold_left (processCommand scale) commands st))
  = true.
Proof.
  induction commands as [|cmd commands IH]; intros [moves penDown] Hc Hk Hd;
    [exact Hk|].
  cbn [forallb] in Hc. apply andb_true_iff in Hc. destruct Hc as [Hc1 Hc2].
  apply negb_true_iff in Hc1. rewrite fold_left_step.
  cbn [fst snd] in Hk, Hd.
  destruct (@processCommand_keeps_pen_down scale cmd moves penDown Hc1 Hk Hd)
    as [H1 H2].
  now apply IH.
Qed.

Lemma pen_kept_down_with_xy (f g : PlotterMove.t -> number) moves : forall pen,
  pen_kept_down pen (map (fun m => with_xy m (f m) (g m)) moves)
  = pen_kept_down pen moves.
Proof.
  induction moves as [|m moves IH]; intros pen; [reflexivity|].
  cbn [map pen_kept_down with_xy PlotterMove.z PlotterMove.type].
  destruct (PlotterMove.z m); now rewrite IH.
Qed.

(** In the moves parsed from a path whose close-path commands carry no
    coordinates (as the parser's never do), every stroke is made with
    the pen down: each Draw move that does not itself set the pen comes
    after a move that has sent the pen to -45 with no move in between
    that has sent it elsewhere.  Scaling keeps this. *)
Theorem parsed_strokes_have_the_pen_down :
  forall commands scale,
    forallb (fun cmd => negb (closes cmd)) commands = true ->
    pen_kept_down None (parsedMoves commands scale) = true /\
    (forall moves, parseSVGPath commands scale = Ok moves ->
                   pen_kept_down None moves = true).
Proof.
  intros commands scale Hc.
  assert (Hraw : pen_kept_down None (parsedMoves commands scale) = true).
  { unfold parsedMoves.
    pose proof (@loop_keeps_pen_down scale commands ([], false) Hc eq_refl
                  (fun H => False_ind _ (diff_false_true H))) as Hk.
    destruct (fst (fold_left (processCommand scale) commands ([], false)))
      as [|m0 raw] using rev_ind; [reflexivity|].
    rewrite endPenUp_snoc.
    change [m0; PlotterMove.mk (PlotterMove.type m0) (PlotterMove.x m0)
                               (PlotterMove.y m0) (Some 0)]
      with ([m0] ++ [PlotterMove.mk (PlotterMove.type m0) (PlotterMove.x m0)
                                    (PlotterMove.y m0) (Some 0)]).
    rewrite app_assoc, pen_kept_down_app, Hk. reflexivity. }
  split; [exact Hraw|]. intros moves. unfold parseSVGPath.
  unfold validateAndScalePath. cbv zeta.
  destruct (existsb _ _); [discriminate|]. intros [= <-].
  now rewrite pen_kept_down_with_xy.
Qed.

Lemma parsed_strokes_have_the_pen_down_witness :
  pen_kept_down None (parsedMoves closed_path 1) = true.
Proof.
  exact (proj1 (@parsed_strokes_have_the_pen_down closed_path 1 eq_refl)).
Defined.

End ParsedPaths.

Section LoadedSequences.

Import Js Types PathProcessor PathPlanner.
Local Open Scope float_scope.



End LoadedSequences.
